(** * soong_zip: a shallow embedding of cmd/soong_zip/soong_zip.go

    The development follows the Go source function by function.  Byte
    slices are [list byte], Go integers are [Z] with their conversions
    written out, Go maps are [gmap], and the goroutines of [write] are a
    scheduler-driven transition system over explicit channel states. *)

From Stdlib Require Import ZArith Lia Bool Ascii String Sorted.
From Stdlib.Strings Require Import Byte.
From stdpp Require Import base option list gmap strings.

Local Open Scope string_scope.
Local Open Scope list_scope.
Local Open Scope Z_scope.

(** ** Bytes and strings *)

Abbreviation bytes := (list byte).

(** Go's [byte(n)] conversion of an integer: the low eight bits. *)
Definition byte_of_int (n : Z) : byte :=
  match Byte.of_N (Z.to_N (n mod 256)) with
  | Some b => b
  | None => x00
  end.

(** Go's [[]byte(s)] conversion of a string. *)
Definition bytes_of_string (s : string) : bytes := list_byte_of_string s.

(** Go's [len] on a byte slice, as an [int]. *)
Definition len {A} (l : list A) : Z := Z.of_nat (length l).

(** ** Constants of the source *)

(** Block size used during parallel compression of a single file. *)
Definition parallelBlockSize : Z := 1 * 1024 * 1024.

(** Minimum file size to use parallel compression. *)
Definition minParallelFileSize : Z := parallelBlockSize * 6.

(** Size of the ZIP compression window (32KB). *)
Definition windowSize : Z := 32 * 1024.

(** The file path in the zip at which a Java manifest file gets written. *)
Definition manifestDest : string := "META-INF/MANIFEST.MF".

(** [zip.Store] and [zip.Deflate], values of the [uint16] method field. *)
Definition zip_Store : Z := 0.
Definition zip_Deflate : Z := 8.

(** [os.ModeDir] and [os.ModeSymlink], bits of an [os.FileMode]. *)
Definition os_ModeDir : Z := Z.shiftl 1 31.
Definition os_ModeSymlink : Z := Z.shiftl 1 27.

(** [time.Date(2009, 1, 1, 0, 0, 0, 0, time.UTC)] in Unix seconds. *)
Definition zip_time : Z := 1230768000.

(** ** path/filepath on a slash-separated file system

    [filepath.Clean] and [filepath.Dir] belong to the Go library; they are
    modelled by their documented behaviour: a path is cut into elements at
    slashes, empty and [.] elements vanish, [..] removes the element before
    it (or stays, in front of a relative path), and the result is [.] when
    nothing is left. *)
Module filepath.

Fixpoint split_from (cur s : string) : list string :=
  match s with
  | EmptyString => [cur]
  | String c s' =>
      if Ascii.eqb c "/" then cur :: split_from "" s'
      else split_from (cur +:+ String c "") s'
  end.

Definition split (s : string) : list string := split_from "" s.

Definition rooted (s : string) : bool :=
  match s with
  | String c _ => Ascii.eqb c "/"
  | EmptyString => false
  end.

(** The elements kept so far, last element first. *)
Definition push (root : bool) (stack : list string) (e : string) : list string :=
  if String.eqb e "" then stack
  else if String.eqb e "." then stack
  else if String.eqb e ".." then
    match stack with
    | [] => if root then [] else [".."]
    | top :: rest => if String.eqb top ".." then ".." :: stack else rest
    end
  else e :: stack.

Fixpoint join (es : list string) : string :=
  match es with
  | [] => ""
  | [e] => e
  | e :: es' => e +:+ "/" +:+ join es'
  end.

Definition Clean (path : string) : string :=
  let root := rooted path in
  let es := rev (fold_left (push root) (split path) []) in
  match es with
  | [] => if root then "/" else "."
  | _ => (if root then "/" else "") +:+ join es
  end.

(** The prefix of [s] up to and including its last slash. *)
Fixpoint upto_last_slash (s : string) : string :=
  match s with
  | EmptyString => ""
  | String c s' =>
      let r := upto_last_slash s' in
      if Ascii.eqb c "/" then String c r
      else match r with
           | EmptyString => ""
           | _ => String c r
           end
  end.

Definition Dir (path : string) : string := Clean (upto_last_slash path).

(** Predicates on paths for the statements below. *)
Fixpoint no_slash (s : string) : bool :=
  match s with
  | EmptyString => true
  | String c s' => negb (Ascii.eqb c "/") && no_slash s'
  end.

Fixpoint ends_slash (s : string) : bool :=
  match s with
  | EmptyString => false
  | String c EmptyString => Ascii.eqb c "/"
  | String _ s' => ends_slash s'
  end.

(** An element that [Clean] keeps. *)
Definition kept (e : string) : Prop := e ≠ "" ∧ no_slash e = true.

End filepath.


(** ** Errors and results *)

Inductive error : Type :=
| os_error (op path : string)
    (* an error of the operating system or of the zip encoder *)
| dir_and_file (dest dirsrc filesrc : string)
    (* destination %q is both a directory %q and a file %q *)
| two_files (dest prev src : string)
    (* destination %q has two files %q and %q *)
| not_a_file (src : string)
    (* %s is not a file, directory, or symlink *)
| manifest_without_jar
    (* must specify --jar when specifying a manifest via -m *)
| flate_level (level : Z).
    (* flate: invalid compression level *)

Inductive result (A : Type) : Type :=
| Ok (a : A)
| Err (e : error).
Arguments Ok {A} a.
Arguments Err {A} e.

(** ** Go integer conversions *)

(** [int64(x)] for a [uint64] (or wider intermediate) value [x]. *)
Definition int64 (x : Z) : Z :=
  let r := x mod 2 ^ 64 in
  if r <? 2 ^ 63 then r else r - 2 ^ 64.

(** [uint64(x)] for an [int64] value [x]. *)
Definition uint64 (x : Z) : Z := x mod 2 ^ 64.

(** ** The file system and the libraries the program calls

    The results of the system calls are given per path; the content of an
    opened file comes with the faults its reads can meet, one per place
    where the program reads. *)

Record FileInfo := {
  fi_Mode : Z;      (* os.FileMode *)
  fi_Size : Z       (* int64 *)
}.

Definition os_ModeType : Z :=
  Z.lor (Z.lor (Z.lor os_ModeDir os_ModeSymlink)
               (Z.lor (Z.shiftl 1 25) (Z.shiftl 1 24)))
        (Z.lor (Z.lor (Z.shiftl 1 26) (Z.shiftl 1 21)) (Z.shiftl 1 19)).

Definition IsDir (s : FileInfo) : bool :=
  negb (Z.land (fi_Mode s) os_ModeDir =? 0).

Definition IsRegular (s : FileInfo) : bool :=
  Z.land (fi_Mode s) os_ModeType =? 0.

Inductive ioop : Type :=
| crc_read                  (* io.Copy(crc, r) *)
| rewind                    (* r.Seek(0, 0) in compressWholeFile *)
| flate_read                (* io.Copy(fw, r) of the whole file *)
| reread_seek               (* reader.Seek(0, 0) in readFile *)
| reread                    (* ioutil.ReadAll(reader) in readFile *)
| window_read (start : Z)   (* ReadAll of the window before start *)
| block_read (start : Z).   (* io.Copy(fw, sr) of the block at start *)

(** A [readerSeekerCloser]: the bytes behind it and the faults of its reads. *)
Record Source := {
  data : bytes;
  fault : ioop -> option error
}.

(** [bytes.NewReader(b)] wrapped in a [byteReaderCloser]: reads never fail. *)
Definition byteReaderCloser (b : bytes) : Source :=
  {| data := b; fault := fun _ => None |}.

Record FS := {
  Lstat : string -> result FileInfo;
  Open : string -> result Source;
  ReadFile : string -> result bytes;
  Readlink : string -> result string;
  Create : string -> option error;
  Walk : string -> list string;      (* the files filepath.Walk visits *)
  trace_Start : option error
}.

Inductive flateOp : Type :=
| FWrite (b : bytes)
| FFlush
| FClose.

(** hash/crc32, compress/flate, android/soong/jar, strings and the part of
    path/filepath that only [fillPathPairs] uses. [flate_bytes level
    dict ops] is what a [flate.Writer] of that level and dictionary has put
    into its buffer after the calls [ops], counted from its creation or
    last [Reset]. *)
Class Lib := {
  crc32 : bytes -> Z;
  flate_bytes : Z -> bytes -> list flateOp -> bytes;
  EntryNamesLess : string -> string -> bool;
  TrimSpace : string -> string;
  Rel : string -> string -> result string;
  Join : string -> string -> string
}.

(** ** zip.FileHeader and the entries of the pipeline *)

Record FileHeader := {
  Name : string;
  Method : Z;                 (* uint16 *)
  CRC32 : Z;                  (* uint32 *)
  CompressedSize64 : Z;       (* uint64 *)
  UncompressedSize : Z;       (* uint32 *)
  UncompressedSize64 : Z;     (* uint64 *)
  Extra : bytes;
  FileMode : Z;               (* the mode given to SetMode *)
  ModTime : Z                 (* the time given to SetModTime *)
}.

(** [&zip.FileHeader{Name: name, Method: method, UncompressedSize64: size}];
    the other fields have their zero value. *)
Definition newFileHeader (name : string) (method size : Z) : FileHeader :=
  {| Name := name; Method := method; CRC32 := 0; CompressedSize64 := 0;
     UncompressedSize := 0; UncompressedSize64 := size; Extra := [];
     FileMode := 0; ModTime := 0 |}.

Definition SetMode (h : FileHeader) (mode : Z) : FileHeader :=
  {| Name := Name h; Method := Method h; CRC32 := CRC32 h;
     CompressedSize64 := CompressedSize64 h;
     UncompressedSize := UncompressedSize h;
     UncompressedSize64 := UncompressedSize64 h; Extra := Extra h;
     FileMode := mode; ModTime := ModTime h |}.

Definition SetModTime (h : FileHeader) (t : Z) : FileHeader :=
  {| Name := Name h; Method := Method h; CRC32 := CRC32 h;
     CompressedSize64 := CompressedSize64 h;
     UncompressedSize := UncompressedSize h;
     UncompressedSize64 := UncompressedSize64 h; Extra := Extra h;
     FileMode := FileMode h; ModTime := t |}.

Definition set_Extra (h : FileHeader) (e : bytes) : FileHeader :=
  {| Name := Name h; Method := Method h; CRC32 := CRC32 h;
     CompressedSize64 := CompressedSize64 h;
     UncompressedSize := UncompressedSize h;
     UncompressedSize64 := UncompressedSize64 h; Extra := e;
     FileMode := FileMode h; ModTime := ModTime h |}.

Definition set_CRC32 (h : FileHeader) (c : Z) : FileHeader :=
  {| Name := Name h; Method := Method h; CRC32 := c;
     CompressedSize64 := CompressedSize64 h;
     UncompressedSize := UncompressedSize h;
     UncompressedSize64 := UncompressedSize64 h; Extra := Extra h;
     FileMode := FileMode h; ModTime := ModTime h |}.

Definition set_Method (h : FileHeader) (m : Z) : FileHeader :=
  {| Name := Name h; Method := m; CRC32 := CRC32 h;
     CompressedSize64 := CompressedSize64 h;
     UncompressedSize := UncompressedSize h;
     UncompressedSize64 := UncompressedSize64 h; Extra := Extra h;
     FileMode := FileMode h; ModTime := ModTime h |}.

Definition set_CompressedSize64 (h : FileHeader) (n : Z) : FileHeader :=
  {| Name := Name h; Method := Method h; CRC32 := CRC32 h;
     CompressedSize64 := n;
     UncompressedSize := UncompressedSize h;
     UncompressedSize64 := UncompressedSize64 h; Extra := Extra h;
     FileMode := FileMode h; ModTime := ModTime h |}.

(** A [zipEntry]. [futureReaders] tells whether the field holds a channel
    ([true]) or is nil; the channel itself is kept with the entry's slot in
    the state of the pipeline. *)
Record zipEntry := {
  fh : FileHeader;
  futureReaders : bool;
  allocatedSize : Z           (* int64 *)
}.

Definition set_fh (ze : zipEntry) (h : FileHeader) : zipEntry :=
  {| fh := h; futureReaders := futureReaders ze;
     allocatedSize := allocatedSize ze |}.

Definition set_futureReaders (ze : zipEntry) (b : bool) : zipEntry :=
  {| fh := fh ze; futureReaders := b; allocatedSize := allocatedSize ze |}.

(** The command-line flags that the functions below read. *)
Record Flags := {
  flag_out : string;
  flag_manifest : string;
  flag_directories : bool;
  flag_parallelJobs : Z;
  flag_compLevel : Z;
  flag_emulateJar : bool;
  flag_cpuProfile : string;
  flag_traceFile : string
}.

Record pathMapping := {
  dest : string;
  src : string;
  zipMethod : Z
}.

(** ** Channels *)

(** A Go channel: what it holds, its capacity and whether it was closed.
    A nil channel has capacity 0 and never takes a value. *)
Record chan (A : Type) := {
  buf : list A;
  cap : Z;
  closed : bool
}.
Arguments buf {A} c.
Arguments cap {A} c.
Arguments closed {A} c.

Definition make_chan {A} (n : Z) : chan A :=
  {| buf := []; cap := n; closed := false |}.

Definition can_send {A} (c : chan A) : bool := len (buf c) <? cap c.

Definition send {A} (c : chan A) (x : A) : chan A :=
  {| buf := buf c ++ [x]; cap := cap c; closed := closed c |}.

Definition close {A} (c : chan A) : chan A :=
  {| buf := buf c; cap := cap c; closed := true |}.

Definition pop {A} (c : chan A) : chan A :=
  {| buf := tail (buf c); cap := cap c; closed := closed c |}.

(** ** Steps of the goroutines

    A goroutine other than the writer never branches on what another
    goroutine did: it is the list of the channel and limiter operations it
    performs, in the order of the source.  A worker acts on the channels of
    the entry it was started for. *)

Inductive weff : Type :=
| WMakeReaders (n : Z)                (* ze.futureReaders = make(chan chan io.Reader, n) *)
| WSendReaders (j : nat)              (* ze.futureReaders <- futureReader *)
| WCloseReaders                       (* close(ze.futureReaders) *)
| WSendResult (j : nat) (b : bytes)   (* resultChan <- result *)
| WCloseResult (j : nat)              (* close(futureReader) *)
| WCpuFinish                          (* z.cpuRateLimiter.Finish() *)
| WSendEntry (ze : zipEntry)          (* compressChan <- ze *)
| WCloseEntry                         (* close(compressChan) *)
| WError (e : error).                 (* z.errors <- err; return *)

(** What hangs on one [chan *zipEntry] handed to [z.writeOps]: the channel
    itself, the [futureReaders] channel of its entry (which holds the
    numbers of the reader channels sent into it), the reader channels, and
    the goroutines started for the entry that are still running. *)
Record opState := {
  entry_chan : chan zipEntry;
  readers_chan : chan nat;
  result_chans : gmap nat (chan bytes);
  workers : list (list weff)
}.

Inductive peff : Type :=
| PSendOp (init : opState)    (* z.writeOps <- c, for a new channel c *)
| PCpuRequest                 (* z.cpuRateLimiter.Request() *)
| PMemRequest (n : Z)         (* z.memoryRateLimiter.Request(n) *)
| PMakeReaders (n : Z)        (* ze.futureReaders = make(chan chan io.Reader, n) *)
| PSendReaders (j : nat)      (* ze.futureReaders <- resultChan, a new channel *)
| PCloseReaders               (* close(ze.futureReaders) *)
| PGo (w : list weff)         (* go ... *)
| PError (e : error)          (* z.errors <- err; return *)
| PCloseWriteOps.             (* close(z.writeOps), deferred *)

(** ** The producer's state: the [zipWriter] fields it owns *)

Record zipWriter := {
  time : Z;
  createdFiles : gmap string string;
  createdDirs : gmap string string;
  directories : bool;
  compLevel : Z
}.

Definition set_createdFiles (z : zipWriter) (m : gmap string string) : zipWriter :=
  {| time := time z; createdFiles := m; createdDirs := createdDirs z;
     directories := directories z; compLevel := compLevel z |}.

Definition set_createdDirs (z : zipWriter) (m : gmap string string) : zipWriter :=
  {| time := time z; createdFiles := createdFiles z; createdDirs := m;
     directories := directories z; compLevel := compLevel z |}.

(** The functions that run in the producer goroutine read and update the
    [zipWriter], append to the list of steps performed, and may return an
    error; an error keeps what was done before it. *)
Definition P (A : Type) : Type :=
  zipWriter -> list peff -> result A * zipWriter * list peff.

Definition ret {A} (a : A) : P A := fun z t => (Ok a, z, t).

Definition fail {A} (e : error) : P A := fun z t => (Err e, z, t).

Definition bind {A B} (m : P A) (k : A -> P B) : P B :=
  fun z t =>
    match m z t with
    | (Ok a, z', t') => k a z' t'
    | (Err e, z', t') => (Err e, z', t')
    end.

Definition get : P zipWriter := fun z t => (Ok z, z, t).

Definition put (z' : zipWriter) : P unit := fun _ t => (Ok tt, z', t).

Definition emit (e : peff) : P unit := fun z t => (Ok tt, z, t ++ [e]).

Definition lift {A} (r : result A) : P A :=
  match r with
  | Ok a => ret a
  | Err e => fail e
  end.

Notation "'let*' x ':=' m 'in' k" := (bind m (fun x => k))
  (at level 10, x name, m at level 100, k at level 200).
Notation "'do' m 'then' k" := (bind m (fun _ => k))
  (at level 10, m at level 100, k at level 200).

Fixpoint for_each {A} (l : list A) (f : A -> P unit) : P unit :=
  match l with
  | [] => ret tt
  | x :: l' => do f x then for_each l' f
  end.

(** ** Extra fields and directories *)

Definition addExtraField (zipHeader : FileHeader) (fieldHeader : byte * byte)
    (data : bytes) : FileHeader :=
  (* add the field header in little-endian order *)
  let zipHeader :=
    set_Extra zipHeader (Extra zipHeader ++ [snd fieldHeader; fst fieldHeader]) in
  (* specify the length of the data (in little-endian order) *)
  let dataLength := len data in
  let lengthBytes :=
    [byte_of_int (Z.rem dataLength 256); byte_of_int (Z.quot dataLength 256)] in
  let zipHeader := set_Extra zipHeader (Extra zipHeader ++ lengthBytes) in
  (* add the contents of the extra field *)
  set_Extra zipHeader (Extra zipHeader ++ data).

(** A channel that was filled and closed before anybody else saw it. *)
Definition filled {A} (x : A) : chan A :=
  close (send (make_chan 1) x).

(** The nil channel. *)
Definition nil_chan {A} : chan A := make_chan 0.

(** The first loop of [writeDirectory]: discover any uncreated
    directories in the path.  Returns [dir] as the loop leaves it and
    [zipDirs].  Every turn but the last replaces [dir] by its parent, so
    [fuel] bounds the number of turns. *)
Fixpoint discover (fuel : nat) (src dir : string) (zipDirs : list string)
    : P (string * list string) :=
  match fuel with
  | O => ret (dir, zipDirs)
  | S fuel' =>
      if negb (String.eqb dir "") && negb (String.eqb dir ".") then
        let* z := get in
        match createdDirs z !! dir with
        | Some _ => ret (dir, zipDirs)
        | None =>
            match createdFiles z !! dir with
            | Some prev => fail (dir_and_file dir src prev)
            | None =>
                do put (set_createdDirs z (<[dir := src]> (createdDirs z))) then
                (* parent directories precede their children *)
                discover fuel' src (filepath.Dir dir) (dir :: zipDirs)
            end
        end
      else ret (dir, zipDirs)
  end.

(** [writeDirectory] annotates that dir is a directory created for the src
    file or directory, and adds the directory entry to the zip file if
    directories are enabled. *)
Definition writeDirectory (flags : Flags) (dir src : string) : P unit :=
  (* clean the input *)
  let dir := filepath.Clean dir in
  let* found := discover (String.length dir + 2) src dir [] in
  let '(dir, zipDirs) := found in
  let* z := get in
  if directories z then
    (* make a directory entry for each uncreated directory *)
    for_each zipDirs (fun cleanDir =>
      let dirHeader := newFileHeader (cleanDir +:+ "/") 0 0 in
      let dirHeader := SetMode dirHeader (Z.lor 448 os_ModeDir) in
      let dirHeader := SetModTime dirHeader (time z) in
      let dirHeader :=
        if flag_emulateJar flags && String.eqb dir "META-INF/" then
          (* Jar files have a 0-length extra field with header "CAFE" *)
          addExtraField dirHeader (xca, xfe) []
        else dirHeader in
      emit (PSendOp
        {| entry_chan :=
             filled {| fh := dirHeader; futureReaders := false;
                       allocatedSize := 0 |};
           readers_chan := nil_chan;
           result_chans := ∅;
           workers := [] |}))
  else ret tt.

(** The entries that the steps [t] hand to [z.writeOps] already filled. *)
Definition sent_entries (t : list peff) : list zipEntry :=
  flat_map (fun e =>
              match e with
              | PSendOp init => buf (entry_chan init)
              | _ => []
              end) t.

Definition writeSymlink (fs : FS) (rel file : string) : P unit :=
  let* z := get in
  let fileHeader := newFileHeader rel 0 0 in
  let fileHeader := SetModTime fileHeader (time z) in
  let fileHeader := SetMode fileHeader (Z.lor 448 os_ModeSymlink) in
  let* dest := lift (Readlink fs file) in
  emit (PSendOp
    {| entry_chan :=
         filled {| fh := fileHeader; futureReaders := true;
                   allocatedSize := 0 |};
       readers_chan := filled 0%nat;
       result_chans := {[ 0%nat := filled (bytes_of_string dest) ]};
       workers := [] |}).

(** ** The block compressor *)

(** A [*flate.Writer]: its level and dictionary, the calls made on it since
    it was created or last reset, and how often it was reset. *)
Record flateWriter := {
  fw_level : Z;
  fw_dict : bytes;
  fw_ops : list flateOp;
  fw_resets : nat
}.

(** [flate.NewWriter] and [flate.NewWriterDict] refuse a level outside
    [HuffmanOnly .. BestCompression]. *)
Definition level_ok (level : Z) : bool := (-2 <=? level) && (level <=? 9).

Definition NewWriterDict (level : Z) (dict : bytes) : result flateWriter :=
  if level_ok level
  then Ok {| fw_level := level; fw_dict := dict; fw_ops := []; fw_resets := 0 |}
  else Err (flate_level level).

Definition NewWriter (level : Z) : result flateWriter := NewWriterDict level [].

Definition Reset (fw : flateWriter) : flateWriter :=
  {| fw_level := fw_level fw; fw_dict := fw_dict fw; fw_ops := [];
     fw_resets := S (fw_resets fw) |}.

Definition call (fw : flateWriter) (op : flateOp) : flateWriter :=
  {| fw_level := fw_level fw; fw_dict := fw_dict fw;
     fw_ops := fw_ops fw ++ [op]; fw_resets := fw_resets fw |}.

(** [z.compressorPool]: the values put into it.  [None] is a nil
    [*flate.Writer], which [Put] stores like any other value. *)
Abbreviation Pool := (list (option flateWriter)).

(** [Pool.Get]: [pick] names the pooled value that the pool hands out;
    a [sync.Pool] may also hand out nothing. *)
Definition Pool_Get (pick : option nat) (pool : Pool)
    : option (option flateWriter) * Pool :=
  match pick with
  | None => (None, pool)
  | Some i =>
      match pool !! i with
      | None => (None, pool)
      | Some x => (Some x, delete i pool)
      end
  end.

Definition Pool_Put (pool : Pool) (x : option flateWriter) : Pool := pool ++ [x].

Inductive origin : Type :=
| by_NewWriterDict
| by_NewWriter
| by_Reset.

(** One call of [compressBlock]: what it returns ([None] when it panics),
    the writer it used as it leaves it, where the writer came from, whether
    the deferred [Put] ran, and the pool afterwards. *)
Record blockRun := {
  br_result : option (result bytes);
  br_writer : option flateWriter;
  br_origin : origin;
  br_put : bool;
  br_pool : Pool
}.

Section WithLib.
Context `{lib : Lib}.

(** The tail of [compressBlock], from [io.Copy(fw, r)] on; [input] is what
    the copy reads from [r]. *)
Definition compressBlock_copy (fw : flateWriter) (input : result bytes)
    (last : bool) : result bytes * flateWriter :=
  match input with
  | Err e => (Err e, fw)
  | Ok b =>
      let fw := call fw (FWrite b) in
      let fw := if last then call fw FClose else call fw FFlush in
      (Ok (flate_bytes (fw_level fw) (fw_dict fw) (fw_ops fw)), fw)
  end.

Definition compressBlock (z : zipWriter) (pool : Pool) (pick : option nat)
    (input : result bytes) (dict : bytes) (last : bool) : blockRun :=
  if 0 <? len dict then
    (* There's no way to Reset a Writer with a new dictionary, so don't use
       the Pool *)
    match NewWriterDict (compLevel z) dict with
    | Err e =>
        {| br_result := Some (Err e); br_writer := None;
           br_origin := by_NewWriterDict; br_put := false; br_pool := pool |}
    | Ok fw =>
        let '(r, fw) := compressBlock_copy fw input last in
        {| br_result := Some r; br_writer := Some fw;
           br_origin := by_NewWriterDict; br_put := false; br_pool := pool |}
    end
  else
    match Pool_Get pick pool with
    | (Some None, pool) =>
        (* fw.Reset(buf) on a nil writer *)
        {| br_result := None; br_writer := None; br_origin := by_Reset;
           br_put := true; br_pool := Pool_Put pool None |}
    | (Some (Some fw), pool) =>
        let '(r, fw) := compressBlock_copy (Reset fw) input last in
        {| br_result := Some r; br_writer := Some fw; br_origin := by_Reset;
           br_put := true; br_pool := Pool_Put pool (Some fw) |}
    | (None, pool) =>
        match NewWriter (compLevel z) with
        | Err e =>
            {| br_result := Some (Err e); br_writer := None;
               br_origin := by_NewWriter; br_put := true;
               br_pool := Pool_Put pool None |}
        | Ok fw =>
            let '(r, fw) := compressBlock_copy fw input last in
            {| br_result := Some r; br_writer := Some fw;
               br_origin := by_NewWriter; br_put := true;
               br_pool := Pool_Put pool (Some fw) |}
        end
    end.

(** What [compressBlock] returns when the pool hands out nothing; by
    [compressBlock_pool] below a pooled writer gives the same bytes. *)
Definition compressBlock_result (z : zipWriter) (input : result bytes)
    (dict : bytes) (last : bool) : result bytes :=
  match br_result (compressBlock z [] None input dict last) with
  | Some r => r
  | None => Err (flate_level (compLevel z))
  end.

End WithLib.

(** ** Reading the sources *)

(** The outcome of the read [op] on [r] that would deliver [b]. *)
Definition read (r : Source) (op : ioop) (b : bytes) : result bytes :=
  match fault r op with
  | Some e => Err e
  | None => Ok b
  end.

(** What an [io.SectionReader] over [r] at [off] of [n] bytes delivers. *)
Definition section (r : Source) (off n : Z) : bytes :=
  take (Z.to_nat n) (drop (Z.to_nat off) (data r)).

(** The closure [readFile] of [compressWholeFile]. *)
Definition readFile (reader : Source) : result bytes :=
  match fault reader reread_seek with
  | Some e => Err e
  | None => read reader reread (data reader)
  end.

(** [bytes.Contains]. *)
Fixpoint has_prefix (sub b : bytes) : bool :=
  match sub, b with
  | [], _ => true
  | x :: sub', y :: b' => Byte.eqb x y && has_prefix sub' b'
  | _ :: _, [] => false
  end.

Fixpoint bytes_Contains (b sub : bytes) : bool :=
  has_prefix sub b ||
  match b with
  | [] => false
  | _ :: b' => bytes_Contains b' sub
  end.

(** The values that [f] picks from a list, in the order of the list. *)
Fixpoint pick {A B} (f : A -> option B) (l : list A) : list B :=
  match l with
  | [] => []
  | x :: l' =>
      match f x with
      | Some y => y :: pick f l'
      | None => pick f l'
      end
  end.

(** What a goroutine publishes: the entry it sends on [compressChan] and
    the buffers it sends on reader channels, in the order of the sends. *)
Definition published (w : list weff) : option zipEntry :=
  head (pick (fun e => match e with WSendEntry ze => Some ze | _ => None end) w).

Definition payload (w : list weff) : list bytes :=
  pick (fun e => match e with WSendResult _ b => Some b | _ => None end) w.

(** The pooled writers that [compressBlock] itself can have put: made by
    [NewWriter] at the level of [z]. *)
Definition pooled (z : zipWriter) (x : option flateWriter) : Prop :=
  ∃ fw, x = Some fw ∧ fw_level fw = compLevel z ∧ fw_dict fw = [].

(** In the words of the specification: the number of consecutive 1 MiB
    ranges into which a source of [fileSize] bytes is partitioned. *)
Definition nblocks (fileSize : Z) : nat :=
  Z.to_nat ((fileSize + parallelBlockSize - 1) / parallelBlockSize).

(** In the words of the specification: [b] contains the literal [sub]. *)
Definition contains_literal (b sub : bytes) : Prop :=
  ∃ pre post, b = pre ++ sub ++ post.

Section Workers.
Context `{lib : Lib}.

(** ** The worker goroutines *)

Definition crcFile (r : Source) (ze : zipEntry) : list weff :=
  match fault r crc_read with
  | Some e => [WError e; WCpuFinish]
  | None =>
      let ze := set_fh ze (set_CRC32 (fh ze) (crc32 (data r))) in
      [WSendEntry ze; WCloseEntry; WCpuFinish]
  end.

(** [r] and [start] stand for [sr = io.NewSectionReader(r, start,
    parallelBlockSize)], [j] for [resultChan]. *)
Definition compressPartialFile (z : zipWriter) (r : Source) (start : Z)
    (dict : bytes) (last : bool) (j : nat) : list weff :=
  let input := read r (block_read start) (section r start parallelBlockSize) in
  match compressBlock_result z input dict last with
  | Err e => [WError e]
  | Ok result => [WCpuFinish; WSendResult j result]
  end.

Definition compressWholeFile (z : zipWriter) (ze : zipEntry) (r : Source)
    : list weff :=
  match fault r crc_read with
  | Some e => [WError e]
  | None =>
      let ze := set_fh ze (set_CRC32 (fh ze) (crc32 (data r))) in
      match fault r rewind with
      | Some e => [WError e]
      | None =>
          let ze := set_futureReaders ze true in
          let made := [WMakeReaders 1; WSendReaders 0; WCloseReaders] in
          let publish (ze : zipEntry) (b : bytes) :=
            [WSendResult 0 b; WCpuFinish; WCloseResult 0;
             WSendEntry ze; WCloseEntry] in
          let store :=
            match readFile r with
            | Err e => made ++ [WError e]
            | Ok buf =>
                made ++ publish (set_fh ze (set_Method (fh ze) zip_Store)) buf
            end in
          if Method (fh ze) =? zip_Deflate then
            match compressBlock_result z (read r flate_read (data r)) [] true with
            | Err e => made ++ [WError e]
            | Ok compressed =>
                if len compressed <? UncompressedSize64 (fh ze)
                then made ++ publish ze compressed
                else store
            end
          else store
      end
  end.

(** ** The producer's functions *)

(** The loop of [writeFileContents] over the blocks of a large file; [j]
    counts the turns and names the turn's [resultChan]. *)
Fixpoint blocks (fuel : nat) (z : zipWriter) (r : Source) (fileSize : Z)
    (j : nat) (start : Z) : P unit :=
  match fuel with
  | O => ret tt
  | S fuel' =>
      if start <? fileSize then
        do emit (PSendReaders j) then
        do emit PCpuRequest then
        let last := negb (int64 (start + parallelBlockSize) <? fileSize) in
        let* dict :=
          (if start >=? windowSize
           then lift (read r (window_read start)
                        (section r (start - windowSize) windowSize))
           else ret []) in
        do emit (PGo (compressPartialFile z r start dict last j)) then
        blocks fuel' z r fileSize (S j) (int64 (start + parallelBlockSize))
      else ret tt
  end.

(** The compressed bytes of the range number [j] of a large file, as
    [compressBlock] makes them when the reads succeed. *)
Definition block (z : zipWriter) (r : Source) (fileSize : Z) (j : nat)
    : bytes :=
  let start := Z.of_nat j * parallelBlockSize in
  flate_bytes (compLevel z)
    (if windowSize <=? start
     then section r (start - windowSize) windowSize else [])
    [FWrite (section r start parallelBlockSize);
     if decide (S j = nblocks fileSize) then FClose else FFlush].

(** What one turn of the loop does for the range number [j]. *)
Definition turn (z : zipWriter) (r : Source) (fileSize : Z) (j : nat)
    : list peff :=
  [PSendReaders j; PCpuRequest;
   PGo [WCpuFinish; WSendResult j (block z r fileSize j)]].

Definition writeFileContents (header : FileHeader) (r : Source) : P unit :=
  let* z := get in
  let header := SetModTime header (time z) in
  do emit (PSendOp {| entry_chan := make_chan 1; readers_chan := nil_chan;
                      result_chans := ∅; workers := [] |}) then
  (* Pre-fill a zipEntry, it will be sent in the compressChan once we're
     sure about the Method and CRC. *)
  let ze := {| fh := header; futureReaders := false;
               allocatedSize := int64 (UncompressedSize64 header) |} in
  do emit PCpuRequest then
  do emit (PMemRequest (allocatedSize ze)) then
  let fileSize := int64 (UncompressedSize64 header) in
  let fileSize :=
    if fileSize =? 0 then int64 (UncompressedSize header) else fileSize in
  if (Method header =? zip_Deflate) && (fileSize >=? minParallelFileSize) then
    let n := Z.quot fileSize parallelBlockSize + 1 in
    do emit (PMakeReaders n) then
    let ze := set_futureReaders ze true in
    do emit (PGo (crcFile r ze)) then
    do blocks (Z.to_nat n) z r fileSize 0 0 then
    emit PCloseReaders
  else
    emit (PGo (compressWholeFile z ze r)).

(** imports (possibly with compression) [src] into the zip at sub-path
    [dest] *)
Definition addFile (flags : Flags) (fs : FS) (dest src : string) (method : Z)
    : P unit :=
  let* s := lift (Lstat fs src) in
  if IsDir s then
    let* z := get in
    if directories z then writeDirectory flags dest src else ret tt
  else
    do writeDirectory flags (filepath.Dir dest) src then
    let* z := get in
    match createdDirs z !! dest with
    | Some prev => fail (dir_and_file dest prev src)
    | None =>
        match createdFiles z !! dest with
        | Some prev => fail (two_files dest prev src)
        | None =>
            do put (set_createdFiles z (<[dest := src]> (createdFiles z))) then
            if negb (Z.land (fi_Mode s) os_ModeSymlink =? 0) then
              writeSymlink fs dest src
            else if negb (IsRegular s) then fail (not_a_file src)
            else
              let fileSize := fi_Size s in
              let executable := negb (Z.land (fi_Mode s) 64 =? 0) in
              let* r := lift (Open fs src) in
              let header := newFileHeader dest method (uint64 fileSize) in
              let header := if executable then SetMode header 448 else header in
              writeFileContents header r
        end
    end.

Definition manifestMarker : bytes := bytes_of_string "Manifest-Version:".

Definition manifestHeader : bytes :=
  manifestMarker ++
  (bytes_of_string " 1.0" ++ [x0a] ++
   bytes_of_string "Created-By: soong_zip" ++ [x0a]).

Definition addManifest (fs : FS) (dest src : string) (method : Z) : P unit :=
  let* givenBytes := lift (ReadFile fs src) in
  let* z := get in
  match createdDirs z !! dest with
  | Some prev => fail (dir_and_file dest prev src)
  | None =>
      match createdFiles z !! dest with
      | Some prev => fail (two_files dest prev src)
      | None =>
          let finalBytes :=
            if negb (bytes_Contains givenBytes manifestMarker)
            then (manifestHeader ++ givenBytes) ++ [x0a]
            else givenBytes in
          let reader := byteReaderCloser finalBytes in
          let fileHeader :=
            newFileHeader dest zip_Store (uint64 (len finalBytes)) in
          writeFileContents fileHeader reader
      end
  end.

(** [sort.SliceStable] by [jar.EntryNamesLess] on the destinations: equal
    elements keep their order. *)
Fixpoint jarInsert (m : pathMapping) (sorted : list pathMapping)
    : list pathMapping :=
  match sorted with
  | [] => [m]
  | m' :: rest =>
      if EntryNamesLess (dest m') (dest m)
      then m' :: jarInsert m rest
      else m :: sorted
  end.

Definition jarSort (mappings : list pathMapping) : list pathMapping :=
  foldr jarInsert [] mappings.

(** The loop of the goroutine that [write] starts. *)
Fixpoint produce (flags : Flags) (fs : FS) (pathMappings : list pathMapping)
    : P unit :=
  match pathMappings with
  | [] => ret tt
  | ele :: rest =>
      do (if flag_emulateJar flags && String.eqb (dest ele) manifestDest
          then addManifest fs (dest ele) (src ele) (zipMethod ele)
          else addFile flags fs (dest ele) (src ele) (zipMethod ele)) then
      produce flags fs rest
  end.

(** The whole goroutine: the steps of the loop, the error it sends when
    the loop stops on one, and the deferred close. *)
Definition producer (flags : Flags) (fs : FS) (z : zipWriter)
    (pathMappings : list pathMapping) : list peff :=
  match produce flags fs pathMappings z [] with
  | (Ok _, _, t) => t ++ [PCloseWriteOps]
  | (Err e, _, t) => t ++ [PError e; PCloseWriteOps]
  end.

End Workers.

(** ** The rate limiters *)

(** Modelled from the spec: the rate limiters ([NewCPURateLimiter],
    [NewMemoryRateLimiter] and their [Request], [Finish] and [Stop]) are in
    a file of the package that is not at hand.  By the specification the
    CPU limiter is a count of permits in use: a request blocks until fewer
    than [P] permits are in use, then claims one, and finish releases one. *)
Record CPURateLimiter := {
  cpu_limit : Z;
  cpu_inuse : Z
}.

Definition NewCPURateLimiter (p : Z) : CPURateLimiter :=
  {| cpu_limit := p; cpu_inuse := 0 |}.

Definition cpu_admits (l : CPURateLimiter) : bool := cpu_inuse l <? cpu_limit l.

Definition cpu_Request (l : CPURateLimiter) : CPURateLimiter :=
  {| cpu_limit := cpu_limit l; cpu_inuse := cpu_inuse l + 1 |}.

Definition cpu_Finish (l : CPURateLimiter) : CPURateLimiter :=
  {| cpu_limit := cpu_limit l; cpu_inuse := cpu_inuse l - 1 |}.

(** Modelled from the spec: the memory limiter is a byte counter: a request
    of [n] bytes blocks until the counter plus [n] is at most the high-water
    mark [M], or, when [M = 0] (unbounded), is admitted at once, and the
    outstanding bytes are counted for the later release in both cases. *)
Record MemoryRateLimiter := {
  mem_limit : Z;
  mem_outstanding : Z
}.

Definition NewMemoryRateLimiter (m : Z) : MemoryRateLimiter :=
  {| mem_limit := m; mem_outstanding := 0 |}.

Definition mem_admits (l : MemoryRateLimiter) (n : Z) : bool :=
  (mem_limit l =? 0) || (mem_outstanding l + n <=? mem_limit l).

Definition mem_Request (l : MemoryRateLimiter) (n : Z) : MemoryRateLimiter :=
  {| mem_limit := mem_limit l; mem_outstanding := mem_outstanding l + n |}.

Definition mem_Finish (l : MemoryRateLimiter) (n : Z) : MemoryRateLimiter :=
  {| mem_limit := mem_limit l; mem_outstanding := mem_outstanding l - n |}.

(** ** The state of a run of [write] *)

(** What the writer does on the zip encoder. *)
Inductive writerKind : Type :=
| compressedWriter      (* the writer CreateCompressedHeader returns *)
| nopCloser.            (* nopCloser{zw} around CreateHeaderAndroid's *)

Inductive zevent : Type :=
| CreateCompressedHeader (h : FileHeader)
| CreateHeaderAndroid (h : FileHeader)
| Copy (b : bytes)                 (* io.Copy(currentWriter, reader) *)
| CloseWriter (k : writerKind)     (* currentWriter.Close() *)
| CloseZip.                        (* zipw.Close() *)

Record state := {
  prod : list peff;                       (* what the producer still does *)
  ops : list opState;                     (* every channel sent to writeOps *)
  writeOps : chan nat;                    (* z.writeOps, by position in ops *)
  cpuRateLimiter : CPURateLimiter;
  memoryRateLimiter : MemoryRateLimiter;
  currentWriteOpChan : option nat;
  currentWriter : option writerKind;
  currentReaders : option nat;
  currentReader : option (nat * nat);
  done : bool;
  zipw : list zevent;                     (* the calls on the encoder so far *)
  err : option error;                     (* the variable err of write *)
  returned : option (option error)        (* what the loop returned, if it did *)
}.

Definition upd_prod (s : state) (p : list peff) : state :=
  {| prod := p; ops := ops s; writeOps := writeOps s;
     cpuRateLimiter := cpuRateLimiter s;
     memoryRateLimiter := memoryRateLimiter s;
     currentWriteOpChan := currentWriteOpChan s;
     currentWriter := currentWriter s; currentReaders := currentReaders s;
     currentReader := currentReader s; done := done s; zipw := zipw s;
     err := err s; returned := returned s |}.

Definition upd_ops (s : state) (o : list opState) : state :=
  {| prod := prod s; ops := o; writeOps := writeOps s;
     cpuRateLimiter := cpuRateLimiter s;
     memoryRateLimiter := memoryRateLimiter s;
     currentWriteOpChan := currentWriteOpChan s;
     currentWriter := currentWriter s; currentReaders := currentReaders s;
     currentReader := currentReader s; done := done s; zipw := zipw s;
     err := err s; returned := returned s |}.

Definition upd_writeOps (s : state) (c : chan nat) : state :=
  {| prod := prod s; ops := ops s; writeOps := c;
     cpuRateLimiter := cpuRateLimiter s;
     memoryRateLimiter := memoryRateLimiter s;
     currentWriteOpChan := currentWriteOpChan s;
     currentWriter := currentWriter s; currentReaders := currentReaders s;
     currentReader := currentReader s; done := done s; zipw := zipw s;
     err := err s; returned := returned s |}.

Definition upd_cpu (s : state) (l : CPURateLimiter) : state :=
  {| prod := prod s; ops := ops s; writeOps := writeOps s;
     cpuRateLimiter := l;
     memoryRateLimiter := memoryRateLimiter s;
     currentWriteOpChan := currentWriteOpChan s;
     currentWriter := currentWriter s; currentReaders := currentReaders s;
     currentReader := currentReader s; done := done s; zipw := zipw s;
     err := err s; returned := returned s |}.

Definition upd_mem (s : state) (l : MemoryRateLimiter) : state :=
  {| prod := prod s; ops := ops s; writeOps := writeOps s;
     cpuRateLimiter := cpuRateLimiter s;
     memoryRateLimiter := l;
     currentWriteOpChan := currentWriteOpChan s;
     currentWriter := currentWriter s; currentReaders := currentReaders s;
     currentReader := currentReader s; done := done s; zipw := zipw s;
     err := err s; returned := returned s |}.

(** The writer's own variables, all at once. *)
Definition upd_writer (s : state) (wo : option nat) (w : option writerKind)
    (rs : option nat) (r : option (nat * nat)) (d : bool) (z : list zevent)
    : state :=
  {| prod := prod s; ops := ops s; writeOps := writeOps s;
     cpuRateLimiter := cpuRateLimiter s;
     memoryRateLimiter := memoryRateLimiter s;
     currentWriteOpChan := wo; currentWriter := w; currentReaders := rs;
     currentReader := r; done := d; zipw := z;
     err := err s; returned := returned s |}.

(** [err = e; return err]. *)
Definition return_err (s : state) (e : error) : state :=
  {| prod := prod s; ops := ops s; writeOps := writeOps s;
     cpuRateLimiter := cpuRateLimiter s;
     memoryRateLimiter := memoryRateLimiter s;
     currentWriteOpChan := currentWriteOpChan s;
     currentWriter := currentWriter s; currentReaders := currentReaders s;
     currentReader := currentReader s; done := done s; zipw := zipw s;
     err := Some e; returned := Some (Some e) |}.

(** [return nil], which leaves [err] as it is. *)
Definition return_nil (s : state) : state :=
  {| prod := prod s; ops := ops s; writeOps := writeOps s;
     cpuRateLimiter := cpuRateLimiter s;
     memoryRateLimiter := memoryRateLimiter s;
     currentWriteOpChan := currentWriteOpChan s;
     currentWriter := currentWriter s; currentReaders := currentReaders s;
     currentReader := currentReader s; done := done s; zipw := zipw s;
     err := err s; returned := Some None |}.

Definition upd_entry_chan (o : opState) (c : chan zipEntry) : opState :=
  {| entry_chan := c; readers_chan := readers_chan o;
     result_chans := result_chans o; workers := workers o |}.

Definition upd_readers_chan (o : opState) (c : chan nat) : opState :=
  {| entry_chan := entry_chan o; readers_chan := c;
     result_chans := result_chans o; workers := workers o |}.

Definition upd_result_chan (o : opState) (j : nat) (c : chan bytes) : opState :=
  {| entry_chan := entry_chan o; readers_chan := readers_chan o;
     result_chans := <[j := c]> (result_chans o); workers := workers o |}.

Definition upd_workers (o : opState) (w : list (list weff)) : opState :=
  {| entry_chan := entry_chan o; readers_chan := readers_chan o;
     result_chans := result_chans o; workers := w |}.

(** The reader channel number [j] of an entry; nil while it was not made. *)
Definition result_chan (o : opState) (j : nat) : chan bytes :=
  default nil_chan (result_chans o !! j).

(** ** The steps of the goroutines on the state

    Every function returns [None] when the step cannot be taken now: the
    goroutine has finished, or it is blocked in the channel or limiter
    operation it has arrived at. *)

(** A channel operation of a goroutine of an entry, on that entry. *)
Definition chan_step (o : opState) (e : weff) : option opState :=
  match e with
  | WMakeReaders n => Some (upd_readers_chan o (make_chan n))
  | WSendReaders j =>
      if can_send (readers_chan o)
      then Some (upd_result_chan
                   (upd_readers_chan o (send (readers_chan o) j))
                   j (make_chan 1))
      else None
  | WCloseReaders => Some (upd_readers_chan o (close (readers_chan o)))
  | WSendResult j b =>
      if can_send (result_chan o j)
      then Some (upd_result_chan o j (send (result_chan o j) b))
      else None
  | WCloseResult j => Some (upd_result_chan o j (close (result_chan o j)))
  | WSendEntry ze =>
      if can_send (entry_chan o)
      then Some (upd_entry_chan o (send (entry_chan o) ze))
      else None
  | WCloseEntry => Some (upd_entry_chan o (close (entry_chan o)))
  | WCpuFinish => Some o
  | WError _ => None
  end.

(** The goroutine number [k] of the entry number [n] takes its next step. *)
Definition worker_step (s : state) (n k : nat) : option state :=
  match ops s !! n with
  | None => None
  | Some o =>
      match workers o !! k with
      | Some (e :: rest) =>
          match chan_step (upd_workers o (<[k := rest]> (workers o))) e with
          | None => None
          | Some o' =>
              let s' := upd_ops s (<[n := o']> (ops s)) in
              match e with
              | WCpuFinish => Some (upd_cpu s' (cpu_Finish (cpuRateLimiter s)))
              | _ => Some s'
              end
          end
      | _ => None
      end
  end.

(** The entry the producer is working on: the last one it sent. *)
Definition current (s : state) : nat := (length (ops s) - 1)%nat.

Definition on_current (s : state) (f : opState -> option opState)
    : option state :=
  match ops s !! current s with
  | None => None
  | Some o =>
      match f o with
      | None => None
      | Some o' => Some (upd_ops s (<[current s := o']> (ops s)))
      end
  end.

(** The producer takes its next step. *)
Definition producer_step (s : state) : option state :=
  match prod s with
  | [] => None
  | e :: rest =>
      let s' := upd_prod s rest in
      match e with
      | PSendOp init =>
          if can_send (writeOps s)
          then Some (upd_writeOps (upd_ops s' (ops s ++ [init]))
                       (send (writeOps s) (length (ops s))))
          else None
      | PCpuRequest =>
          if cpu_admits (cpuRateLimiter s)
          then Some (upd_cpu s' (cpu_Request (cpuRateLimiter s)))
          else None
      | PMemRequest n =>
          if mem_admits (memoryRateLimiter s) n
          then Some (upd_mem s' (mem_Request (memoryRateLimiter s) n))
          else None
      | PMakeReaders n => on_current s' (fun o => chan_step o (WMakeReaders n))
      | PSendReaders j => on_current s' (fun o => chan_step o (WSendReaders j))
      | PCloseReaders => on_current s' (fun o => chan_step o WCloseReaders)
      | PGo w =>
          on_current s' (fun o => Some (upd_workers o (workers o ++ [w])))
      | PError _ => None
      | PCloseWriteOps => Some (upd_writeOps s' (close (writeOps s)))
      end
  end.

(** The writer takes the case of its [select] that its variables allow,
    other than the one on [z.errors].  [zfault k] is the error, if any, of
    the call on the encoder that would be the call number [k].  After the
    loop this is the default case of the last [select].  Where the Go code
    would take a nil entry from a closed channel, or close a nil writer,
    and panic, the step cannot be taken. *)
Definition writer_step (zfault : nat -> option error) (s : state)
    : option state :=
  if done s then
    Some (return_nil
            (upd_writer s (currentWriteOpChan s) (currentWriter s)
               (currentReaders s) (currentReader s) true
               (zipw s ++ [CloseZip])))
  else
    match currentReader s, currentReaders s, currentWriteOpChan s with
    | Some (n, j), _, _ =>
        (* case reader := <-currentReader *)
        match ops s !! n with
        | None => None
        | Some o =>
            match buf (result_chan o j) with
            | [] => None
            | reader :: _ =>
                let o' := upd_result_chan o j (pop (result_chan o j)) in
                let s := upd_ops s (<[n := o']> (ops s)) in
                match zfault (length (zipw s)) with
                | Some e => Some (return_err s e)
                | None =>
                    Some (upd_writer s (currentWriteOpChan s)
                            (currentWriter s) (currentReaders s) None false
                            (zipw s ++ [Copy reader]))
                end
            end
        end
    | None, Some n, _ =>
        (* case futureReader, ok := <-readersChan *)
        match ops s !! n with
        | None => None
        | Some o =>
            match buf (readers_chan o) with
            | j :: _ =>
                let o' := upd_readers_chan o (pop (readers_chan o)) in
                let s := upd_ops s (<[n := o']> (ops s)) in
                Some (upd_writer s (currentWriteOpChan s) (currentWriter s)
                        (currentReaders s) (Some (n, j)) false (zipw s))
            | [] =>
                if closed (readers_chan o) then
                  (* Done with reading *)
                  match currentWriter s with
                  | None => None
                  | Some k =>
                      Some (upd_writer s (currentWriteOpChan s) None None None
                              false (zipw s ++ [CloseWriter k]))
                  end
                else None
            end
        end
    | None, None, Some n =>
        (* case op := <-writeOpChan *)
        match ops s !! n with
        | None => None
        | Some o =>
            match buf (entry_chan o) with
            | [] => None
            | op :: _ =>
                let o' := upd_entry_chan o (pop (entry_chan o)) in
                let s := upd_ops s (<[n := o']> (ops s)) in
                let '(created, k) :=
                  if Method (fh op) =? zip_Deflate
                  then (CreateCompressedHeader (fh op), compressedWriter)
                  else (CreateHeaderAndroid
                          (set_CompressedSize64 (fh op)
                             (UncompressedSize64 (fh op))), nopCloser) in
                match zfault (length (zipw s)) with
                | Some e => Some (return_err s e)
                | None =>
                    let s :=
                      if futureReaders op
                      then upd_writer s None (Some k) (Some n) None false
                             (zipw s ++ [created])
                      else upd_writer s None None None None false
                             (zipw s ++ [created; CloseWriter k]) in
                    Some (upd_mem s
                            (mem_Finish (memoryRateLimiter s) (allocatedSize op)))
                end
            end
        end
    | None, None, None =>
        (* case writeOp, ok := <-writeOpsChan *)
        match buf (writeOps s) with
        | n :: _ =>
            Some (upd_writer (upd_writeOps s (pop (writeOps s))) (Some n)
                    (currentWriter s) None None false (zipw s))
        | [] =>
            if closed (writeOps s)
            then Some (upd_writer s None (currentWriter s) None None true
                         (zipw s))
            else None
        end
    end.

(** [case err = <-z.errors: return err], in the loop or after it: the
    writer meets a goroutine that has arrived at its send on [z.errors],
    the producer ([None]) or the goroutine [k] of the entry [n]. *)
Definition error_step (s : state) (who : option (nat * nat)) : option state :=
  match who with
  | None =>
      match prod s with
      | PError e :: rest => Some (return_err (upd_prod s rest) e)
      | _ => None
      end
  | Some (n, k) =>
      match ops s !! n with
      | None => None
      | Some o =>
          match workers o !! k with
          | Some (WError e :: rest) =>
              let o' := upd_workers o (<[k := rest]> (workers o)) in
              Some (return_err (upd_ops s (<[n := o']> (ops s))) e)
          | _ => None
          end
      end
  end.

(** What the scheduler picks next. *)
Inductive choice : Type :=
| RunProducer
| RunWorker (n k : nat)
| RunWriter
| RecvError (who : option (nat * nat)).

(** No goroutine moves once the loop of [write] has returned: [main] then
    leaves the process. *)
Definition step (zfault : nat -> option error) (s : state) (c : choice)
    : option state :=
  match returned s with
  | Some _ => None
  | None =>
      match c with
      | RunProducer => producer_step s
      | RunWorker n k => worker_step s n k
      | RunWriter => writer_step zfault s
      | RecvError who => error_step s who
      end
  end.

(** A schedule is the list of the picks; a pick that cannot move is
    skipped. *)
Fixpoint run (zfault : nat -> option error) (sched : list choice) (s : state)
    : state :=
  match sched with
  | [] => s
  | c :: sched' => run zfault sched' (default s (step zfault s c))
  end.

(** ** [write] and [main] *)

(** The calls on the file system and the process that matter below. *)
Inductive oscall : Type :=
| os_Create (path : string)
| os_Remove (path : string)
| f_Close
| os_Exit (code : Z).

Record writeRun := {
  wr_returned : option (option error);  (* None: the loop is still running *)
  wr_calls : list oscall;
  wr_zip : list zevent
}.

(** The state in which the goroutines start. *)
Definition start (flags : Flags) (producer : list peff) : state :=
  {| prod := producer; ops := [];
     writeOps := make_chan 1000;
     cpuRateLimiter := NewCPURateLimiter (int64 (flag_parallelJobs flags));
     memoryRateLimiter := NewMemoryRateLimiter 0;
     currentWriteOpChan := None; currentWriter := None;
     currentReaders := None; currentReader := None; done := false;
     zipw := []; err := None; returned := None |}.

(** The deferred calls of [write], run when it returns with the variable
    [err] holding [err]: remove the output if [err != nil], close it. *)
Definition deferred (out : string) (err : option error) : list oscall :=
  match err with
  | Some _ => [os_Remove out; f_Close]
  | None => [f_Close]
  end.

Section Write.
Context `{lib : Lib}.

Definition write (flags : Flags) (fs : FS) (zfault : nat -> option error)
    (sched : list choice) (z : zipWriter) (out : string)
    (pathMappings : list pathMapping) (manifest : string) : writeRun :=
  match Create fs out with
  | Some e =>
      {| wr_returned := Some (Some e); wr_calls := []; wr_zip := [] |}
  | None =>
      (* f, err := os.Create(out) has left err nil *)
      let err_created : option error := None in
      if negb (String.eqb manifest "") && negb (flag_emulateJar flags) then
        (* return errors.New(...): the variable err is not assigned *)
        {| wr_returned := Some (Some manifest_without_jar);
           wr_calls := os_Create out :: deferred out err_created;
           wr_zip := [] |}
      else
        let pathMappings :=
          if negb (String.eqb manifest "")
          then pathMappings ++
               [{| dest := manifestDest; src := manifest;
                   zipMethod := zip_Deflate |}]
          else pathMappings in
        let pathMappings :=
          if flag_emulateJar flags then jarSort pathMappings
          else pathMappings in
        let s := run zfault sched
                   (start flags (producer flags fs z pathMappings)) in
        match returned s with
        | None =>
            {| wr_returned := None; wr_calls := [os_Create out];
               wr_zip := zipw s |}
        | Some r =>
            {| wr_returned := Some r;
               wr_calls := os_Create out :: deferred out (err s);
               wr_zip := zipw s |}
        end
  end.

Record fileArg := {
  pathPrefixInZip : string;
  sourcePrefixToStrip : string;
  sourceFiles : list string;
  globDir : string
}.

Definition fillPathPairs (nonDeflatedFiles : gmap string bool)
    (prefix rel src : string) (pathMappings : list pathMapping)
    : result (list pathMapping) :=
  let src := TrimSpace src in
  if String.eqb src "" then Ok pathMappings
  else
    let src := filepath.Clean src in
    match Rel rel src with
    | Err e => Err e
    | Ok dest =>
        let dest := Join prefix dest in
        let zipMethod :=
          match nonDeflatedFiles !! dest with
          | Some _ => zip_Store
          | None => zip_Deflate
          end in
        Ok (pathMappings ++
            [{| dest := dest; src := src; zipMethod := zipMethod |}])
    end.

Definition recursiveGlobFiles (fs : FS) (path : string) : list string :=
  Walk fs path.

(** The two nested loops of [main] that fill [pathMappings]. *)
Fixpoint fillSources (nonDeflatedFiles : gmap string bool) (fa : fileArg)
    (srcs : list string) (pathMappings : list pathMapping)
    : result (list pathMapping) :=
  match srcs with
  | [] => Ok pathMappings
  | src :: srcs' =>
      match fillPathPairs nonDeflatedFiles (pathPrefixInZip fa)
              (sourcePrefixToStrip fa) src pathMappings with
      | Err e => Err e
      | Ok pathMappings => fillSources nonDeflatedFiles fa srcs' pathMappings
      end
  end.

Fixpoint fillArgs (nonDeflatedFiles : gmap string bool) (fs : FS)
    (fArgs : list fileArg) (pathMappings : list pathMapping)
    : result (list pathMapping) :=
  match fArgs with
  | [] => Ok pathMappings
  | fa :: fArgs' =>
      let srcs := sourceFiles fa in
      let srcs :=
        if negb (String.eqb (globDir fa) "")
        then srcs ++ recursiveGlobFiles fs (globDir fa)
        else srcs in
      match fillSources nonDeflatedFiles fa srcs pathMappings with
      | Err e => Err e
      | Ok pathMappings => fillArgs nonDeflatedFiles fs fArgs' pathMappings
      end
  end.



End Write.

(** ** A small world for the examples

    A toy encoder that drops repeated bytes and marks a flush by [00] and a
    close by [01], a checksum that is the length, and a file system with a
    few files. *)

Fixpoint squeeze (b : bytes) : bytes :=
  match b with
  | x :: b' =>
      match b' with
      | y :: _ => if Byte.eqb x y then squeeze b' else x :: squeeze b'
      | [] => [x]
      end
  | [] => []
  end.

Definition sample_flate (level : Z) (dict : bytes) (ops : list flateOp) : bytes :=
  flat_map (fun op =>
              match op with
              | FWrite b => squeeze b
              | FFlush => [x00]
              | FClose => [x01]
              end) ops.

Definition sample_lib : Lib :=
  {| crc32 := fun b => len b;
     flate_bytes := sample_flate;
     EntryNamesLess := String.ltb;
     TrimSpace := fun s => s;
     Rel := fun _ s => Ok s;
     Join := fun _ s => s |}.

Definition sample_files : list (string * bytes) :=
  [("a.txt", bytes_of_string "aaaaaaaa");
   ("d/b.bin", bytes_of_string "ab");
   ("mf.txt", bytes_of_string "Main-Class: Foo")].

Definition sample_lookup (p : string) : option bytes :=
  snd <$> List.find (fun f => String.eqb (fst f) p) sample_files.

Definition sample_fs : FS :=
  {| Lstat := fun p =>
       match sample_lookup p with
       | Some b => Ok {| fi_Mode := 420; fi_Size := len b |}
       | None => Err (os_error "lstat" p)
       end;
     Open := fun p =>
       match sample_lookup p with
       | Some b => Ok (byteReaderCloser b)
       | None => Err (os_error "open" p)
       end;
     ReadFile := fun p =>
       match sample_lookup p with
       | Some b => Ok b
       | None => Err (os_error "open" p)
       end;
     Readlink := fun p => Err (os_error "readlink" p);
     Create := fun _ => None;
     Walk := fun _ => [];
     trace_Start := None |}.

Definition sample_flags (jar : bool) (mf : string) : Flags :=
  {| flag_out := "out.zip"; flag_manifest := mf; flag_directories := jar;
     flag_parallelJobs := 2; flag_compLevel := 5; flag_emulateJar := jar;
     flag_cpuProfile := ""; flag_traceFile := "" |}.

Definition sample_zipWriter (dirs : bool) : zipWriter :=
  {| time := zip_time; createdFiles := ∅; createdDirs := ∅;
     directories := dirs; compLevel := 5 |}.

Definition no_zfault : nat -> option error := fun _ => None.

(** A schedule that lets the producer, the first goroutines of the first
    entries and the writer move in turn, [n] times over. *)
Definition round : list choice :=
  [RunProducer; RunWorker 0 0; RunWorker 1 0; RunWorker 2 0; RunWorker 3 0;
   RunWriter].

Fixpoint rounds (n : nat) : list choice :=
  match n with
  | O => []
  | S n' => round ++ rounds n'
  end.

(** ** What a run is bound to write

    The archive that the steps of the producer determine: one entry per
    channel it sends to [z.writeOps], in the order of the sends, with the
    header that will be sent on the entry's channel and the buffers that
    will be sent on its reader channels, in the order in which these are
    sent into [futureReaders].  It is computed from what the channels hold
    and what the goroutines of the entry have yet to send. *)

Definition entry_of (e : weff) : option zipEntry :=
  match e with WSendEntry ze => Some ze | _ => None end.

Definition reader_of (e : weff) : option nat :=
  match e with WSendReaders j => Some j | _ => None end.

Definition result_of (j : nat) (e : weff) : option bytes :=
  match e with
  | WSendResult j' b => if decide (j' = j) then Some b else None
  | _ => None
  end.

(** The steps on [futureReaders] itself. *)
Definition ract_of (e : weff) : option weff :=
  match e with
  | WMakeReaders _ | WSendReaders _ | WCloseReaders => Some e
  | _ => None
  end.

Definition close_of (e : weff) : option unit :=
  match e with WCloseReaders => Some tt | _ => None end.

(** The entries, reader numbers and buffers that an entry's channels hold
    or will be sent by the goroutines [ts]. *)
Definition E (o : opState) (ts : list (list weff)) : list zipEntry :=
  buf (entry_chan o) ++ pick entry_of (concat ts).

Definition R (o : opState) (ts : list (list weff)) : list nat :=
  buf (readers_chan o) ++ pick reader_of (concat ts).

Definition B (o : opState) (ts : list (list weff)) (j : nat) : list bytes :=
  buf (result_chan o j) ++ pick (result_of j) (concat ts).

Definition closes (o : opState) (ts : list (list weff)) : bool :=
  closed (readers_chan o) || bool_decide (pick close_of (concat ts) ≠ []).

(** The call that opens an entry on the encoder, and the writer it gives. *)
Definition created (op : zipEntry) : zevent * writerKind :=
  if Method (fh op) =? zip_Deflate
  then (CreateCompressedHeader (fh op), compressedWriter)
  else (CreateHeaderAndroid
          (set_CompressedSize64 (fh op) (UncompressedSize64 (fh op))),
        nopCloser).

Definition copies (o : opState) (ts : list (list weff)) (js : list nat)
    : list zevent :=
  flat_map (fun j => map Copy (B o ts j)) js.

Definition closing (o : opState) (ts : list (list weff))
    (w : option writerKind) : list zevent :=
  if closes o ts
  then match w with Some k => [CloseWriter k] | None => [] end
  else [].

(** The calls on the encoder for an entry the writer has not begun. *)
Definition entry_events (o : opState) (ts : list (list weff)) : list zevent :=
  match E o ts with
  | [] => []
  | op :: _ =>
      if futureReaders op
      then (created op).1 :: copies o ts (R o ts) ++
           closing o ts (Some (created op).2)
      else [(created op).1; CloseWriter (created op).2]
  end.

(** The steps of the producer up to its next send to [z.writeOps]: they
    concern the entry it sent last. *)
Fixpoint cur_seg (p : list peff) : list peff :=
  match p with
  | [] => []
  | PSendOp _ :: _ => []
  | e :: p' => e :: cur_seg p'
  end.

(** The sends to [z.writeOps] in the steps [p], each with the steps that
    follow it up to the next. *)
Fixpoint segs (p : list peff) : list (opState * list peff) :=
  match p with
  | [] => []
  | PSendOp init :: p' => (init, cur_seg p') :: segs p'
  | _ :: p' => segs p'
  end.

(** The goroutines that the steps [seg] start, and the steps of [seg] on
    [futureReaders] as one more goroutine. *)
Definition gos (seg : list peff) : list (list weff) :=
  pick (fun e => match e with PGo w => Some w | _ => None end) seg.

Definition chan_effs (seg : list peff) : list weff :=
  pick (fun e =>
          match e with
          | PMakeReaders n => Some (WMakeReaders n)
          | PSendReaders j => Some (WSendReaders j)
          | PCloseReaders => Some WCloseReaders
          | _ => None
          end) seg.

Definition threads (o : opState) (seg : list peff) : list (list weff) :=
  workers o ++ gos seg ++ [chan_effs seg].

(** The archive of the producer's steps [p]. *)
Definition archive (p : list peff) : list zevent :=
  flat_map (fun x => entry_events x.1 (threads x.1 x.2)) (segs p).

(** ** The invariant of a run *)

Definition racts (t : list weff) : list weff := pick ract_of t.

(** Sends into [futureReaders], then at most one close, and nothing more. *)
Fixpoint sends_then_close (l : list weff) : Prop :=
  match l with
  | [] => True
  | WSendReaders _ :: l' => sends_then_close l'
  | WCloseReaders :: l' => l' = []
  | _ => False
  end.

(** The steps [l] still to come on the channel [c] of an entry's
    [futureReaders]: the channel is made before it is used, and nothing is
    sent after it was closed. *)
Definition shape (c : chan nat) (l : list weff) : Prop :=
  match l with
  | WMakeReaders _ :: l' =>
      buf c = [] ∧ closed c = false ∧ sends_then_close l'
  | _ => sends_then_close l ∧ (closed c = true → l = [])
  end.

(** The channels of an entry and the goroutines [ts] that work for it fit:
    one entry and one buffer per reader channel at most; one goroutine
    alone works on [futureReaders]; no reader channel is sent twice, and
    one that is still to be sent was not made yet. *)
Record ok (o : opState) (ts : list (list weff)) : Prop := {
  ok_E : (length (E o ts) <= 1)%nat;
  ok_B : ∀ j, (length (B o ts j) <= 1)%nat;
  ok_owner : ∃ k, ∀ i t, ts !! i = Some t → i ≠ k → racts t = [];
  ok_shape : shape (readers_chan o) (racts (concat ts));
  ok_R : NoDup (R o ts);
  ok_fresh : ∀ j, j ∈ pick reader_of (concat ts) →
             cap (result_chan o j) = 0 ∧ buf (result_chan o j) = []
}.

(** The producer's steps for the entry number [n]: those before its next
    send to [z.writeOps] if [n] is the last entry sent, none otherwise. *)
Definition seg_of (s : state) (n : nat) : list peff :=
  if decide (S n = length (ops s)) then cur_seg (prod s) else [].

Definition ths (s : state) (n : nat) (o : opState) : list (list weff) :=
  threads o (seg_of s n).

Definition events_of (s : state) (n : nat) : list zevent :=
  match ops s !! n with
  | Some o => entry_events o (ths s n o)
  | None => []
  end.

(** What the writer has yet to call on the encoder, before [zipw.Close]. *)
Definition future (s : state) : list zevent :=
  match currentReader s with
  | Some (n, j) =>
      match ops s !! n with
      | Some o => map Copy (B o (ths s n o) j)
      | None => []
      end
  | None => []
  end ++
  match currentReaders s, currentWriteOpChan s with
  | Some n, _ =>
      match ops s !! n with
      | Some o =>
          copies o (ths s n o) (R o (ths s n o)) ++
          closing o (ths s n o) (currentWriter s)
      | None => []
      end
  | None, Some n => events_of s n
  | None, None => []
  end ++
  flat_map (events_of s) (buf (writeOps s)) ++
  archive (prod s).

(** The deferred close of [z.writeOps] comes after every send to it. *)
Fixpoint close_last (p : list peff) : Prop :=
  match p with
  | [] => True
  | PCloseWriteOps :: p' => segs p' = []
  | _ :: p' => close_last p'
  end.

Record wf (s : state) : Prop := {
  wf_ops : ∀ n o, ops s !! n = Some o → ok o (ths s n o);
  wf_segs : ∀ x, x ∈ segs (prod s) → ok x.1 (threads x.1 x.2);
  wf_queue : ∃ a : nat,
      buf (writeOps s) = seq a (length (ops s) - a) ∧
      (a <= length (ops s))%nat ∧
      (∀ n, currentWriteOpChan s = Some n → (n < a)%nat) ∧
      (∀ n, currentReaders s = Some n →
         (n < a)%nat ∧ currentWriteOpChan s = None);
  wf_closed : closed (writeOps s) = true → segs (prod s) = [];
  wf_close_last : close_last (prod s);
  wf_reader : ∀ n j, currentReader s = Some (n, j) →
      currentReaders s = Some n ∧
      ∀ o, ops s !! n = Some o → j ∉ R o (ths s n o);
  wf_done : done s = true →
      currentReader s = None ∧ currentReaders s = None ∧
      currentWriteOpChan s = None ∧ buf (writeOps s) = [] ∧
      closed (writeOps s) = true
}.

(** A run from the steps [p] of the producer writes a part of the archive
    of [p], and all of it when [write] returns nil. *)
Definition writes (p : list peff) (s : state) : Prop :=
  (returned s = None → wf s ∧ zipw s ++ future s = archive p) ∧
  (returned s = Some None → zipw s = archive p ++ [CloseZip]) ∧
  (∃ more, zipw s ++ more = archive p ++ [CloseZip]) ∧
  (∀ e, returned s = Some (Some e) ↔ err s = Some e).

(** The steps [p] of a producer fit: every entry it sends fits the
    goroutines it starts for it, and it closes [z.writeOps] last. *)
Definition good (p : list peff) : Prop :=
  (∀ x, x ∈ segs p → ok x.1 (threads x.1 x.2)) ∧ close_last p.

(** Two entries, each with its goroutines, that hold or will be sent the
    same. *)
Definition same_obs (o : opState) (ts : list (list weff))
    (o' : opState) (ts' : list (list weff)) : Prop :=
  E o' ts' = E o ts ∧ R o' ts' = R o ts ∧
  (∀ j, B o' ts' j = B o ts j) ∧ closes o' ts' = closes o ts.

(** Steps of the producer that are a row of entries: each a send to
    [z.writeOps] followed by the steps for that entry, which fit. *)
Inductive entries_ok : list peff -> Prop :=
| entries_nil : entries_ok []
| entries_cons init seg t :
    cur_seg seg = seg ->
    pick (fun e => match e with PCloseWriteOps => Some tt | _ => None end) seg = [] ->
    ok init (threads init seg) ->
    entries_ok t ->
    entries_ok (PSendOp init :: seg ++ t).

(** A function of the producer adds a row of entries to the steps. *)
Definition emits_entries {A} (m : P A) : Prop :=
  forall z t r z' t', m z t = (r, z', t') ->
    exists new, t' = t ++ new /\ entries_ok new.

(** What a function of the producer adds to the steps does not depend on
    the steps before it. *)
Definition framed {A} (m : P A) : Prop :=
  forall z t, m z t = let '(r, z', n) := m z [] in (r, z', t ++ n).

(** The channel that [writeFileContents] sends to [z.writeOps]. *)
Definition empty_op : opState :=
  {| entry_chan := make_chan 1; readers_chan := nil_chan;
     result_chans := ∅; workers := [] |}.

(** What the loop over the blocks adds, from the block number [j] on. *)
Definition block_rest (j : nat) (rest : list peff) : Prop :=
  cur_seg rest = rest ∧
  pick (λ e, match e with PCloseWriteOps => Some tt | _ => None end) rest = [] ∧
  Forall (λ w, racts w = []) (gos rest) ∧
  pick entry_of (concat (gos rest)) = [] ∧
  (∀ j', (length (pick (result_of j') (concat (gos rest))) <= 1)%nat ∧
         ((j' < j)%nat → pick (result_of j') (concat (gos rest)) = [])) ∧
  ∃ m, chan_effs rest = map WSendReaders (seq j m).

(** The bytes that a step of the producer asks of the memory limiter. *)
Definition mem_of (e : peff) : option Z :=
  match e with PMemRequest n => Some n | _ => None end.

(** ** The archive, mapping by mapping *)

Section Mappings.
Context `{lib : Lib}.

(** The mappings that the goroutine of [write] ranges over: those given,
    then the manifest if there is one, sorted when a jar is emulated. *)
Definition loop_mappings (flags : Flags) (pathMappings : list pathMapping)
    (manifest : string) : list pathMapping :=
  let pathMappings :=
    if negb (String.eqb manifest "")
    then pathMappings ++
         [{| dest := manifestDest; src := manifest;
             zipMethod := zip_Deflate |}]
    else pathMappings in
  if flag_emulateJar flags then jarSort pathMappings else pathMappings.

(** The calls on the encoder for the entries of each mapping, mapping by
    mapping in the order of the loop, up to the mapping on which the loop
    stops: the turn of the loop for [ele] is the loop on [ele] alone. *)
Fixpoint by_mapping (flags : Flags) (fs : FS) (pathMappings : list pathMapping)
    (z : zipWriter) : list (list zevent) :=
  match pathMappings with
  | [] => []
  | ele :: rest =>
      let '(r, z', t) := produce flags fs [ele] z [] in
      archive t ::
      match r with
      | Ok _ => by_mapping flags fs rest z'
      | Err _ => []
      end
  end.

End Mappings.

(** ** The values of the command-line flags

    [flag.Parse] calls [Set] on the value of a flag for each occurrence of
    the flag on the command line, in the order of the line, and stops at
    the first error. *)

Inductive flag_error : Type :=
| specified_twice (s : string)
    (* File %q was specified twice as a file to not deflate *)
| must_pass_C_before (flag : string)
    (* must pass -C before -f *)
| read_failed (e : error).
    (* the error of ioutil.ReadFile *)

(** Go's [int(b)] conversion of a byte. *)
Definition int_of_byte (b : byte) : Z := Z.of_N (Byte.to_N b).

(** [uniqueSet], a [map[string]bool]. *)
Abbreviation uniqueSet := (gmap string bool).

Definition uniqueSet_Set (u : uniqueSet) (s : string)
    : flag_error + uniqueSet :=
  match u !! s with
  | Some _ => inl (specified_twice s)
  | None => inr (<[s := true]> u)
  end.

(** The calls of [Set] for the arguments [l] of the flag, in their order. *)
Fixpoint Set_each {A} (set : A -> string -> flag_error + A) (a : A)
    (l : list string) : flag_error + A :=
  match l with
  | [] => inr a
  | s :: l' =>
      match set a s with
      | inl e => inl e
      | inr a' => Set_each set a' l'
      end
  end.

(** [strings.Split(s, sep)] for a separator [sep] of one character: the
    parts of [s] between the separators, the empty ones too. *)
Fixpoint Split_from (sep : ascii) (cur s : string) : list string :=
  match s with
  | EmptyString => [cur]
  | String c s' =>
      if Ascii.eqb c sep then cur :: Split_from sep "" s'
      else Split_from sep (cur +:+ String c "") s'
  end.

Definition strings_Split (s : string) (sep : ascii) : list string :=
  Split_from sep "" s.

(** [file.Set], [listFiles.Set] and [dir.Set]; [rootPrefix] and
    [relativeRoot] are the values of [-P] and [-C] at the time of the call,
    [fArgs] the global of that name. *)
Definition file_Set (rootPrefix relativeRoot : string) (fArgs : list fileArg)
    (s : string) : flag_error + list fileArg :=
  if String.eqb relativeRoot "" then inl (must_pass_C_before "-f")
  else
    inr (fArgs ++
         [{| pathPrefixInZip := filepath.Clean rootPrefix;
             sourcePrefixToStrip := filepath.Clean relativeRoot;
             sourceFiles := [s];
             globDir := "" |}]).

Definition listFiles_Set (fs : FS) (rootPrefix relativeRoot : string)
    (fArgs : list fileArg) (s : string) : flag_error + list fileArg :=
  if String.eqb relativeRoot "" then inl (must_pass_C_before "-l")
  else
    match ReadFile fs s with
    | Err e => inl (read_failed e)
    | Ok lst =>
        inr (fArgs ++
             [{| pathPrefixInZip := filepath.Clean rootPrefix;
                 sourcePrefixToStrip := filepath.Clean relativeRoot;
                 sourceFiles :=
                   strings_Split (string_of_list_byte lst) "010";
                 globDir := "" |}])
    end.

Definition dir_Set (rootPrefix relativeRoot : string) (fArgs : list fileArg)
    (s : string) : flag_error + list fileArg :=
  if String.eqb relativeRoot "" then inl (must_pass_C_before "-D")
  else
    inr (fArgs ++
         [{| pathPrefixInZip := filepath.Clean rootPrefix;
             sourcePrefixToStrip := filepath.Clean relativeRoot;
             sourceFiles := [];
             globDir := filepath.Clean s |}]).

(** The sources that [main] ranges over for the argument [fa]. *)
Definition arg_sources (fs : FS) (fa : fileArg) : list string :=
  if negb (String.eqb (globDir fa) "")
  then sourceFiles fa ++ recursiveGlobFiles fs (globDir fa)
  else sourceFiles fa.

(** ** The zip encoder as the writer drives it *)

(** Where the encoder stands: between entries, inside the entry whose
    writer it handed out, or closed. *)
Inductive encoder : Type :=
| between_entries
| in_entry (k : writerKind)
| archive_closed.

Definition writerKind_eqb (a b : writerKind) : bool :=
  match a, b with
  | compressedWriter, compressedWriter => true
  | nopCloser, nopCloser => true
  | _, _ => false
  end.

(** A call in order: a header opens an entry between entries, a copy goes
    to the open entry, the close of a writer closes the entry it belongs
    to, and the archive is closed between entries. *)
Definition encoder_call (st : encoder) (e : zevent) : option encoder :=
  match st, e with
  | between_entries, CreateCompressedHeader _ => Some (in_entry compressedWriter)
  | between_entries, CreateHeaderAndroid _ => Some (in_entry nopCloser)
  | in_entry k, Copy _ => Some (in_entry k)
  | in_entry k, CloseWriter k' =>
      if writerKind_eqb k k' then Some between_entries else None
  | between_entries, CloseZip => Some archive_closed
  | _, _ => None
  end.

Fixpoint encoder_calls (st : encoder) (evs : list zevent) : option encoder :=
  match evs with
  | [] => Some st
  | e :: evs' =>
      match encoder_call st e with
      | Some st' => encoder_calls st' evs'
      | None => None
      end
  end.

(** The headers that the calls [evs] hand to the encoder. *)
Definition created_headers (evs : list zevent) : list FileHeader :=
  pick (fun e =>
          match e with
          | CreateCompressedHeader h | CreateHeaderAndroid h => Some h
          | _ => None
          end) evs.

(** The entries that the steps [p] of the producer publish, filled in or
    sent by the goroutines they start. *)
Definition all_entries (p : list peff) : list zipEntry :=
  flat_map (fun x => E x.1 (threads x.1 x.2)) (segs p).



Section ArgumentMappings.
Context `{lib : Lib}.

(** [m] is the mapping for the source [s] of the argument [fa]: the
    cleaned source, its path relative to [-C] under the prefix [-P], stored
    if that path was given with [-s] and deflated otherwise. *)
Definition mapping_of (nonDeflatedFiles : uniqueSet) (fa : fileArg)
    (s : string) (m : pathMapping) : Prop :=
  src m = filepath.Clean (TrimSpace s) ∧
  (∃ d, Rel (sourcePrefixToStrip fa) (src m) = Ok d ∧
        dest m = Join (pathPrefixInZip fa) d) ∧
  zipMethod m
  = if decide (is_Some (nonDeflatedFiles !! dest m))
    then zip_Store else zip_Deflate.

(** The sources of the arguments, each with its argument, that are not
    blank. *)
Definition nonblank_sources (fs : FS) (fArgs : list fileArg)
    : list (fileArg * string) :=
  filter (fun x => TrimSpace x.2 ≠ "")
    (flat_map (fun fa => map (pair fa) (arg_sources fs fa)) fArgs).

End ArgumentMappings.

(** The sample file system with a list file beside its files. *)
Definition listing_fs : FS :=
  {| Lstat := Lstat sample_fs; Open := Open sample_fs;
     ReadFile := fun p =>
       if String.eqb p "files.list"
       then Ok (bytes_of_string "a.txt" ++ [x0a] ++
                bytes_of_string "d/b.bin" ++ [x0a])
       else ReadFile sample_fs p;
     Readlink := Readlink sample_fs; Create := Create sample_fs;
     Walk := fun p => if String.eqb p "d" then ["d/b.bin"] else [];
     trace_Start := trace_Start sample_fs |}.

(** The sample libraries with names ranked by their length. *)
Definition by_length_lib : Lib :=
  {| crc32 := @crc32 sample_lib; flate_bytes := @flate_bytes sample_lib;
     EntryNamesLess := fun a b => (String.length a <? String.length b)%nat;
     TrimSpace := @TrimSpace sample_lib; Rel := @Rel sample_lib;
     Join := @Join sample_lib |}.

(** ** Directory entries *)

(** Each path of the list is the parent of the next. *)
Fixpoint parents_first (l : list string) : Prop :=
  match l with
  | p :: (c :: _) as l' => p = filepath.Dir c ∧ parents_first l'
  | _ => True
  end.

(** The entry that [writeDirectory] sends for the directory [cleanDir]. *)
Definition dir_entry (z : zipWriter) (cleanDir : string) : zipEntry :=
  {| fh := SetModTime
             (SetMode (newFileHeader (cleanDir +:+ "/") 0 0)
                (Z.lor 448 os_ModeDir))
             (time z);
     futureReaders := false; allocatedSize := 0 |}.

Definition dir_step (z : zipWriter) (cleanDir : string) : peff :=
  PSendOp {| entry_chan := filled (dir_entry z cleanDir);
             readers_chan := nil_chan; result_chans := ∅; workers := [] |}.

(** [createdDirs] with the directories [new] created for [src]. *)
Definition with_dirs (z : zipWriter) (new : list string) (src : string)
    : zipWriter :=
  set_createdDirs z (foldr (fun d m => <[d := src]> m) (createdDirs z) new).

(** ** The entries of files *)

(** The fields of a header that the goroutines of an entry leave as
    [writeFileContents] hands them over. *)
Definition same_file (h h' : FileHeader) : Prop :=
  Name h' = Name h ∧ ModTime h' = ModTime h ∧ FileMode h' = FileMode h ∧
  Extra h' = Extra h ∧ UncompressedSize64 h' = UncompressedSize64 h.

(** The entry that [writeSymlink] sends for the link [rel] to [target]. *)
Definition symlink_op (z : zipWriter) (rel target : string) : opState :=
  {| entry_chan :=
       filled {| fh := SetMode (SetModTime (newFileHeader rel 0 0) (time z))
                         (Z.lor 448 os_ModeSymlink);
                 futureReaders := true; allocatedSize := 0 |};
     readers_chan := filled 0%nat;
     result_chans := {[ 0%nat := filled (bytes_of_string target) ]};
     workers := [] |}.

(** The names [ns] of the entries published so far are told apart by what
    the [zipWriter] has recorded: they are distinct, one that ends in a
    slash is that of a created directory, and any other is the destination
    of a created file or, in a jar, that of the manifest, which then is
    none of the mappings [rest] still to come. *)
Definition names_told_apart (jar : bool) (z : zipWriter)
    (rest : list pathMapping) (ns : list string) : Prop :=
  NoDup ns ∧
  ∀ n, n ∈ ns →
    if filepath.ends_slash n
    then ∃ d, n = d +:+ "/" ∧ is_Some (createdDirs z !! d)
    else is_Some (createdFiles z !! n) ∨
         (jar = true ∧ n = manifestDest ∧
          Forall (fun m => dest m ≠ manifestDest) rest).

(** The names of the entries that the steps [p] publish. *)
Definition entry_names (p : list peff) : list string :=
  map (fun ze => Name (fh ze)) (all_entries p).

(** A function of the producer keeps the time [T] of the [zipWriter] and
    adds a row of entries that carry it. *)
Definition timed {A} (T : Z) (m : P A) : Prop :=
  forall z t r z' t', time z = T -> m z t = (r, z', t') ->
    time z' = T /\
    exists new, t' = t ++ new /\ entries_ok new /\
      Forall (fun ze => ModTime (fh ze) = T) (all_entries new).

(** Where the encoder stands according to the variables of the writer. *)
Definition encoder_of (s : state) : encoder :=
  match returned s with
  | Some None => archive_closed
  | _ =>
      match currentWriter s with
      | Some k => in_entry k
      | None => between_entries
      end
  end.

(** The calls made so far are in order and have brought the encoder to
    where the writer believes it to be; a writer is open exactly while a
    [futureReaders] channel is being read. *)
Definition writer_in_step (s : state) : Prop :=
  encoder_calls between_entries (zipw s) = Some (encoder_of s) ∧
  (is_Some (currentReaders s) ↔ is_Some (currentWriter s)) ∧
  (is_Some (currentReader s) → is_Some (currentReaders s)) ∧
  (done s = true → currentWriter s = None).

(** ** Paths and their parents *)

(** The length of the elements of a path with one separator for each. *)
Definition total (es : list string) : nat :=
  foldr (fun e n => (S (String.length e) + n)%nat) 0%nat es.

(** The parent of every created directory is created too, unless it is
    the dot. *)
Definition parents_created (m : gmap string string) : Prop :=
  ∀ d, is_Some (m !! d) →
       filepath.Dir d = "." ∨ is_Some (m !! filepath.Dir d).

(** A path as [filepath.Clean] returns it. *)
Definition cleaned (d : string) : Prop := ∃ x, d = filepath.Clean x.

(** * Theorems *)

(** ** Cleaned paths do not end in a slash *)

Module filepath_facts.
Import filepath.

Lemma no_slash_app s1 s2 :
  no_slash (s1 +:+ s2) = no_slash s1 && no_slash s2.
Proof.
  induction s1 as [|c s1 IH]; simpl; [done|].
  rewrite IH. by rewrite andb_assoc.
Qed.

Lemma split_from_no_slash s cur :
  no_slash cur = true → Forall (λ e, no_slash e = true) (split_from cur s).
Proof.
  revert cur. induction s as [|c s IH]; intros cur Hcur; simpl.
  - by constructor.
  - destruct (Ascii.eqb c "/") eqn:Hc.
    + constructor; [done|]. by apply IH.
    + apply IH. rewrite no_slash_app, Hcur. simpl. by rewrite Hc.
Qed.

Lemma push_kept root stack e :
  no_slash e = true → Forall kept stack → Forall kept (push root stack e).
Proof.
  intros He Hst. unfold push.
  destruct (String.eqb e "") eqn:E1; [done|].
  destruct (String.eqb e "."); [done|].
  destruct (String.eqb e "..").
  - destruct stack as [|top rest].
    + destruct root; [done|]. by repeat constructor.
    + destruct (String.eqb top "..").
      * constructor; [by split|done].
      * by inversion Hst.
  - constructor; [|done]. split; [|done].
    intros ->. by rewrite String.eqb_refl in E1.
Qed.

Lemma fold_push_kept root es stack :
  Forall (λ e, no_slash e = true) es → Forall kept stack →
  Forall kept (fold_left (push root) es stack).
Proof.
  revert stack. induction es as [|e es IH]; intros stack Hes Hst; simpl.
  - done.
  - inversion Hes; subst. apply IH; [done|]. by apply push_kept.
Qed.

Lemma ends_slash_app s1 s2 :
  s2 ≠ "" → ends_slash (s1 +:+ s2) = ends_slash s2.
Proof.
  intros Hs2. induction s1 as [|c s1 IH]; simpl; [done|].
  rewrite IH. destruct (s1 +:+ s2) eqn:E; [|done].
  destruct s1; simpl in E; [by subst|discriminate].
Qed.

Lemma kept_ends e : kept e → ends_slash e = false.
Proof.
  intros [Hne Hns]. induction e as [|c e IH]; [done|].
  simpl in *. apply andb_prop in Hns as [Hc Hns].
  destruct e as [|c' e'].
  - by apply negb_true_iff.
  - apply IH; [done|done].
Qed.

Lemma join_ends es :
  es ≠ [] → Forall kept es → join es ≠ "" ∧ ends_slash (join es) = false.
Proof.
  induction es as [|e es IH]; intros Hne Hk; [done|].
  inversion Hk as [|? ? He Hes]; subst.
  destruct es as [|e' es'].
  - simpl. split; [apply He|by apply kept_ends].
  - destruct IH as [IH1 IH2]; [done|done|].
    change (join (e :: e' :: es')) with (e +:+ "/" +:+ join (e' :: es')).
    split.
    + destruct He as [He _]. destruct e; [done|]. simpl. discriminate.
    + rewrite ends_slash_app.
      * rewrite (ends_slash_app "/"); done.
      * simpl. discriminate.
Qed.

(** [Clean] returns the root, the dot, or a path that does not end in a
    slash. *)
Lemma Clean_ends path :
  Clean path = "/" ∨ ends_slash (Clean path) = false.
Proof.
  unfold Clean.
  pose proof (fold_push_kept (rooted path) (split path) []
                (split_from_no_slash path "" eq_refl) (Forall_nil_2 _)) as Hk.
  apply Forall_rev in Hk.
  destruct (rev _) as [|e es] eqn:E.
  - destruct (rooted path); [by left|by right].
  - right. destruct (join_ends (e :: es)) as [H1 H2]; [done|done|].
    destruct (rooted path).
    + by rewrite ends_slash_app.
    + done.
Qed.

Lemma Clean_not_META_INF path : Clean path ≠ "META-INF/".
Proof.
  intros H. destruct (Clean_ends path) as [H'|H']; rewrite H in H'; done.
Qed.

End filepath_facts.

(** ** The extra field of directory entries *)

Lemma addExtraField_CAFE h :
  Extra (addExtraField h (xca, xfe) []) = Extra h ++ [xfe; xca; x00; x00].
Proof. unfold addExtraField. simpl. by rewrite app_nil_r, <- app_assoc. Qed.

Lemma sent_entries_app t1 t2 :
  sent_entries (t1 ++ t2) = sent_entries t1 ++ sent_entries t2.
Proof. unfold sent_entries. by rewrite flat_map_app. Qed.

Lemma discover_trace fuel src dir zipDirs z t r z' t' :
  discover fuel src dir zipDirs z t = (r, z', t') → t' = t.
Proof.
  revert dir zipDirs z. induction fuel as [|fuel IH]; intros dir zipDirs z;
    simpl; unfold ret.
  - by intros [= <- <- <-].
  - destruct (negb (String.eqb dir "") && negb (String.eqb dir "."));
      [|by intros [= <- <- <-]].
    unfold bind, get, put. destruct (createdDirs z !! dir);
      [by intros [= <- <- <-]|].
    destruct (createdFiles z !! dir); [by intros [= <- <- <-]|].
    apply IH.
Qed.

(** The first loop leaves [dir] cleaned and sends nothing. *)
Lemma discover_dir fuel src dir zipDirs z t d zd z' t' :
  discover fuel src dir zipDirs z t = (Ok (d, zd), z', t') →
  t' = t ∧ (d = dir ∨ ∃ x, d = filepath.Clean x).
Proof.
  revert dir zipDirs z. induction fuel as [|fuel IH]; intros dir zipDirs z; simpl.
  - unfold ret. intros [= <- <- <- <-]. auto.
  - destruct (negb (String.eqb dir "") && negb (String.eqb dir ".")).
    + unfold bind, get. destruct (createdDirs z !! dir).
      { unfold ret. intros [= <- <- <- <-]. auto. }
      destruct (createdFiles z !! dir); [done|].
      unfold put. intros H. apply IH in H as [-> [->|[x ->]]].
      * split; [done|]. right. by exists (filepath.upto_last_slash dir).
      * split; [done|]. right. by exists x.
    + unfold ret. intros [= <- <- <- <-]. auto.
Qed.

(** The test for [META-INF/] in [writeDirectory] compares a cleaned path with
    a name that ends in a slash: no directory entry gets an extra field,
    whatever the flags and the path. *)
Lemma writeDirectory_Extra flags dir src z t r z' t' :
  writeDirectory flags dir src z t = (r, z', t') →
  ∃ new, t' = t ++ new ∧
    ∀ ze, ze ∈ sent_entries new → Extra (fh ze) = [].
Proof.
  unfold writeDirectory, bind.
  destruct (discover _ src (filepath.Clean dir) [] z t)
    as [[[[d zd]|e] z1] t1] eqn:Hd.
  - apply discover_dir in Hd as [-> Hd].
    assert (String.eqb d "META-INF/" = false) as Hne.
    { apply String.eqb_neq. destruct Hd as [->|[x ->]];
        apply filepath_facts.Clean_not_META_INF. }
    unfold get. rewrite Hne, andb_false_r.
    destruct (directories z1).
    + clear Hne Hd. generalize z1 at 2 as zz. revert t. 
      induction zd as [|cleanDir zd IH]; intros t zz; simpl.
      * unfold ret. intros [= <- <- <-]. exists []. rewrite app_nil_r.
        split; [done|]. intros ze H. by apply elem_of_nil in H.
      * unfold bind, emit at 1. intros H. apply IH in H as (new & -> & Hnew).
        eexists (_ :: new). rewrite <- app_assoc. split; [done|].
        intros ze. unfold sent_entries. simpl. fold (sent_entries new).
        rewrite elem_of_cons. intros [->|H]; [done|by apply Hnew].
    + unfold ret. intros [= <- <- <-]. exists []. rewrite app_nil_r.
      split; [done|]. intros ze H. by apply elem_of_nil in H.
  - intros [= <- <- <-]. 
    exists []. 
    apply discover_trace in Hd as ->.
    rewrite app_nil_r. split; [done|]. intros ze H. by apply elem_of_nil in H.
Qed.

(** C1 (as the code runs): with [-jar], hence with directory entries, the
    entry written for the directory of [META-INF/a.txt] is named
    [META-INF/] and carries no extra field, not the bytes [FE CA 00 00]
    that [addExtraField] would add for the header [CA FE]. *)
Theorem C1_META_INF_entry_has_no_extra_field :
  map (λ ze, (Name (fh ze), Extra (fh ze)))
    (sent_entries
       (writeDirectory (sample_flags true "") (filepath.Dir "META-INF/a.txt")
          "a.txt" (sample_zipWriter true) []).2)
  = [("META-INF/", [])] ∧
  Extra (addExtraField (newFileHeader "META-INF/" 0 0) (xca, xfe) [])
  = [xfe; xca; x00; x00].
Proof. split; reflexivity. Qed.

(** ** The block compressor *)

Section BlockCompressor.
Context `{lib : Lib}.


(** The bytes do not depend on the pool, and the pool keeps holding only
    writers of the level of [z] without a dictionary. *)
Lemma compressBlock_pool z pool pick input dict last :
  level_ok (compLevel z) = true →
  Forall (pooled z) pool →
  let r := compressBlock z pool pick input dict last in
  br_result r = Some (compressBlock_result z input dict last) ∧
  Forall (pooled z) (br_pool r).
Proof.
  intros Hl Hp. unfold compressBlock_result, compressBlock.
  destruct (0 <? len dict) eqn:Hd.
  - unfold NewWriterDict. rewrite Hl. destruct input as [b|e]; simpl; [|done].
    by destruct last.
  - unfold Pool_Get at 2. unfold NewWriter, NewWriterDict. rewrite Hl.
    assert (Forall (pooled z) (Pool_Get pick pool).2) as Hp'.
    { unfold Pool_Get. destruct pick as [i|]; [|done].
      destruct (pool !! i); [|done]. simpl. by apply Forall_delete. }
    destruct (Pool_Get pick pool) as [[x|] pool0] eqn:Hg; simpl in Hp'.
    + assert (pooled z x) as (fw & -> & Hfl & Hfd).
      { unfold Pool_Get in Hg. destruct pick as [i|]; [|done].
        destruct (pool !! i) as [y|] eqn:Hi; [|done].
        injection Hg as <- <-. by apply (Forall_lookup_1 (pooled z) pool i y). }
      destruct input as [b|e]; simpl.
      * split; [destruct last; simpl; by rewrite Hfl, Hfd|].
        apply Forall_app. split; [done|]. constructor; [|done].
        eexists. split; [done|]. by destruct last.
      * split; [done|]. apply Forall_app. split; [done|].
        constructor; [|done]. by eexists.
    + destruct input as [b|e]; simpl.
      * split; [by destruct last|].
        apply Forall_app. split; [done|]. constructor; [|done].
        eexists. split; [done|]. by destruct last.
      * split; [done|]. apply Forall_app. split; [done|].
        constructor; [|done]. by eexists.
Qed.

End BlockCompressor.

(** ** The single-shot path *)

Section WholeFile.
Context `{lib : Lib}.

(** What [compressBlock] makes of the whole file on the single-shot path. *)
Lemma compressBlock_result_whole z b :
  level_ok (compLevel z) = true →
  compressBlock_result z (Ok b) [] true
  = Ok (flate_bytes (compLevel z) [] [FWrite b; FClose]).
Proof.
  intros Hl. unfold compressBlock_result, compressBlock. simpl.
  unfold NewWriter, NewWriterDict. by rewrite Hl.
Qed.

(** C2: on the single-shot path an entry declared DEFLATE whose reads
    succeed is published with method STORE if and only if the deflated
    size is at least the uncompressed size of its header; when the
    deflated bytes are strictly fewer they are the payload and the method
    stays DEFLATE, otherwise the raw bytes are the payload and the method
    is STORE. *)
Theorem C2_deflate_falls_back_to_store z ze r :
  Method (fh ze) = zip_Deflate →
  (∀ op, fault r op = None) →
  level_ok (compLevel z) = true →
  let compressed := flate_bytes (compLevel z) [] [FWrite (data r); FClose] in
  let w := compressWholeFile z ze r in
  ∃ ze', published w = Some ze' ∧
    (Method (fh ze') = zip_Store ↔
       len compressed >= UncompressedSize64 (fh ze)) ∧
    (len compressed < UncompressedSize64 (fh ze) →
       Method (fh ze') = zip_Deflate ∧ payload w = [compressed]) ∧
    (len compressed >= UncompressedSize64 (fh ze) →
       Method (fh ze') = zip_Store ∧ payload w = [data r]).
Proof.
  intros Hm Hf Hl compressed w. subst w. unfold compressWholeFile, readFile, read.
  rewrite !Hf. simpl. rewrite Hm. simpl.
  rewrite compressBlock_result_whole by done. fold compressed.
  destruct (len compressed <? UncompressedSize64 (fh ze)) eqn:Hc.
  - apply Z.ltb_lt in Hc. eexists. split; [reflexivity|]. simpl.
    rewrite Hm. unfold zip_Deflate, zip_Store. repeat split; try lia; done.
  - apply Z.ltb_ge in Hc. eexists. split; [reflexivity|]. simpl.
    unfold zip_Store. repeat split; try lia; done.
Qed.

End WholeFile.

(** C2 at [aaaaaaaa], which the toy encoder brings from 8 to 2 bytes. *)
Lemma C2_witness :
  let z := sample_zipWriter false in
  let ze := {| fh := newFileHeader "a.txt" zip_Deflate 8;
               futureReaders := false; allocatedSize := 8 |} in
  let r := byteReaderCloser (bytes_of_string "aaaaaaaa") in
  ∃ ze', published (@compressWholeFile sample_lib z ze r) = Some ze' ∧
    (Method (fh ze') = zip_Store ↔ len [x61; x01] >= 8) ∧
    (len [x61; x01] < 8 →
       Method (fh ze') = zip_Deflate ∧
       payload (@compressWholeFile sample_lib z ze r) = [[x61; x01]]) ∧
    (len [x61; x01] >= 8 →
       Method (fh ze') = zip_Store ∧
       payload (@compressWholeFile sample_lib z ze r)
       = [bytes_of_string "aaaaaaaa"]).
Proof.
  intros z ze r.
  exact (@C2_deflate_falls_back_to_store sample_lib z ze r eq_refl
           (λ _, eq_refl) eq_refl).
Defined.

(** ** The manifest *)

Lemma has_prefix_spec sub b :
  has_prefix sub b = true ↔ ∃ post, b = sub ++ post.
Proof.
  revert b. induction sub as [|x sub IH]; intros b; simpl.
  - split; [by exists b|done].
  - destruct b as [|y b].
    + split; [done|]. by intros [post H].
    + rewrite andb_true_iff, IH. split.
      * intros [Hxy [post ->]]. exists post.
        by rewrite (Byte.byte_dec_bl _ _ Hxy).
      * intros [post [= -> ->]]. split; [|by exists post].
        by apply Byte.byte_dec_lb.
Qed.

Lemma bytes_Contains_spec b sub :
  bytes_Contains b sub = true ↔ contains_literal b sub.
Proof.
  unfold contains_literal. induction b as [|y b IH]; simpl.
  - rewrite orb_false_r, has_prefix_spec. split.
    + intros [post H]. by exists [], post.
    + intros (pre & post & H). destruct pre; [by exists post|done].
  - rewrite orb_true_iff, has_prefix_spec, IH. split.
    + intros [[post H]|(pre & post & H)].
      * by exists [], post.
      * exists (y :: pre), post. by rewrite H.
    + intros (pre & post & H). destruct pre as [|y' pre].
      * left. by exists post.
      * right. injection H as -> ->. by exists pre, post.
Qed.

Section Manifest.
Context `{lib : Lib}.

(** C9: [addManifest], when it can read the manifest and its destination
    is free, starts the single-shot goroutine on these bytes: the given
    bytes as they are when they contain the literal [Manifest-Version:],
    else [Manifest-Version: 1.0], newline, [Created-By: soong_zip],
    newline, the given bytes and one newline.  The goroutine publishes the
    entry with method STORE and these bytes as its payload. *)
Theorem C9_manifest_payload fs dest src method z t givenBytes :
  ReadFile fs src = Ok givenBytes →
  createdDirs z !! dest = None →
  createdFiles z !! dest = None →
  ∃ finalBytes w pre,
    addManifest fs dest src method z t = (Ok tt, z, t ++ pre ++ [PGo w]) ∧
    (∀ e, e ∈ pre → ∀ w', e ≠ PGo w') ∧
    (contains_literal givenBytes (bytes_of_string "Manifest-Version:") →
       finalBytes = givenBytes) ∧
    (¬ contains_literal givenBytes (bytes_of_string "Manifest-Version:") →
       finalBytes =
         bytes_of_string "Manifest-Version: 1.0" ++ [x0a] ++
         bytes_of_string "Created-By: soong_zip" ++ [x0a] ++
         givenBytes ++ [x0a]) ∧
    payload w = [finalBytes] ∧
    ∃ ze, published w = Some ze ∧ Name (fh ze) = dest ∧
          Method (fh ze) = zip_Store.
Proof.
  intros Hr Hd Hf. unfold addManifest, bind, lift, get. rewrite Hr. simpl.
  rewrite Hd, Hf.
  set (finalBytes := if negb (bytes_Contains givenBytes manifestMarker)
                     then (manifestHeader ++ givenBytes) ++ [x0a]
                     else givenBytes).
  exists finalBytes. unfold writeFileContents, bind, get, emit. simpl.
  eexists _, [_; _; _]. split; [rewrite <- !app_assoc; reflexivity|].
  split.
  { intros e He w'. repeat (apply elem_of_cons in He as [->|He]; [done|]).
    by apply elem_of_nil in He. }
  split; [|split].
  - intros Hc. apply bytes_Contains_spec in Hc. subst finalBytes.
    unfold manifestMarker. by rewrite Hc.
  - intros Hc. subst finalBytes.
    destruct (bytes_Contains givenBytes manifestMarker) eqn:E.
    + exfalso. apply Hc. by apply bytes_Contains_spec.
    + simpl. unfold manifestHeader, manifestMarker.
      by rewrite <- ?app_assoc.
  - unfold compressWholeFile, readFile, read. simpl. split; [done|].
    eexists. split; [reflexivity|]. done.
Qed.

End Manifest.

(** C9 at the manifest [Main-Class: Foo] of the small world. *)
Lemma C9_witness :
  ∃ finalBytes w pre,
    @addManifest sample_lib sample_fs manifestDest "mf.txt" zip_Deflate
      (sample_zipWriter true) [] = (Ok tt, sample_zipWriter true, [] ++ pre ++ [PGo w]) ∧
    (∀ e, e ∈ pre → ∀ w', e ≠ PGo w') ∧
    (contains_literal (bytes_of_string "Main-Class: Foo")
       (bytes_of_string "Manifest-Version:") →
       finalBytes = bytes_of_string "Main-Class: Foo") ∧
    (¬ contains_literal (bytes_of_string "Main-Class: Foo")
         (bytes_of_string "Manifest-Version:") →
       finalBytes =
         bytes_of_string "Manifest-Version: 1.0" ++ [x0a] ++
         bytes_of_string "Created-By: soong_zip" ++ [x0a] ++
         bytes_of_string "Main-Class: Foo" ++ [x0a]) ∧
    payload w = [finalBytes] ∧
    ∃ ze, published w = Some ze ∧ Name (fh ze) = manifestDest ∧
          Method (fh ze) = zip_Store.
Proof.
  exact (@C9_manifest_payload sample_lib sample_fs manifestDest "mf.txt"
           zip_Deflate (sample_zipWriter true) []
           (bytes_of_string "Main-Class: Foo") eq_refl eq_refl eq_refl).
Defined.

(** ** The choice between the two paths *)

Lemma int64_small x : 0 <= x < 2 ^ 63 → int64 x = x.
Proof.
  intros H. unfold int64. rewrite Z.mod_small by lia.
  destruct (x <? 2 ^ 63) eqn:E; [done|]. apply Z.ltb_ge in E. lia.
Qed.

Section Paths.
Context `{lib : Lib}.

(** The loop over the blocks starts nothing but [compressPartialFile]. *)
Lemma blocks_go fuel z r fileSize j start z0 t res z' t' :
  blocks fuel z r fileSize j start z0 t = (res, z', t') →
  ∃ rest, t' = t ++ rest ∧ z' = z0 ∧
    ∀ w, PGo w ∈ rest →
      ∃ start dict last j, w = compressPartialFile z r start dict last j.
Proof.
  revert j start t. induction fuel as [|fuel IH]; intros j start t; simpl.
  - unfold ret. intros [= <- <- <-]. exists []. rewrite app_nil_r.
    split; [done|]. split; [done|]. intros w H. by apply elem_of_nil in H.
  - destruct (start <? fileSize); cycle 1.
    { unfold ret. intros [= <- <- <-]. exists []. rewrite app_nil_r.
      split; [done|]. split; [done|]. intros w H. by apply elem_of_nil in H. }
    unfold bind, emit. simpl.
    destruct (start >=? windowSize).
    + unfold lift, read. destruct (fault r (window_read start)).
      * unfold fail. intros [= <- <- <-]. exists [PSendReaders j; PCpuRequest].
        rewrite <- app_assoc. split; [done|]. split; [done|].
        intros w H. repeat (apply elem_of_cons in H as [?|H]; [done|]).
        by apply elem_of_nil in H.
      * unfold ret. intros H. apply IH in H as (rest & -> & -> & Hrest).
        eexists ([_; _; _] ++ rest). rewrite <- !app_assoc. split; [done|].
        split; [done|]. intros w H.
        apply elem_of_app in H as [H|H]; [|by apply Hrest].
        repeat (apply elem_of_cons in H as [H|H]; [try done|]).
        -- injection H as ->. by eexists _, _, _, _.
        -- by apply elem_of_nil in H.
    + unfold ret. intros H. apply IH in H as (rest & -> & -> & Hrest).
      eexists ([_; _; _] ++ rest). rewrite <- !app_assoc. split; [done|].
      split; [done|]. intros w H.
      apply elem_of_app in H as [H|H]; [|by apply Hrest].
      repeat (apply elem_of_cons in H as [H|H]; [try done|]).
      * injection H as ->. by eexists _, _, _, _.
      * by apply elem_of_nil in H.
Qed.

(** The single-shot goroutine sends at most one buffer. *)
Lemma compressWholeFile_one_piece z ze r :
  (length (payload (compressWholeFile z ze r)) <= 1)%nat.
Proof.
  unfold compressWholeFile, readFile, read.
  repeat (match goal with
          | |- context [match ?x with _ => _ end] => destruct x
          end; simpl; try lia).
Qed.

(** C5: for a header as [addFile] and [addManifest] build it (the 32-bit
    size unset, the size that of a file), [writeFileContents] takes the
    split path (a [futureReaders] channel, the CRC goroutine, then only
    per-block goroutines) exactly when the method is DEFLATE and the size is
    at least 6 MiB; otherwise it starts the one single-shot goroutine, which
    sends its payload in one piece. *)
Theorem C5_split_path_iff_large_deflate header r z t :
  UncompressedSize header = 0 →
  0 <= UncompressedSize64 header < 2 ^ 63 →
  ∃ res new,
    writeFileContents header r z t = (res, z, t ++ new) ∧
    if (Method header =? zip_Deflate) &&
       (6 * (1024 * 1024) <=? UncompressedSize64 header)
    then
      ∃ e a n ze rest,
        new = [PSendOp e; PCpuRequest; PMemRequest a; PMakeReaders n;
               PGo (crcFile r ze)] ++ rest ∧
        ∀ w, PGo w ∈ rest →
          ∃ start dict last j, w = compressPartialFile z r start dict last j
    else
      ∃ e a ze,
        new = [PSendOp e; PCpuRequest; PMemRequest a;
               PGo (compressWholeFile z ze r)] ∧
        res = Ok tt ∧
        (length (payload (compressWholeFile z ze r)) <= 1)%nat.
Proof.
  intros H32 H64. unfold writeFileContents, bind, get, emit. simpl.
  rewrite H32, (int64_small (UncompressedSize64 header)) by done.
  rewrite (int64_small 0) by lia.
  assert ((if UncompressedSize64 header =? 0 then 0
           else UncompressedSize64 header) = UncompressedSize64 header) as ->.
  { destruct (UncompressedSize64 header =? 0) eqn:E; [|done].
    apply Z.eqb_eq in E. by rewrite E. }
  replace (UncompressedSize64 header >=? minParallelFileSize)
    with (6 * (1024 * 1024) <=? UncompressedSize64 header)
    by (unfold minParallelFileSize, parallelBlockSize;
        rewrite Z.geb_leb; done).
  destruct ((Method header =? zip_Deflate) &&
            (6 * (1024 * 1024) <=? UncompressedSize64 header)).
  - match goal with
    | |- context [blocks ?f ?z ?r ?s ?j ?st ?z0 ?t0] =>
        destruct (blocks f z r s j st z0 t0) as [[res z'] t'] eqn:Hb
    end.
    apply blocks_go in Hb as (rest & -> & -> & Hrest).
    destruct res as [[]|e].
    + eexists (Ok tt), _. rewrite <- !app_assoc. simpl.
      split; [reflexivity|].
      eexists _, _, _, _, (rest ++ [PCloseReaders]). split; [done|].
      intros w H. apply elem_of_app in H as [H|H]; [by apply Hrest|].
      apply elem_of_cons in H as [H|H]; [done|by apply elem_of_nil in H].
    + eexists (Err e), _. rewrite <- !app_assoc. simpl.
      split; [reflexivity|]. by eexists _, _, _, _, rest.
  - eexists (Ok tt), _. rewrite <- !app_assoc. simpl. split; [reflexivity|].
    eexists _, _, _. split; [done|]. split; [done|].
    apply compressWholeFile_one_piece.
Qed.

End Paths.

(** C5 at the 8 bytes of [a.txt]: the single-shot path. *)
Lemma C5_witness :
  ∃ res new,
    @writeFileContents sample_lib (newFileHeader "a.txt" zip_Deflate 8)
      (byteReaderCloser (bytes_of_string "aaaaaaaa")) (sample_zipWriter false) []
    = (res, sample_zipWriter false, [] ++ new) ∧
    ∃ e a ze,
      new = [PSendOp e; PCpuRequest; PMemRequest a;
             PGo (@compressWholeFile sample_lib (sample_zipWriter false) ze
                    (byteReaderCloser (bytes_of_string "aaaaaaaa")))] ∧
      res = Ok tt ∧
      (length (payload (@compressWholeFile sample_lib (sample_zipWriter false) ze
                          (byteReaderCloser (bytes_of_string "aaaaaaaa")))) <= 1)%nat.
Proof.
  exact (@C5_split_path_iff_large_deflate sample_lib
           (newFileHeader "a.txt" zip_Deflate 8)
           (byteReaderCloser (bytes_of_string "aaaaaaaa"))
           (sample_zipWriter false) [] eq_refl
           (conj (Zle_0_pos 8) (eq_refl : (8 ?= 2 ^ 63) = Lt))).
Defined.

(** ** The blocks of the split path *)

Lemma nblocks_lt fileSize (j : nat) :
  Z.of_nat j * parallelBlockSize < fileSize ↔ (j < nblocks fileSize)%nat.
Proof.
  unfold nblocks, parallelBlockSize.
  pose proof (Z.div_mod (fileSize + 1 * 1024 * 1024 - 1) (1 * 1024 * 1024)
                ltac:(lia)) as Hdm.
  pose proof (Z.mod_pos_bound (fileSize + 1 * 1024 * 1024 - 1)
                (1 * 1024 * 1024) ltac:(lia)) as Hm.
  split; intros H.
  - apply Nat2Z.inj_lt. rewrite Z2Nat.id; [nia|].
    apply Z.div_pos; lia.
  - assert (Z.of_nat j < (fileSize + 1 * 1024 * 1024 - 1) / (1 * 1024 * 1024))
      by lia.
    nia.
Qed.

Lemma nblocks_fuel fileSize :
  0 <= fileSize →
  (nblocks fileSize <= Z.to_nat (Z.quot fileSize parallelBlockSize + 1))%nat.
Proof.
  intros H. unfold nblocks. apply Z2Nat.inj_le.
  - apply Z.div_pos; unfold parallelBlockSize; lia.
  - rewrite Z.quot_div_nonneg by (unfold parallelBlockSize; lia).
    pose proof (Z.div_pos fileSize parallelBlockSize H
                  ltac:(unfold parallelBlockSize; lia)). lia.
  - rewrite Z.quot_div_nonneg by (unfold parallelBlockSize; lia).
    replace (fileSize + parallelBlockSize - 1)
      with ((fileSize - 1) + 1 * parallelBlockSize) by lia.
    rewrite Z.div_add by (unfold parallelBlockSize; lia).
    assert ((fileSize - 1) / parallelBlockSize <= fileSize / parallelBlockSize);
      [|lia].
    apply Z.div_le_mono; unfold parallelBlockSize; lia.
Qed.

Section Blocks.
Context `{lib : Lib}.

Lemma compressBlock_result_ok z b dict last :
  level_ok (compLevel z) = true →
  compressBlock_result z (Ok b) dict last
  = Ok (flate_bytes (compLevel z) dict
          [FWrite b; if last then FClose else FFlush]).
Proof.
  intros Hl. unfold compressBlock_result, compressBlock.
  destruct (0 <? len dict) eqn:Hd.
  - unfold NewWriterDict. rewrite Hl. simpl. by destruct last.
  - assert (dict = []) as ->.
    { destruct dict; [done|]. unfold len in Hd. simpl in Hd.
      apply Z.ltb_ge in Hd. lia. }
    simpl. unfold NewWriter, NewWriterDict. rewrite Hl. simpl.
    by destruct last.
Qed.

Lemma blocks_trace z r fileSize :
  (∀ op, fault r op = None) →
  level_ok (compLevel z) = true →
  0 <= fileSize < 2 ^ 62 →
  ∀ fuel j z0 t,
    (nblocks fileSize - j <= fuel)%nat →
    blocks fuel z r fileSize j (Z.of_nat j * parallelBlockSize) z0 t
    = (Ok tt, z0,
       t ++ flat_map (turn z r fileSize) (seq j (nblocks fileSize - j))).
Proof.
  intros Hf Hl Hs. induction fuel as [|fuel IH]; intros j z0 t Hfuel.
  - replace (nblocks fileSize - j)%nat with 0%nat by lia. simpl.
    by rewrite app_nil_r.
  - simpl. destruct (Z.of_nat j * parallelBlockSize <? fileSize) eqn:Hlt.
    + apply Z.ltb_lt in Hlt. pose proof Hlt as Hj. apply nblocks_lt in Hj.
      assert (int64 (Z.of_nat j * parallelBlockSize + parallelBlockSize)
              = Z.of_nat (S j) * parallelBlockSize) as ->.
      { rewrite int64_small; unfold parallelBlockSize in *; lia. }
      unfold bind, emit, lift, read. rewrite Hf. simpl.
      assert (∀ d, (if Z.of_nat j * parallelBlockSize >=? windowSize
                    then ret (section r (Z.of_nat j * parallelBlockSize
                                         - windowSize) windowSize)
                    else ret []) z0 d
                   = (Ok (if windowSize <=? Z.of_nat j * parallelBlockSize
                          then section r (Z.of_nat j * parallelBlockSize
                                          - windowSize) windowSize
                          else []), z0, d)) as ->.
      { intros d. rewrite Z.geb_leb.
        by destruct (windowSize <=? Z.of_nat j * parallelBlockSize). }
      rewrite IH by lia.
      replace (nblocks fileSize - j)%nat with (S (nblocks fileSize - S j)) by lia.
      simpl. rewrite <- !app_assoc. simpl. do 5 f_equal.
      unfold compressPartialFile, read. rewrite Hf.
      rewrite compressBlock_result_ok by done. unfold block. do 4 f_equal.
      destruct (Z.of_nat (S j) * parallelBlockSize <? fileSize) eqn:Hn.
      * apply Z.ltb_lt, nblocks_lt in Hn. simpl.
        destruct (decide (S j = nblocks fileSize)); [lia|done].
      * apply Z.ltb_ge in Hn. simpl.
        destruct (decide (S j = nblocks fileSize)) as [|Hne]; [done|].
        exfalso. assert (S j < nblocks fileSize)%nat as Hlt' by lia.
        apply nblocks_lt in Hlt'. lia.
    + apply Z.ltb_ge in Hlt.
      assert (¬ (j < nblocks fileSize)%nat) as Hj.
      { intros Hj. apply nblocks_lt in Hj. lia. }
      replace (nblocks fileSize - j)%nat with 0%nat by lia. simpl.
      by rewrite app_nil_r.
Qed.

End Blocks.

Lemma concat_ranges (l : bytes) (k n : nat) :
  concat (map (λ j, take k (drop (j * k) l)) (seq 0 n)) = take (n * k) l.
Proof.
  induction n as [|n IH]; [done|].
  rewrite seq_S, map_app, concat_app, IH. simpl. rewrite app_nil_r.
  rewrite take_take_drop. f_equal. lia.
Qed.

Section SplitPath.
Context `{lib : Lib}.

(** C6: on the split path, for a source whose reads succeed,
    [writeFileContents] runs one turn per consecutive 1 MiB range, in the
    order of the ranges.  The turn for the range at [start] hands the block
    compressor the bytes of the range, as dictionary the window of 32 KiB
    that ends at [start] when [start] is at least 32 KiB and the empty
    dictionary otherwise (the first range), and asks for a final block
    ([Close]) exactly on the last range.  The ranges together are the
    source, and each window is full. *)
Theorem C6_blocks_dictionary_and_last header r z t :
  Method header = zip_Deflate →
  UncompressedSize header = 0 →
  minParallelFileSize <= UncompressedSize64 header < 2 ^ 62 →
  len (data r) = UncompressedSize64 header →
  (∀ op, fault r op = None) →
  level_ok (compLevel z) = true →
  let fileSize := UncompressedSize64 header in
  (∃ e a m ze,
     writeFileContents header r z t
     = (Ok tt, z,
        t ++ [PSendOp e; PCpuRequest; PMemRequest a; PMakeReaders m;
              PGo (crcFile r ze)] ++
        flat_map (turn z r fileSize) (seq 0 (nblocks fileSize)) ++
        [PCloseReaders])) ∧
  concat (map (λ j, section r (Z.of_nat j * parallelBlockSize) parallelBlockSize)
            (seq 0 (nblocks fileSize))) = data r ∧
  (∀ j : nat, (j < nblocks fileSize)%nat →
     let start := Z.of_nat j * parallelBlockSize in
     (windowSize <= start ↔ j ≠ 0%nat) ∧
     (windowSize <= start →
        len (section r (start - windowSize) windowSize) = windowSize ∧
        ∃ before after,
          data r = before ++ section r (start - windowSize) windowSize ++ after ∧
          len before + windowSize = start)).
Proof.
  intros Hm H32 H64 Hlen Hf Hl fileSize.
  assert (0 <= fileSize < 2 ^ 62) as Hs
    by (unfold fileSize, minParallelFileSize, parallelBlockSize in *; lia).
  split; [|split].
  - unfold writeFileContents, bind, get, emit. simpl.
    rewrite H32, (int64_small (UncompressedSize64 header)) by lia.
    rewrite Hm. fold fileSize.
    assert ((if fileSize =? 0 then int64 0 else fileSize) = fileSize) as ->.
    { destruct (fileSize =? 0) eqn:E; [|done]. apply Z.eqb_eq in E.
      unfold minParallelFileSize, parallelBlockSize in *. lia. }
    assert ((fileSize >=? minParallelFileSize) = true) as ->.
    { rewrite Z.geb_leb. apply Z.leb_le. unfold fileSize. lia. }
    simpl.
    rewrite (blocks_trace z r fileSize Hf Hl Hs _ 0%nat); cycle 1.
    { pose proof (nblocks_fuel fileSize ltac:(lia)). lia. }
    rewrite Nat.sub_0_r, <- !app_assoc. simpl. by eexists _, _, _, _.
  - unfold section.
    transitivity (take (nblocks fileSize * Z.to_nat parallelBlockSize) (data r)).
    + rewrite <- concat_ranges. f_equal. apply map_ext. intros j.
      do 2 f_equal. unfold parallelBlockSize. lia.
    + apply take_ge.
      assert (¬ (nblocks fileSize < nblocks fileSize)%nat) as Hn by lia.
      rewrite <- nblocks_lt in Hn. unfold len in Hlen. fold fileSize in Hlen.
      unfold parallelBlockSize in *. lia.
  - intros j Hj start. apply nblocks_lt in Hj. fold start in Hj.
    unfold len in *. fold fileSize in Hlen. split.
    + unfold start, windowSize, parallelBlockSize. lia.
    + intros Hw. unfold section.
      rewrite length_take, length_drop. split.
      * unfold windowSize in *. lia.
      * exists (take (Z.to_nat (start - windowSize)) (data r)),
               (drop (Z.to_nat start) (data r)).
        split.
        -- rewrite <- (take_drop (Z.to_nat (start - windowSize)) (data r)) at 1.
           f_equal.
           rewrite <- (take_drop (Z.to_nat windowSize)
                         (drop (Z.to_nat (start - windowSize)) (data r))) at 1.
           f_equal. rewrite drop_drop. f_equal. unfold windowSize in *. lia.
        -- rewrite length_take. unfold windowSize in *. lia.
Qed.

End SplitPath.

(** C6 at a source of 6 MiB of zero bytes. *)
Lemma C6_witness :
  let header := newFileHeader "big" zip_Deflate 6291456 in
  let r := byteReaderCloser (replicate (Z.to_nat 6291456) x00) in
  let z := sample_zipWriter false in
  let fileSize := UncompressedSize64 header in
  (∃ e a m ze,
     @writeFileContents sample_lib header r z []
     = (Ok tt, z,
        [] ++ [PSendOp e; PCpuRequest; PMemRequest a; PMakeReaders m;
               PGo (@crcFile sample_lib r ze)] ++
        flat_map (@turn sample_lib z r fileSize) (seq 0 (nblocks fileSize)) ++
        [PCloseReaders])) ∧
  concat (map (λ j, section r (Z.of_nat j * parallelBlockSize) parallelBlockSize)
            (seq 0 (nblocks fileSize))) = data r ∧
  (∀ j : nat, (j < nblocks fileSize)%nat →
     let start := Z.of_nat j * parallelBlockSize in
     (windowSize <= start ↔ j ≠ 0%nat) ∧
     (windowSize <= start →
        len (section r (start - windowSize) windowSize) = windowSize ∧
        ∃ before after,
          data r = before ++ section r (start - windowSize) windowSize ++ after ∧
          len before + windowSize = start)).
Proof.
  intros header r z.
  refine (@C6_blocks_dictionary_and_last sample_lib header r z []
            eq_refl eq_refl (conj _ eq_refl) _ (λ _, eq_refl) eq_refl).
  - unfold minParallelFileSize, parallelBlockSize. cbn [UncompressedSize64 header newFileHeader]. lia.
  - unfold len. cbn [data r byteReaderCloser]. rewrite length_replicate.
    cbn [UncompressedSize64 header newFileHeader]. apply Z2Nat.id. lia.
Defined.

(** ** Errors of [write] and the exit code *)

Section Exit.
Context `{lib : Lib}.

(** A manifest without [-jar] makes [write] return its error with the
    variable [err] still nil: the output was created and is closed, but
    not removed. *)
Lemma write_manifest_without_jar flags fs zfault sched z out pathMappings manifest :
  Create fs out = None →
  manifest ≠ "" →
  flag_emulateJar flags = false →
  let r := write flags fs zfault sched z out pathMappings manifest in
  wr_returned r = Some (Some manifest_without_jar) ∧
  wr_calls r = [os_Create out; f_Close].
Proof.
  intros Hc Hm Hj. unfold write. rewrite Hc, Hj.
  apply String.eqb_neq in Hm. by rewrite Hm.
Qed.


End Exit.

(** C3 (as the code runs): [-m mf.txt] without [-jar]: [write] creates
    [out.zip], returns the error, and its deferred calls close the file
    without removing it. *)
Theorem C3_manifest_error_leaves_output :
  let r := @write sample_lib (sample_flags false "mf.txt") sample_fs no_zfault
             [] (sample_zipWriter false) "out.zip" [] "mf.txt" in
  wr_returned r = Some (Some manifest_without_jar) ∧
  wr_calls r = [os_Create "out.zip"; f_Close] ∧
  os_Remove "out.zip" ∉ wr_calls r.
Proof.
  split; [done|]. split; [done|]. simpl.
  intros H. repeat (apply elem_of_cons in H as [H|H]; [done|]).
  by apply elem_of_nil in H.
Qed.



(** ** The order of the archive: one entry and its goroutines *)

Lemma concat_lookup {A} (ts : list (list A)) k t :
  ts !! k = Some t →
  concat ts = concat (take k ts) ++ t ++ concat (drop (S k) ts).
Proof.
  intros H. rewrite <- (take_drop_middle ts k t H) at 1.
  by rewrite concat_app.
Qed.

Lemma concat_insert {A} (ts : list (list A)) k t t' :
  ts !! k = Some t →
  concat (<[k := t']> ts) = concat (take k ts) ++ t' ++ concat (drop (S k) ts).
Proof.
  intros H. rewrite insert_take_drop by (by eapply lookup_lt_Some).
  by rewrite concat_app.
Qed.

Lemma pick_app {A B} (f : A → option B) l1 l2 :
  pick f (l1 ++ l2) = pick f l1 ++ pick f l2.
Proof.
  induction l1 as [|x l1 IH]; [done|]. simpl. rewrite IH. by destruct (f x).
Qed.

Lemma racts_concat_nil (ts : list (list weff)) :
  (∀ i t, ts !! i = Some t → racts t = []) → racts (concat ts) = [].
Proof.
  induction ts as [|t ts IH]; intros H; [done|]. simpl. unfold racts in *.
  rewrite pick_app, (H 0%nat t eq_refl), IH; [done|].
  intros i t' Hi. by apply (H (S i)).
Qed.

Lemma racts_nil_reader l : racts l = [] → pick reader_of l = [].
Proof.
  induction l as [|e l IH]; [done|]. unfold racts. simpl.
  destruct e; simpl; try done; apply IH.
Qed.

Lemma racts_nil_close l : racts l = [] → pick close_of l = [].
Proof.
  induction l as [|e l IH]; [done|]. unfold racts. simpl.
  destruct e; simpl; try done; apply IH.
Qed.

(** The goroutine that takes a step on [futureReaders] is the only one
    with such steps. *)
Lemma owner_alone (ts : list (list weff)) (k : nat) e rest :
  (∃ k0, ∀ i t, ts !! i = Some t → i ≠ k0 → racts t = []) →
  ts !! k = Some (e :: rest) →
  is_Some (ract_of e) →
  racts (concat (take k ts)) = [] ∧ racts (concat (drop (S k) ts)) = [].
Proof.
  intros [k0 Hk0] Hk [e' He].
  assert (k = k0) as <-.
  { destruct (decide (k = k0)); [done|]. specialize (Hk0 _ _ Hk n).
    unfold racts in Hk0. simpl in Hk0. by rewrite He in Hk0. }
  split; apply racts_concat_nil; intros i t Hi.
  - apply lookup_take_Some in Hi as [Hi Hlt]. apply (Hk0 _ _ Hi). lia.
  - rewrite lookup_drop in Hi. apply (Hk0 _ _ Hi). lia.
Qed.

Lemma owner_insert (ts : list (list weff)) (k : nat) e rest :
  (∃ k0, ∀ i t, ts !! i = Some t → i ≠ k0 → racts t = []) →
  ts !! k = Some (e :: rest) →
  ∃ k0, ∀ i t, <[k := rest]> ts !! i = Some t → i ≠ k0 → racts t = [].
Proof.
  intros [k0 Hk0] Hk. exists k0. intros i t Hi Hne.
  destruct (decide (i = k)) as [->|Hik].
  - rewrite list_lookup_insert_eq in Hi by (by eapply lookup_lt_Some).
    injection Hi as <-. specialize (Hk0 _ _ Hk Hne).
    unfold racts in *. simpl in Hk0. destruct (ract_of e); [done|done].
  - rewrite list_lookup_insert_ne in Hi by done. by apply (Hk0 i).
Qed.

Lemma sends_then_close_shape c l :
  sends_then_close l → closed c = false → shape c l.
Proof.
  intros Hl Hc. unfold shape. destruct l as [|[] l]; try done.
  all: split; [done|]; intros; congruence.
Qed.

Lemma length_le_1_mid {A} (l1 l2 l3 : list A) x :
  (length (l1 ++ l2 ++ x :: l3) <= 1)%nat → l1 = [] ∧ l2 = [] ∧ l3 = [].
Proof.
  rewrite !length_app. simpl.
  destruct l1, l2, l3; simpl; try lia. done.
Qed.
Lemma result_chan_upd o j j' c :
  result_chan (upd_result_chan o j c) j' = if decide (j = j') then c else result_chan o j'.
Proof.
  unfold result_chan, upd_result_chan. simpl. destruct (decide (j = j')) as [->|].
  - by rewrite lookup_insert_eq.
  - by rewrite lookup_insert_ne.
Qed.

Lemma bool_decide_nil_app {A} (l1 l2 : list A) :
  bool_decide (l1 ++ l2 ≠ []) = bool_decide (l1 ≠ []) || bool_decide (l2 ≠ []).
Proof. destruct l1, l2; done. Qed.

Ltac obs_B :=
  intros ?j'; rewrite ?result_chan_upd; repeat (rewrite ?pick_app; simpl).

Lemma thread_step_obs o (ts : list (list weff)) (k : nat) e rest o' :
  ok o ts → ts !! k = Some (e :: rest) → chan_step o e = Some o' →
  E o' (<[k := rest]> ts) = E o ts ∧
  R o' (<[k := rest]> ts) = R o ts ∧
  (∀ j, B o' (<[k := rest]> ts) j = B o ts j) ∧
  closes o' (<[k := rest]> ts) = closes o ts.
Proof.
  intros [HE HB Hown Hsh HR Hfr] Hk Hstep.
  pose proof (owner_alone _ _ _ _ Hown Hk) as Halone.
  unfold E, R, B, closes in *.
  rewrite (concat_lookup _ _ _ Hk) in *.
  rewrite (concat_insert _ _ _ rest Hk).
  set (pre := concat (take k ts)) in *. set (post := concat (drop (S k) ts)) in *.
  clearbody pre post.
  unfold racts in *. rewrite !pick_app in *. rewrite !bool_decide_nil_app.
  destruct e; simpl in Hstep; try discriminate.
  - (* WMakeReaders *)
    injection Hstep as <-. simpl in *.
    destruct Halone as [Hpre Hpost]; [by eexists|].
    rewrite Hpre, Hpost in Hsh. simpl in Hsh. destruct Hsh as (Hb & Hcl & _).
    rewrite Hb, Hcl. repeat split; try done.
    by obs_B.
  - (* WSendReaders *)
    destruct (can_send (readers_chan o)); [|done]. injection Hstep as <-.
    simpl in *. destruct Halone as [Hpre Hpost]; [by eexists|].
    rewrite (racts_nil_reader _ Hpre). simpl. rewrite <- !app_assoc. simpl.
    repeat split; try done.
    obs_B.
    destruct (decide (j = j')) as [<-|]; [|done].
    destruct (Hfr j) as [_ ->]; [|done].
    rewrite (racts_nil_reader _ Hpre). simpl. by left.
  - (* WCloseReaders *)
    injection Hstep as <-. simpl in *. repeat split; try done.
    + by obs_B.
    + by rewrite !orb_true_r.
  - (* WSendResult *)
    destruct (can_send (result_chan o j)); [|done]. injection Hstep as <-.
    simpl in *. repeat split; try done.
    obs_B.
    destruct (decide (j = j')) as [<-|Hne]; [|done].
    simpl. specialize (HB j). repeat (rewrite ?pick_app in HB; simpl in HB).
    rewrite !decide_True in * by done.
    apply length_le_1_mid in HB as (-> & -> & H3).
    apply app_eq_nil in H3 as [-> ->]. done.
  - (* WCloseResult *)
    injection Hstep as <-. simpl in *. repeat split; try done.
    obs_B.
    by destruct (decide (j = j')) as [<-|Hne].
  - (* WCpuFinish *)
    injection Hstep as <-. repeat split; try done.
    by obs_B.
  - (* WSendEntry *)
    destruct (can_send (entry_chan o)); [|done]. injection Hstep as <-.
    simpl in *. repeat split; try done.
    + apply length_le_1_mid in HE as (-> & -> & H3).
      apply app_eq_nil in H3 as [-> ->]. done.
    + by obs_B.
  - (* WCloseEntry *)
    injection Hstep as <-. repeat split; try done.
    by obs_B.
Qed.
Lemma pick_reader_ract l j : j ∈ pick reader_of l → racts l ≠ [].
Proof.
  intros H Hn. apply racts_nil_reader in Hn. rewrite Hn in H.
  by apply elem_of_nil in H.
Qed.

Lemma thread_step_ok o (ts : list (list weff)) (k : nat) e rest o' :
  ok o ts → ts !! k = Some (e :: rest) → chan_step o e = Some o' →
  ok o' (<[k := rest]> ts).
Proof.
  intros Hok Hk Hstep.
  destruct (thread_step_obs _ _ _ _ _ _ Hok Hk Hstep) as (HE' & HR' & HB' & HC').
  destruct Hok as [HE HB Hown Hsh HR Hfr].
  pose proof (owner_alone _ _ _ _ Hown Hk) as Halone.
  split.
  - by rewrite HE'.
  - intros j. by rewrite HB'.
  - by eapply owner_insert.
  - clear HE' HR' HB' HC'.
    rewrite (concat_lookup _ _ _ Hk) in Hsh.
    rewrite (concat_insert _ _ _ rest Hk).
    set (pre := concat (take k ts)) in *. set (post := concat (drop (S k) ts)) in *.
    clearbody pre post. unfold racts in *. rewrite !pick_app in *.
    destruct e; simpl in Hstep; try discriminate.
    + injection Hstep as <-. simpl in *.
      destruct Halone as [Hpre Hpost]; [by eexists|].
      rewrite Hpre, Hpost in *. simpl in *. destruct Hsh as (Hb & Hcl & Hs).
      by apply sends_then_close_shape.
    + destruct (can_send (readers_chan o)); [|done]. injection Hstep as <-.
      simpl in *. destruct Halone as [Hpre Hpost]; [by eexists|].
      rewrite Hpre, Hpost in *. simpl in *. destruct Hsh as [Hs Hcl].
      apply sends_then_close_shape; [done|].
      simpl. destruct (closed (readers_chan o)); [|done]. by specialize (Hcl eq_refl).
    + injection Hstep as <-. simpl in *.
      destruct Halone as [Hpre Hpost]; [by eexists|].
      rewrite Hpre, Hpost in *. simpl in *. destruct Hsh as [Hs Hcl].
      rewrite app_nil_r in Hs. rewrite Hs. done.
    + destruct (can_send (result_chan o j)); [|done]. by injection Hstep as <-.
    + by injection Hstep as <-.
    + by injection Hstep as <-.
    + destruct (can_send (entry_chan o)); [|done]. by injection Hstep as <-.
    + by injection Hstep as <-.
  - by rewrite HR'.
  - clear HE' HB' HC'. unfold R in *.
    rewrite (concat_lookup _ _ _ Hk) in Hfr, HR, HR'.
    rewrite (concat_insert _ _ _ rest Hk) in *.
    set (pre := concat (take k ts)) in *. set (post := concat (drop (S k) ts)) in *.
    clearbody pre post. rewrite !pick_app in *.
    intros j' Hj'.
    destruct e; simpl in Hstep; try discriminate.
    + injection Hstep as <-. apply Hfr. by simpl.
    + destruct (can_send (readers_chan o)); [|done]. injection Hstep as <-.
      simpl in *. rewrite result_chan_upd.
      destruct (decide (j = j')) as [<-|Hne];
        [|apply Hfr; rewrite !elem_of_app in Hj';
          rewrite elem_of_app, elem_of_cons, elem_of_app; tauto].
      exfalso. apply NoDup_app in HR as (_ & _ & HR).
      apply NoDup_app in HR as (_ & Hd & HR).
      apply NoDup_cons in HR as [Hnin HR].
      apply elem_of_app in Hj' as [Hj'|Hj'].
      * apply (Hd j); [done|]. by left.
      * done.
    + injection Hstep as <-. apply Hfr. by simpl.
    + destruct (can_send (result_chan o j)) eqn:Hcs; [|done]. injection Hstep as <-.
      simpl in *. rewrite result_chan_upd.
      destruct (decide (j = j')) as [<-|Hne]; [|by apply Hfr].
      exfalso. destruct (Hfr j Hj') as [Hcap Hbuf].
      unfold can_send in Hcs. rewrite Hcap, Hbuf in Hcs. done.
    + injection Hstep as <-. simpl in *. rewrite result_chan_upd.
      destruct (decide (j = j')) as [<-|Hne]; [|by apply Hfr].
      simpl. by apply Hfr.
    + injection Hstep as <-. apply Hfr. by simpl.
    + destruct (can_send (entry_chan o)); [|done]. injection Hstep as <-.
      apply Hfr. by simpl.
    + injection Hstep as <-. apply Hfr. by simpl.
Qed.
Lemma same_obs_refl o ts : same_obs o ts o ts.
Proof. by repeat split. Qed.

Lemma copies_ext o ts o' ts' js :
  (∀ j, B o' ts' j = B o ts j) → copies o' ts' js = copies o ts js.
Proof.
  intros H. unfold copies. induction js as [|j js IH]; [done|].
  simpl. by rewrite H, IH.
Qed.

Lemma same_obs_events o ts o' ts' :
  same_obs o ts o' ts' →
  entry_events o' ts' = entry_events o ts ∧
  (∀ js, copies o' ts' js = copies o ts js) ∧
  (∀ w, closing o' ts' w = closing o ts w).
Proof.
  intros (HE & HR & HB & HC).
  assert (∀ js, copies o' ts' js = copies o ts js) as Hcp
    by (intros; by apply copies_ext).
  assert (∀ w, closing o' ts' w = closing o ts w) as Hcl
    by (intros; unfold closing; by rewrite HC).
  split; [|done]. unfold entry_events. rewrite HE, HR.
  destruct (E o ts) as [|op l]; [done|]. by rewrite Hcp, Hcl.
Qed.

(** The writer takes the entry from an entry's channel. *)
Lemma pop_entry o ts op l :
  ok o ts → buf (entry_chan o) = op :: l →
  let o' := upd_entry_chan o (pop (entry_chan o)) in
  ok o' ts ∧ E o ts = [op] ∧ R o' ts = R o ts ∧
  (∀ j, B o' ts j = B o ts j) ∧ closes o' ts = closes o ts.
Proof.
  intros [HE HB Hown Hsh HR Hfr] Hb o'.
  assert (E o ts = [op] ∧ E o' ts = []) as [HE1 HE2].
  { unfold E in *. subst o'. simpl. rewrite Hb in *. simpl in *.
    destruct l; simpl in *; [|lia].
    destruct (pick entry_of (concat ts)); simpl in *; [done|lia]. }
  repeat split; try done; try (subst o'; simpl; done).
  - rewrite HE2. simpl. lia.
  - by apply Hfr.
  - by apply Hfr.
Qed.

(** The writer takes the next reader channel from [futureReaders]. *)
Lemma pop_readers o ts j l :
  ok o ts → buf (readers_chan o) = j :: l →
  let o' := upd_readers_chan o (pop (readers_chan o)) in
  ok o' ts ∧ R o ts = j :: R o' ts ∧ (j ∉ R o' ts) ∧ E o' ts = E o ts ∧
  (∀ j, B o' ts j = B o ts j) ∧ closes o' ts = closes o ts.
Proof.
  intros [HE HB Hown Hsh HR Hfr] Hb o'.
  assert (R o ts = j :: R o' ts) as HR1.
  { unfold R. subst o'. simpl. by rewrite Hb. }
  rewrite HR1 in HR. apply NoDup_cons in HR as [Hnin HR].
  repeat split; try done; try (subst o'; simpl; done).
  - subst o'. simpl. unfold shape in *. rewrite Hb in Hsh.
    destruct (racts (concat ts)) as [|[] r]; try done.
    by destruct Hsh.
  - by apply Hfr.
  - by apply Hfr.
Qed.

(** The writer takes the buffer from a reader channel. *)
Lemma pop_result o ts j b l :
  ok o ts → buf (result_chan o j) = b :: l →
  let o' := upd_result_chan o j (pop (result_chan o j)) in
  ok o' ts ∧ B o ts j = [b] ∧ B o' ts j = [] ∧
  (∀ j', j' ≠ j → B o' ts j' = B o ts j') ∧
  E o' ts = E o ts ∧ R o' ts = R o ts ∧ closes o' ts = closes o ts.
Proof.
  intros [HE HB Hown Hsh HR Hfr] Hb o'.
  assert (B o ts j = [b] ∧ B o' ts j = []) as [HB1 HB2].
  { specialize (HB j). unfold B in *. subst o'. rewrite result_chan_upd.
    rewrite decide_True by done. simpl. rewrite Hb in *. simpl in *.
    destruct l; simpl in *; [|lia].
    destruct (pick (result_of j) (concat ts)); simpl in *; [done|lia]. }
  assert (∀ j', j' ≠ j → B o' ts j' = B o ts j') as HB3.
  { intros j' Hne. unfold B. subst o'. rewrite result_chan_upd.
    by rewrite decide_False. }
  repeat split; try done; try (subst o'; simpl; done).
  - intros j'. destruct (decide (j' = j)) as [->|Hne].
    + rewrite HB2. simpl. lia.
    + rewrite HB3 by done. apply HB.
  - destruct (decide (j = j0)) as [<-|Hne].
    + destruct (Hfr j) as [_ Hbuf]; [done|]. by rewrite Hb in Hbuf.
    + subst o'. rewrite result_chan_upd, decide_False by done. by apply Hfr.
  - destruct (decide (j = j0)) as [<-|Hne].
    + destruct (Hfr j) as [_ Hbuf]; [done|]. by rewrite Hb in Hbuf.
    + subst o'. rewrite result_chan_upd, decide_False by done. by apply Hfr.
Qed.
(** ** The order of the archive: the whole state *)

Lemma ok_workers o w ts : ok o ts → ok (upd_workers o w) ts.
Proof. intros [? ? ? ? ? ?]. by split. Qed.

Lemma chan_step_workers o e o' : chan_step o e = Some o' → workers o' = workers o.
Proof.
  destruct e; simpl; intros H; repeat case_match; by simplify_eq.
Qed.

(** A step that leaves the writer, [z.writeOps] and what every entry holds
    or will be sent as they are. *)
Lemma quiet_step s s' :
  wf s →
  currentReader s' = currentReader s →
  currentReaders s' = currentReaders s →
  currentWriteOpChan s' = currentWriteOpChan s →
  currentWriter s' = currentWriter s →
  done s' = done s →
  buf (writeOps s') = buf (writeOps s) ∧
  (closed (writeOps s) = true → closed (writeOps s') = true) ∧
  (closed (writeOps s') = true → segs (prod s') = []) →
  length (ops s') = length (ops s) →
  segs (prod s') = segs (prod s) →
  close_last (prod s') →
  (∀ n o, ops s !! n = Some o →
     ∃ o', ops s' !! n = Some o' ∧ ok o' (ths s' n o') ∧
           same_obs o (ths s n o) o' (ths s' n o')) →
  wf s' ∧ future s' = future s.
Proof.
  intros [Hops Hsegs Hq Hcl Hlast Hrd Hdone] H1 H2 H3 H4 H5 (H6 & H6' & H6'')
    H7 H8 H9 H10.
  assert (∀ n, ops s !! n = None → ops s' !! n = None) as Hnone.
  { intros n Hn. apply lookup_ge_None in Hn. apply lookup_ge_None. lia. }
  assert (∀ n, events_of s' n = events_of s n) as Hev.
  { intros n. unfold events_of. destruct (ops s !! n) as [o|] eqn:Hn.
    - destruct (H10 _ _ Hn) as (o' & -> & _ & Hobs).
      by apply same_obs_events in Hobs as [-> _].
    - by rewrite (Hnone _ Hn). }
  split.
  - split.
    + intros n o' Hn. destruct (ops s !! n) as [o|] eqn:Hn0.
      * destruct (H10 _ _ Hn0) as (o'' & Hn' & Hok & _). congruence.
      * rewrite (Hnone _ Hn0) in Hn. done.
    + by rewrite H8.
    + rewrite H6, H7, H3, H2. done.
    + done.
    + done.
    + rewrite H1, H2. intros n j Hr. destruct (Hrd n j Hr) as [Hr' Hnin].
      split; [done|]. intros o' Hn. destruct (ops s !! n) as [o|] eqn:Hn0.
      * destruct (H10 _ _ Hn0) as (o'' & Hn' & _ & (_ & HR & _)).
        assert (o'' = o') as -> by congruence. rewrite HR. by apply Hnin.
      * rewrite (Hnone _ Hn0) in Hn. done.
    + rewrite H5, H1, H2, H3, H6. intros Hd.
      destruct (Hdone Hd) as (? & ? & ? & ? & ?). auto 10.
  - unfold future, archive. rewrite H1, H2, H3, H4, H6, H8.
    f_equal; [|f_equal].
    + destruct (currentReader s) as [[n j]|]; [|done].
      destruct (ops s !! n) as [o|] eqn:Hn.
      * destruct (H10 _ _ Hn) as (o' & -> & _ & (_ & _ & HB & _)). by rewrite HB.
      * by rewrite (Hnone _ Hn).
    + destruct (currentReaders s) as [n|].
      * destruct (ops s !! n) as [o|] eqn:Hn.
        -- destruct (H10 _ _ Hn) as (o' & -> & _ & Hobs).
           pose proof Hobs as (_ & -> & _).
           apply same_obs_events in Hobs as (_ & -> & ->). done.
        -- by rewrite (Hnone _ Hn).
      * destruct (currentWriteOpChan s); [apply Hev|done].
    + f_equal. generalize (buf (writeOps s)). intros l.
      induction l as [|n l IH]; [done|].
      simpl. by rewrite Hev, IH.
Qed.
Lemma wf_upd_cpu s c : wf s → wf (upd_cpu s c).
Proof. intros [? ? ? ? ? ? ?]. by split. Qed.

Lemma wf_upd_mem s m : wf s → wf (upd_mem s m).
Proof. intros [? ? ? ? ? ? ?]. by split. Qed.

Lemma op_thread_step o ts (k : nat) e rest o' w :
  ok o ts → ts !! k = Some (e :: rest) →
  chan_step (upd_workers o w) e = Some o' →
  ok o' (<[k := rest]> ts) ∧ same_obs o ts o' (<[k := rest]> ts).
Proof.
  intros Hok Hk Hst. apply (ok_workers _ w) in Hok.
  split; [by eapply thread_step_ok|].
  by destruct (thread_step_obs _ _ _ _ _ _ Hok Hk Hst) as (? & ? & ? & ?).
Qed.

Lemma seg_of_eq s s' m :
  length (ops s') = length (ops s) → cur_seg (prod s') = cur_seg (prod s) →
  seg_of s' m = seg_of s m.
Proof. intros H1 H2. unfold seg_of. by rewrite H1, H2. Qed.

(** A step that changes one entry and, at most, drops the producer's next
    step. *)
Lemma replace_op s s' n o o' :
  wf s → ops s !! n = Some o → ops s' = <[n := o']> (ops s) →
  currentReader s' = currentReader s →
  currentReaders s' = currentReaders s →
  currentWriteOpChan s' = currentWriteOpChan s →
  currentWriter s' = currentWriter s →
  done s' = done s →
  writeOps s' = writeOps s →
  segs (prod s') = segs (prod s) →
  close_last (prod s') →
  (∀ m, m ≠ n → seg_of s' m = seg_of s m) →
  ok o' (ths s' n o') →
  same_obs o (ths s n o) o' (ths s' n o') →
  wf s' ∧ future s' = future s.
Proof.
  intros Hwf Hn Hops H1 H2 H3 H4 H5 H6 H7 H8 H9 H10 H11.
  apply quiet_step; try done.
  - rewrite H6. split; [done|]. split; [done|]. rewrite H7. apply Hwf.
  - by rewrite Hops, length_insert.
  - intros m om Hm. destruct (decide (m = n)) as [->|Hne].
    + exists o'. rewrite Hops, list_lookup_insert_eq by (by eapply lookup_lt_Some).
      assert (om = o) as -> by congruence. done.
    + exists om. rewrite Hops, list_lookup_insert_ne by done.
      unfold ths. rewrite H9 by done. split; [done|]. split.
      * by apply Hwf.
      * apply same_obs_refl.
Qed.

Lemma worker_step_inv s n k s' :
  wf s → worker_step s n k = Some s' →
  wf s' ∧ future s' = future s ∧ zipw s' = zipw s ∧ returned s' = returned s.
Proof.
  intros Hwf. unfold worker_step.
  destruct (ops s !! n) as [o|] eqn:Hn; [|done].
  destruct (workers o !! k) as [[|e rest]|] eqn:Hk; [done| |done].
  destruct (chan_step _ e) as [o'|] eqn:Hst; [|done].
  intros Hs'.
  assert (wf (upd_ops s (<[n:=o']> (ops s))) ∧
          future (upd_ops s (<[n:=o']> (ops s))) = future s) as [Hwf' Hfut].
  { assert (workers o' = <[k:=rest]> (workers o)) as Hw
      by (by rewrite (chan_step_workers _ _ _ Hst)).
    assert (ths (upd_ops s (<[n:=o']> (ops s))) n o' = <[k:=rest]> (ths s n o)) as Hths.
    { unfold ths, threads. rewrite Hw.
      rewrite insert_app_l by (by eapply lookup_lt_Some).
      f_equal. unfold seg_of. simpl. by rewrite length_insert. }
    destruct (op_thread_step o (ths s n o) k e rest o'
                (<[k:=rest]> (workers o))
                (wf_ops _ Hwf _ _ Hn)) as [Hok Hobs]; [|done|].
    { unfold ths, threads. by apply lookup_app_l_Some. }
    eapply (replace_op s _ n o o'); try done.
    - apply Hwf.
    - intros m _. unfold seg_of. simpl. by rewrite length_insert.
    - by rewrite Hths.
    - by rewrite Hths. }
  destruct e; injection Hs' as <-; try done.
  split; [by apply wf_upd_cpu|done].
Qed.
Lemma wf_current s o : ops s !! current s = Some o → S (current s) = length (ops s).
Proof.
  intros H. apply lookup_lt_Some in H. unfold current in *. lia.
Qed.

(** The producer's step on the entry it sent last. *)
Lemma on_current_inv s e rest f s' :
  wf s → prod s = e :: rest →
  (∀ init, e ≠ PSendOp init) → e ≠ PCloseWriteOps →
  on_current (upd_prod s rest) f = Some s' →
  (∀ o o', ok o (threads o (cur_seg (e :: rest))) → f o = Some o' →
     ok o' (threads o' (cur_seg rest)) ∧
     same_obs o (threads o (cur_seg (e :: rest))) o' (threads o' (cur_seg rest))) →
  wf s' ∧ future s' = future s ∧ zipw s' = zipw s ∧ returned s' = returned s.
Proof.
  intros Hwf Hp Hne1 Hne2. unfold on_current.
  change (current (upd_prod s rest)) with (current s).
  change (ops (upd_prod s rest)) with (ops s).
  destruct (ops s !! current s) as [o|] eqn:Hn; [|done].
  destruct (f o) as [o'|] eqn:Hf; [|done]. intros [= <-] Hstep.
  pose proof (wf_current _ _ Hn) as Hcur.
  destruct (Hstep o o') as [Hok Hobs]; [|done|].
  { pose proof (wf_ops _ Hwf _ _ Hn) as Hok. unfold ths, seg_of in Hok.
    by rewrite decide_True, Hp in Hok. }
  assert (segs (e :: rest) = segs rest ∧ (close_last (e :: rest) → close_last rest))
    as [Hsegs Hcl].
  { destruct e as [init| | | | | | | |]; try done. by destruct (Hne1 init). }
  match goal with
  | |- wf ?X ∧ _ => enough (wf X ∧ future X = future s) as [? ?] by done
  end.
  eapply (replace_op s _ (current s) o o'); try done.
  - by rewrite Hp.
  - apply Hcl. rewrite <- Hp. apply Hwf.
  - intros m Hm. unfold seg_of. cbn [ops upd_ops upd_prod].
    rewrite length_insert. rewrite !decide_False by lia. done.
  - unfold ths, seg_of. cbn [ops prod upd_ops upd_prod].
    rewrite length_insert, decide_True by done. done.
  - unfold ths, seg_of. cbn [ops prod upd_ops upd_prod].
    rewrite length_insert, !decide_True by done. by rewrite Hp.
Qed.

Lemma segs_nil_close_last p : segs p = [] → close_last p.
Proof.
  induction p as [|e p IH]; [done|]. destruct e; simpl; try done.
Qed.

(** The producer's step on a limiter, or its deferred close. *)
Lemma prod_drop_inv s e rest s' :
  wf s → prod s = e :: rest →
  gos [e] = [] → chan_effs [e] = [] → (∀ init, e ≠ PSendOp init) →
  prod s' = rest → ops s' = ops s →
  currentReader s' = currentReader s →
  currentReaders s' = currentReaders s →
  currentWriteOpChan s' = currentWriteOpChan s →
  currentWriter s' = currentWriter s →
  done s' = done s →
  buf (writeOps s') = buf (writeOps s) →
  (closed (writeOps s) = true → closed (writeOps s') = true) →
  (closed (writeOps s') = true → closed (writeOps s) = true ∨ e = PCloseWriteOps) →
  wf s' ∧ future s' = future s.
Proof.
  intros Hwf Hp Hg Hc Hne Hp' Hops H1 H2 H3 H4 H5 H6 H7 H8.
  assert (segs (e :: rest) = segs rest ∧ cur_seg (e :: rest) = e :: cur_seg rest)
    as [Hsegs Hcur].
  { destruct e as [init| | | | | | | |]; try done. by destruct (Hne init). }
  assert (∀ o, threads o (e :: cur_seg rest) = threads o (cur_seg rest)) as Hth.
  { intros o. unfold threads. change (e :: cur_seg rest) with ([e] ++ cur_seg rest).
    unfold gos, chan_effs in *. by rewrite !pick_app, Hg, Hc. }
  pose proof (wf_close_last _ Hwf) as Hlast. rewrite Hp in Hlast.
  apply quiet_step; try done.
  - split; [done|]. split; [done|]. rewrite Hp'. intros Hcl.
    destruct (H8 Hcl) as [Hcl'| ->].
    + rewrite <- Hsegs, <- Hp. by apply Hwf.
    + done.
  - by rewrite Hops.
  - by rewrite Hp', Hp.
  - rewrite Hp'. destruct e as [init| | | | | | | |]; try done.
    by apply segs_nil_close_last.
  - intros n o Hn. exists o. rewrite Hops.
    assert (ths s' n o = ths s n o) as ->.
    { unfold ths, seg_of. rewrite Hops, Hp, Hp', Hcur.
      destruct (decide (S n = length (ops s))); [|done]. by rewrite Hth. }
    split; [done|]. split; [by apply Hwf|apply same_obs_refl].
Qed.

Lemma prod_chan_step o e' seg o' :
  ok o (workers o ++ gos seg ++ [e' :: chan_effs seg]) →
  chan_step o e' = Some o' →
  ok o' (threads o' seg) ∧
  same_obs o (workers o ++ gos seg ++ [e' :: chan_effs seg]) o' (threads o' seg).
Proof.
  intros Hok Hst.
  set (ts := workers o ++ gos seg ++ [e' :: chan_effs seg]) in *.
  set (k := length (workers o ++ gos seg)).
  assert (ts !! k = Some (e' :: chan_effs seg)) as Hk.
  { subst ts k. rewrite app_assoc. by apply list_lookup_middle. }
  assert (threads o' seg = <[k := chan_effs seg]> ts) as ->.
  { subst ts k. unfold threads. rewrite (chan_step_workers _ _ _ Hst).
    rewrite !(app_assoc (workers o)).
    rewrite insert_app_r_alt by lia. by rewrite Nat.sub_diag. }
  split; [by eapply thread_step_ok|].
  by destruct (thread_step_obs _ _ _ _ _ _ Hok Hk Hst) as (? & ? & ? & ?).
Qed.

Lemma flat_map_ext_elem {A B} (f g : A → list B) l :
  (∀ x, x ∈ l → f x = g x) → flat_map f l = flat_map g l.
Proof.
  induction l as [|x l IH]; intros H; [done|]. simpl.
  rewrite (H x) by (by left). rewrite IH; [done|].
  intros y Hy. apply H. by right.
Qed.

(** The producer sends a new channel to [z.writeOps]. *)
Lemma send_op_inv s init rest :
  wf s → prod s = PSendOp init :: rest →
  let s' := upd_writeOps (upd_ops (upd_prod s rest) (ops s ++ [init]))
              (send (writeOps s) (length (ops s))) in
  wf s' ∧ future s' = future s.
Proof.
  intros Hwf Hp s'.
  destruct (wf_queue _ Hwf) as (a & Hq & Ha & Hw1 & Hw2).
  assert (closed (writeOps s) = false) as Hopen.
  { destruct (closed (writeOps s)) eqn:Hc; [|done].
    pose proof (wf_closed _ Hwf Hc) as Hs. by rewrite Hp in Hs. }
  assert (∀ n o, ops s !! n = Some o →
            ops s' !! n = Some o ∧ ths s' n o = ths s n o) as Hold.
  { intros n o Hn. pose proof (lookup_lt_Some _ _ _ Hn) as Hlt. split.
    - subst s'. simpl. by apply lookup_app_l_Some.
    - subst s'. unfold ths, seg_of. simpl. rewrite length_app. simpl.
      rewrite decide_False by lia. rewrite Hp. simpl.
      by destruct (decide (S n = length (ops s))). }
  assert (ops s' !! length (ops s) = Some init ∧
          ths s' (length (ops s)) init = threads init (cur_seg rest)) as [Hnew Hnewt].
  { subst s'. split.
    - simpl. by apply list_lookup_middle.
    - unfold ths, seg_of. simpl. rewrite length_app. simpl.
      rewrite decide_True by lia. done. }
  assert (∀ n, (n < length (ops s))%nat → events_of s' n = events_of s n) as Hev.
  { intros n Hlt. unfold events_of.
    destruct (lookup_lt_is_Some_2 (ops s) n Hlt) as [o Hn].
    destruct (Hold _ _ Hn) as [-> ->]. by rewrite Hn. }
  split.
  - split.
    + intros n o Hn. destruct (decide (n < length (ops s))%nat) as [Hlt|Hge].
      * destruct (lookup_lt_is_Some_2 (ops s) n Hlt) as [o0 Hn0].
        destruct (Hold _ _ Hn0) as [Hn' Ht]. assert (o = o0) as -> by congruence.
        rewrite Ht. by apply Hwf.
      * assert (n = length (ops s)) as ->.
        { apply lookup_lt_Some in Hn. subst s'. simpl in Hn.
          rewrite length_app in Hn. simpl in Hn. lia. }
        assert (o = init) as -> by congruence. rewrite Hnewt.
        apply (wf_segs _ Hwf (init, cur_seg rest)). rewrite Hp. simpl. by left.
    + intros x Hx. apply (wf_segs _ Hwf). rewrite Hp. simpl. by right.
    + exists a. subst s'. simpl. rewrite length_app. simpl.
      split; [|split; [lia|done]]. rewrite Hq.
      replace (length (ops s) + 1 - a)%nat with (S (length (ops s) - a)) by lia.
      rewrite seq_S. do 2 f_equal. lia.
    + subst s'. simpl. by rewrite Hopen.
    + pose proof (wf_close_last _ Hwf) as H. by rewrite Hp in H.
    + intros n j Hr. destruct (wf_reader _ Hwf n j Hr) as [Hr' Hnin].
      split; [done|]. intros o Hn.
      assert (n < length (ops s))%nat as Hlt by (destruct (Hw2 _ Hr'); lia).
      destruct (lookup_lt_is_Some_2 (ops s) n Hlt) as [o0 Hn0].
      destruct (Hold _ _ Hn0) as [Hn' Ht]. assert (o = o0) as -> by congruence.
      rewrite Ht. by apply Hnin.
    + intros Hd. destruct (wf_done _ Hwf Hd) as (_ & _ & _ & _ & Hc). congruence.
  - unfold future.
    change (currentReader s') with (currentReader s).
    change (currentReaders s') with (currentReaders s).
    change (currentWriteOpChan s') with (currentWriteOpChan s).
    change (currentWriter s') with (currentWriter s).
    change (buf (writeOps s')) with (buf (writeOps s) ++ [length (ops s)]).
    change (prod s') with rest. rewrite Hp.
    f_equal; [|f_equal].
    + destruct (currentReader s) as [[n j]|] eqn:Hr; [|done].
      destruct (wf_reader _ Hwf n j Hr) as [Hr' _].
      assert (n < length (ops s))%nat as Hlt by (destruct (Hw2 _ Hr'); lia).
      destruct (lookup_lt_is_Some_2 (ops s) n Hlt) as [o Hn].
      destruct (Hold _ _ Hn) as [-> ->]. by rewrite Hn.
    + destruct (currentReaders s) as [n|] eqn:Hr.
      * assert (n < length (ops s))%nat as Hlt by (destruct (Hw2 _ eq_refl); lia).
        destruct (lookup_lt_is_Some_2 (ops s) n Hlt) as [o Hn].
        destruct (Hold _ _ Hn) as [-> ->]. by rewrite Hn.
      * destruct (currentWriteOpChan s) as [n|] eqn:Hw; [|done].
        apply Hev. specialize (Hw1 _ eq_refl). lia.
    + rewrite flat_map_app. simpl. rewrite app_nil_r, <- app_assoc. f_equal.
      * rewrite Hq. apply flat_map_ext_elem. intros n Hn. apply Hev.
        apply elem_of_seq in Hn. lia.
      * unfold archive. simpl. f_equal. unfold events_of.
        by rewrite Hnew, Hnewt.
Qed.
Lemma producer_step_inv s s' :
  wf s → producer_step s = Some s' →
  wf s' ∧ future s' = future s ∧ zipw s' = zipw s ∧ returned s' = returned s.
Proof.
  intros Hwf. unfold producer_step.
  destruct (prod s) as [|e rest] eqn:Hp; [done|].
  destruct e as [init| |n|n|j| |w|e|].
  - destruct (can_send (writeOps s)); [|done]. intros [= <-].
    destruct (send_op_inv s init rest Hwf Hp) as [? ?]. done.
  - destruct (cpu_admits _); [|done]. intros [= <-].
    enough (wf (upd_prod s rest) ∧ future (upd_prod s rest) = future s)
      as [? ?] by (split; [by apply wf_upd_cpu|done]).
    eapply prod_drop_inv; try done. by left.
  - destruct (mem_admits _ _); [|done]. intros [= <-].
    enough (wf (upd_prod s rest) ∧ future (upd_prod s rest) = future s)
      as [? ?] by (split; [by apply wf_upd_mem|done]).
    eapply prod_drop_inv; try done. by left.
  - intros H. eapply on_current_inv in H; try done.
    intros o o' Hok Hst.
    exact (prod_chan_step o (WMakeReaders n) (cur_seg rest) o' Hok Hst).
  - intros H. eapply on_current_inv in H; try done.
    intros o o' Hok Hst.
    exact (prod_chan_step o (WSendReaders j) (cur_seg rest) o' Hok Hst).
  - intros H. eapply on_current_inv in H; try done.
    intros o o' Hok Hst.
    exact (prod_chan_step o WCloseReaders (cur_seg rest) o' Hok Hst).
  - intros H. eapply on_current_inv in H; try done.
    intros o o' Hok [= <-].
    assert (threads (upd_workers o (workers o ++ [w])) (cur_seg rest)
            = threads o (cur_seg (PGo w :: rest))) as ->.
    { unfold threads. simpl. by rewrite <- app_assoc. }
    split; [by apply ok_workers|]. by repeat split.
  - done.
  - intros [= <-].
    enough (wf (upd_writeOps (upd_prod s rest) (close (writeOps s))) ∧
            future (upd_writeOps (upd_prod s rest) (close (writeOps s))) = future s)
      as [? ?] by done.
    eapply prod_drop_inv; try done. by right.
Qed.
Lemma copies_ext_in o ts o' ts' js :
  (∀ j, j ∈ js → B o' ts' j = B o ts j) → copies o' ts' js = copies o ts js.
Proof.
  intros H. unfold copies. apply flat_map_ext_elem. intros j Hj. by rewrite H.
Qed.

Lemma closing_ext o ts o' ts' w :
  closes o' ts' = closes o ts → closing o' ts' w = closing o ts w.
Proof. intros H. unfold closing. by rewrite H. Qed.

(** The writer changes the channels of the entry number [n]. *)
Lemma writer_upd s s' n o o' :
  wf s → ops s !! n = Some o → ops s' = <[n := o']> (ops s) →
  prod s' = prod s → workers o' = workers o →
  (∀ m, seg_of s' m = seg_of s m) ∧
  ths s' n o' = ths s n o ∧
  (∀ m, m ≠ n → events_of s' m = events_of s m) ∧
  (∀ m om, ops s' !! m = Some om → m ≠ n → ok om (ths s' m om)) ∧
  ops s' !! n = Some o'.
Proof.
  intros Hwf Hn Hops Hp Hw.
  assert (∀ m, seg_of s' m = seg_of s m) as Hseg.
  { intros m. unfold seg_of. by rewrite Hops, length_insert, Hp. }
  split; [done|]. split; [unfold ths, threads; by rewrite Hseg, Hw|].
  split; [|split].
  - intros m Hm. unfold events_of. rewrite Hops, list_lookup_insert_ne by done.
    destruct (ops s !! m); [|done]. unfold ths. by rewrite Hseg.
  - intros m om Hm Hne. rewrite Hops, list_lookup_insert_ne in Hm by done.
    unfold ths. rewrite Hseg. by apply Hwf.
  - rewrite Hops. apply list_lookup_insert_eq. by eapply lookup_lt_Some.
Qed.

Lemma queue_events s s' n :
  wf s → buf (writeOps s') = buf (writeOps s) →
  (∀ m, m ≠ n → events_of s' m = events_of s m) →
  (currentReaders s = Some n ∨ currentWriteOpChan s = Some n) →
  flat_map (events_of s') (buf (writeOps s')) = flat_map (events_of s) (buf (writeOps s)).
Proof.
  intros Hwf Hb Hev Hn. rewrite Hb.
  destruct (wf_queue _ Hwf) as (a & Hq & Ha & Hw1 & Hw2).
  apply flat_map_ext_elem. intros m Hm. apply Hev.
  rewrite Hq in Hm. apply elem_of_seq in Hm.
  destruct Hn as [Hn|Hn]; [destruct (Hw2 _ Hn)|specialize (Hw1 _ Hn)]; lia.
Qed.

(** [case reader := <-currentReader] when the copy succeeds. *)
Lemma writer_copy s n j o reader l :
  wf s → currentReader s = Some (n, j) → ops s !! n = Some o →
  buf (result_chan o j) = reader :: l →
  let o' := upd_result_chan o j (pop (result_chan o j)) in
  let s1 := upd_ops s (<[n := o']> (ops s)) in
  let s' := upd_writer s1 (currentWriteOpChan s1) (currentWriter s1)
              (currentReaders s1) None false (zipw s1 ++ [Copy reader]) in
  wf s' ∧ zipw s' ++ future s' = zipw s ++ future s.
Proof.
  intros Hwf Hr Hn Hb o' s1 s'.
  destruct (wf_reader _ Hwf _ _ Hr) as [Hrs Hnin]. specialize (Hnin _ Hn).
  destruct (pop_result o (ths s n o) j reader l (wf_ops _ Hwf _ _ Hn) Hb)
    as (Hok & HB1 & HB2 & HB3 & HE & HR & HC). fold o' in Hok, HB2, HB3, HE, HR, HC.
  destruct (writer_upd s s' n o o' Hwf Hn eq_refl eq_refl eq_refl)
    as (Hseg & Hths & Hev & Hoks & Hn').
  destruct (wf_queue _ Hwf) as (a & Hq & Ha & Hw1 & Hw2).
  split.
  - split.
    + intros m om Hm. destruct (decide (m = n)) as [->|Hne]; [|by apply Hoks].
      assert (om = o') as -> by congruence. by rewrite Hths.
    + apply Hwf.
    + exists a. subst s' s1. simpl. by rewrite length_insert.
    + apply Hwf.
    + apply Hwf.
    + done.
    + done.
  - unfold future. rewrite Hr, Hn.
    change (currentReader s') with (@None (nat * nat)).
    change (currentReaders s') with (currentReaders s).
    change (currentWriter s') with (currentWriter s).
    change (prod s') with (prod s). rewrite Hrs, Hn, Hn', Hths.
    rewrite (queue_events s s' n Hwf eq_refl Hev (or_introl Hrs)).
    change (zipw s') with (zipw s ++ [Copy reader]).
    rewrite HB1, HR, <- !app_assoc. simpl.
    rewrite (copies_ext_in o (ths s n o) o' (ths s n o))
      by (intros j' Hj'; apply HB3; by intros ->).
    by rewrite (closing_ext o (ths s n o) o' (ths s n o)).
Qed.
(** [case futureReader, ok := <-readersChan] with a reader channel. *)
Lemma writer_next_reader s n o j l :
  wf s → currentReader s = None → currentReaders s = Some n →
  ops s !! n = Some o → buf (readers_chan o) = j :: l →
  let o' := upd_readers_chan o (pop (readers_chan o)) in
  let s1 := upd_ops s (<[n := o']> (ops s)) in
  let s' := upd_writer s1 (currentWriteOpChan s1) (currentWriter s1)
              (currentReaders s1) (Some (n, j)) false (zipw s1) in
  wf s' ∧ zipw s' ++ future s' = zipw s ++ future s.
Proof.
  intros Hwf Hr Hrs Hn Hb o' s1 s'.
  destruct (pop_readers o (ths s n o) j l (wf_ops _ Hwf _ _ Hn) Hb)
    as (Hok & HR1 & Hnin & HE & HB & HC). fold o' in Hok, HR1, Hnin, HE, HB, HC.
  destruct (writer_upd s s' n o o' Hwf Hn eq_refl eq_refl eq_refl)
    as (Hseg & Hths & Hev & Hoks & Hn').
  destruct (wf_queue _ Hwf) as (a & Hq & Ha & Hw1 & Hw2).
  split.
  - split.
    + intros m om Hm. destruct (decide (m = n)) as [->|Hne]; [|by apply Hoks].
      assert (om = o') as -> by congruence. by rewrite Hths.
    + apply Hwf.
    + exists a. subst s' s1. simpl. by rewrite length_insert.
    + apply Hwf.
    + apply Hwf.
    + intros n0 j0 [= <- <-]. split; [done|]. intros om Hm.
      assert (om = o') as -> by congruence. by rewrite Hths.
    + done.
  - unfold future. rewrite Hr, Hrs, Hn.
    change (currentReader s') with (Some (n, j)).
    change (currentReaders s') with (currentReaders s).
    change (currentWriter s') with (currentWriter s).
    change (prod s') with (prod s). rewrite Hrs, Hn', Hths.
    rewrite (queue_events s s' n Hwf eq_refl Hev (or_introl Hrs)).
    change (zipw s') with (zipw s). f_equal. simpl.
    rewrite HR1. simpl. rewrite HB, <- !app_assoc.
    rewrite (copies_ext o (ths s n o) o' (ths s n o)) by done.
    by rewrite (closing_ext o (ths s n o) o' (ths s n o)).
Qed.

(** [case futureReader, ok := <-readersChan] when the channel is closed. *)
Lemma writer_close s n o k :
  wf s → currentReader s = None → currentReaders s = Some n →
  ops s !! n = Some o → buf (readers_chan o) = [] →
  closed (readers_chan o) = true → currentWriter s = Some k →
  let s' := upd_writer s (currentWriteOpChan s) None None None false
              (zipw s ++ [CloseWriter k]) in
  wf s' ∧ zipw s' ++ future s' = zipw s ++ future s.
Proof.
  intros Hwf Hr Hrs Hn Hb Hc Hk s'.
  destruct (wf_queue _ Hwf) as (a & Hq & Ha & Hw1 & Hw2).
  destruct (Hw2 _ Hrs) as [Hlt Hwo].
  split.
  - split; try apply Hwf; try done.
    exists a. subst s'. simpl. rewrite Hwo. done.
  - unfold future. rewrite Hr, Hrs, Hn, Hk.
    change (currentReader s') with (@None (nat * nat)).
    change (currentReaders s') with (@None nat).
    change (currentWriteOpChan s') with (currentWriteOpChan s). rewrite Hwo.
    change (zipw s') with (zipw s ++ [CloseWriter k]).
    change (flat_map (events_of s') (buf (writeOps s')))
      with (flat_map (events_of s) (buf (writeOps s))).
    change (prod s') with (prod s).
    pose proof (ok_shape _ _ (wf_ops _ Hwf _ _ Hn)) as Hsh.
    assert (racts (concat (ths s n o)) = []) as Hra.
    { unfold shape in Hsh. rewrite Hb, Hc in Hsh.
      destruct (racts (concat (ths s n o))) as [|[] r]; try done;
        try by destruct Hsh as [_ Hsh]; specialize (Hsh eq_refl).
      by destruct Hsh as (_ & ? & _). }
    unfold R, closing, closes. rewrite Hb, Hc, (racts_nil_reader _ Hra).
    simpl. by rewrite <- !app_assoc.
Qed.

(** [case op := <-writeOpChan] when the header is written. *)
Lemma writer_open s n o op l :
  wf s → currentReader s = None → currentReaders s = None →
  currentWriteOpChan s = Some n →
  ops s !! n = Some o → buf (entry_chan o) = op :: l →
  let o' := upd_entry_chan o (pop (entry_chan o)) in
  let s1 := upd_ops s (<[n := o']> (ops s)) in
  let s2 :=
    if futureReaders op
    then upd_writer s1 None (Some (created op).2) (Some n) None false
           (zipw s1 ++ [(created op).1])
    else upd_writer s1 None None None None false
           (zipw s1 ++ [(created op).1; CloseWriter (created op).2]) in
  let s' := upd_mem s2 (mem_Finish (memoryRateLimiter s2) (allocatedSize op)) in
  wf s' ∧ zipw s' ++ future s' = zipw s ++ future s.
Proof.
  intros Hwf Hr Hrs Hwo Hn Hb o' s1 s2 s'.
  destruct (pop_entry o (ths s n o) op l (wf_ops _ Hwf _ _ Hn) Hb)
    as (Hok & HE & HR & HB & HC). fold o' in Hok, HR, HB, HC.
  destruct (writer_upd s s2 n o o' Hwf Hn) as (Hseg & Hths & Hev & Hoks & Hn');
    try (subst s2 s1; by destruct (futureReaders op)).
  destruct (wf_queue _ Hwf) as (a & Hq & Ha & Hw1 & Hw2).
  enough (wf s2 ∧ zipw s2 ++ future s2 = zipw s ++ future s) as [? ?]
    by (split; [by apply wf_upd_mem|done]).
  assert (flat_map (events_of s2) (buf (writeOps s2))
          = flat_map (events_of s) (buf (writeOps s))) as Hqe.
  { apply (queue_events s s2 n Hwf); [|done|by right].
    subst s2 s1; by destruct (futureReaders op). }
  unfold future at 2. rewrite Hr, Hrs, Hwo. unfold events_of at 1.
  rewrite Hn. unfold entry_events. rewrite HE.
  subst s2. destruct (futureReaders op) eqn:Hfr.
  - split.
    + split.
      * intros m om Hm. destruct (decide (m = n)) as [->|Hne]; [|by apply Hoks].
        assert (om = o') as -> by congruence. by rewrite Hths.
      * apply Hwf.
      * exists a. subst s1. simpl. rewrite length_insert.
        split; [done|]. split; [done|]. split; [done|].
        intros m [= <-]. split; [by apply Hw1|done].
      * apply Hwf.
      * apply Hwf.
      * done.
      * done.
    + unfold future. simpl currentReader. simpl currentReaders.
      simpl currentWriter. cbv iota. rewrite Hn', Hths, Hqe.
      simpl zipw. simpl prod. rewrite HR, <- !app_assoc. simpl. do 2 f_equal.
      rewrite (copies_ext o (ths s n o) o' (ths s n o)) by done.
      by rewrite (closing_ext o (ths s n o) o' (ths s n o)), <- !app_assoc.
  - split.
    + split.
      * intros m om Hm. destruct (decide (m = n)) as [->|Hne]; [|by apply Hoks].
        assert (om = o') as -> by congruence. by rewrite Hths.
      * apply Hwf.
      * exists a. subst s1. simpl. by rewrite length_insert.
      * apply Hwf.
      * apply Hwf.
      * done.
      * done.
    + unfold future. simpl currentReader. simpl currentReaders.
      simpl currentWriteOpChan. cbv iota. rewrite Hqe.
      simpl zipw. simpl prod. by rewrite <- !app_assoc.
Qed.
(** [case writeOp, ok := <-writeOpsChan] with a channel. *)
Lemma writer_next_op s n l :
  wf s → currentReader s = None → currentReaders s = None →
  currentWriteOpChan s = None → buf (writeOps s) = n :: l →
  let s' := upd_writer (upd_writeOps s (pop (writeOps s))) (Some n)
              (currentWriter s) None None false (zipw s) in
  wf s' ∧ zipw s' ++ future s' = zipw s ++ future s.
Proof.
  intros Hwf Hr Hrs Hwo Hb s'.
  destruct (wf_queue _ Hwf) as (a & Hq & Ha & Hw1 & Hw2).
  assert (n = a ∧ l = seq (S a) (length (ops s) - S a)) as [-> ->].
  { rewrite Hb in Hq. destruct (length (ops s) - a)%nat as [|k] eqn:Hk; [done|].
    simpl in Hq. injection Hq as -> ->. split; [done|]. f_equal. lia. }
  split.
  - split; try apply Hwf; try done.
    exists (S a). subst s'. simpl. rewrite Hb. simpl.
    split; [done|]. split; [|split].
    + assert (length (ops s) - a ≠ 0)%nat; [|lia]. intros H0.
      rewrite H0 in Hq. rewrite Hb in Hq. done.
    + intros m [= <-]. lia.
    + done.
  - unfold future. rewrite Hr, Hrs, Hwo, Hb.
    change (currentReader s') with (@None (nat * nat)).
    change (currentReaders s') with (@None nat).
    change (currentWriteOpChan s') with (Some a).
    change (zipw s') with (zipw s).
    change (buf (writeOps s')) with (tail (buf (writeOps s))). rewrite Hb.
    change (prod s') with (prod s). simpl.
    change (events_of s') with (events_of s). by rewrite <- !app_assoc.
Qed.

(** [case writeOp, ok := <-writeOpsChan] when [z.writeOps] is closed. *)
Lemma writer_done s :
  wf s → currentReader s = None → currentReaders s = None →
  currentWriteOpChan s = None → buf (writeOps s) = [] →
  closed (writeOps s) = true →
  let s' := upd_writer s None (currentWriter s) None None true (zipw s) in
  wf s' ∧ zipw s' ++ future s' = zipw s ++ future s.
Proof.
  intros Hwf Hr Hrs Hwo Hb Hc s'.
  split.
  - split; try apply Hwf; try done.
    destruct (wf_queue _ Hwf) as (a & Hq & Ha & Hw1 & Hw2).
    by exists a.
  - unfold future. by rewrite Hr, Hrs, Hwo.
Qed.

(** After the loop nothing is left to write. *)
Lemma writer_finish s : wf s → done s = true → future s = [].
Proof.
  intros Hwf Hd. destruct (wf_done _ Hwf Hd) as (Hr & Hrs & Hwo & Hb & Hc).
  unfold future, archive. by rewrite Hr, Hrs, Hwo, Hb, (wf_closed _ Hwf Hc).
Qed.

Lemma writer_step_inv zfault s s' :
  wf s → writer_step zfault s = Some s' →
  (returned s' = returned s ∧ wf s' ∧
   zipw s' ++ future s' = zipw s ++ future s) ∨
  (∃ e, returned s' = Some (Some e) ∧ err s' = Some e ∧ zipw s' = zipw s) ∨
  (returned s' = Some None ∧ err s' = err s ∧
   zipw s' = zipw s ++ [CloseZip] ∧ future s = []).
Proof.
  intros Hwf. unfold writer_step.
  destruct (done s) eqn:Hd.
  { intros [= <-]. right. right. repeat split; try done. by apply writer_finish. }
  destruct (currentReader s) as [[n j]|] eqn:Hr.
  { destruct (ops s !! n) as [o|] eqn:Hn; [|done].
    destruct (buf (result_chan o j)) as [|reader l] eqn:Hb; [done|].
    cbn [zipw upd_ops]. destruct (zfault _) as [e|].
    - intros [= <-]. right. left. by exists e.
    - intros [= <-]. left. split; [done|]. by eapply writer_copy. }
  destruct (currentReaders s) as [n|] eqn:Hrs.
  { destruct (ops s !! n) as [o|] eqn:Hn; [|done].
    destruct (buf (readers_chan o)) as [|j l] eqn:Hb.
    - destruct (closed (readers_chan o)) eqn:Hc; [|done].
      destruct (currentWriter s) as [k|] eqn:Hk; [|done].
      intros [= <-]. left. split; [done|]. by eapply writer_close.
    - intros [= <-]. left. split; [done|]. by eapply writer_next_reader. }
  destruct (currentWriteOpChan s) as [n|] eqn:Hwo.
  { destruct (ops s !! n) as [o|] eqn:Hn; [|done].
    destruct (buf (entry_chan o)) as [|op l] eqn:Hb; [done|].
    cbn [zipw upd_ops].
    change (if Method (fh op) =? zip_Deflate
            then (CreateCompressedHeader (fh op), compressedWriter)
            else (CreateHeaderAndroid
                    (set_CompressedSize64 (fh op) (UncompressedSize64 (fh op))),
                  nopCloser)) with (created op).
    destruct (created op) as [ev k] eqn:Hcr.
    destruct (zfault _) as [e|].
    - intros [= <-]. right. left. by exists e.
    - intros [= <-]. left. split; [by destruct (futureReaders op)|].
      pose proof (writer_open s n o op l Hwf Hr Hrs Hwo Hn Hb) as H.
      rewrite Hcr in H. exact H. }
  destruct (buf (writeOps s)) as [|n l] eqn:Hb.
  - destruct (closed (writeOps s)) eqn:Hc; [|done].
    intros [= <-]. left. split; [done|]. by apply writer_done.
  - intros [= <-]. left. split; [done|]. by eapply writer_next_op.
Qed.
Lemma error_step_inv s who s' :
  error_step s who = Some s' →
  ∃ e, returned s' = Some (Some e) ∧ err s' = Some e ∧ zipw s' = zipw s.
Proof.
  unfold error_step. destruct who as [[n k]|].
  - destruct (ops s !! n) as [o|]; [|done].
    destruct (workers o !! k) as [[|[] rest]|]; try done.
    intros [= <-]. by eexists.
  - destruct (prod s) as [|[] rest]; try done. intros [= <-]. by eexists.
Qed.

Lemma step_writes zfault p s c s' :
  writes p s → step zfault s c = Some s' → writes p s'.
Proof.
  intros (H1 & H2 & H3 & H4). unfold step.
  destruct (returned s) as [r|] eqn:Hret; [done|].
  destruct (H1 eq_refl) as [Hwf Hfut].
  assert (err s = None) as Herr.
  { destruct (err s) as [e|] eqn:He; [|done]. by pose proof (proj2 (H4 e) eq_refl). }
  assert (∀ s', returned s' = None → err s' = None → wf s' →
            zipw s' ++ future s' = zipw s ++ future s → writes p s') as Hgo.
  { intros s0 Hr He Hw Hf. split; [|split; [|split]].
    - intros _. split; [done|]. by rewrite Hf.
    - by rewrite Hr.
    - exists (future s0 ++ [CloseZip]). by rewrite app_assoc, Hf, Hfut.
    - intros e. rewrite Hr, He. done. }
  assert (∀ s' e, returned s' = Some (Some e) → err s' = Some e →
            zipw s' = zipw s → writes p s') as Hfail.
  { intros s0 e Hr He Hz. split; [|split; [|split]].
    - by rewrite Hr.
    - by rewrite Hr.
    - exists (future s ++ [CloseZip]). by rewrite Hz, app_assoc, Hfut.
    - intros e'. rewrite Hr, He. split; congruence. }
  destruct c as [|n k| |who].
  - intros H. pose proof H as H'.
    apply (producer_step_inv _ _ Hwf) in H as (Hw & Hf & Hz & Hr).
    apply Hgo; try congruence.
    unfold producer_step in H'. destruct (prod s) as [|[] rest]; try done;
      repeat case_match; simplify_eq; try done;
      unfold on_current in *; repeat case_match; by simplify_eq.
  - intros H. pose proof H as H'.
    apply (worker_step_inv _ _ _ _ Hwf) in H as (Hw & Hf & Hz & Hr).
    apply Hgo; try congruence.
    unfold worker_step in H'. repeat case_match; by simplify_eq.
  - intros H. pose proof H as H'.
    apply (writer_step_inv _ _ _ Hwf) in H
      as [(Hr & Hw & Hf)|[(e & Hr & He & Hz)|(Hr & He & Hz & Hf)]].
    + apply Hgo; try congruence.
      unfold writer_step in H'. repeat case_match; simplify_eq; try done.
      all: rewrite Hret in Hr; done.
    + by eapply Hfail.
    + split; [|split; [|split]].
      * by rewrite Hr.
      * intros _. rewrite Hz. f_equal. rewrite <- Hfut, Hf. by rewrite app_nil_r.
      * exists []. rewrite app_nil_r, Hz. f_equal.
        rewrite <- Hfut, Hf. by rewrite app_nil_r.
      * intros e. rewrite Hr, He, Herr. done.
  - intros H. apply error_step_inv in H as (e & Hr & He & Hz). by eapply Hfail.
Qed.

Lemma run_writes zfault p sched s :
  writes p s → writes p (run zfault sched s).
Proof.
  revert s. induction sched as [|c sched IH]; intros s Hs; [done|].
  simpl. apply IH. destruct (step zfault s c) as [s'|] eqn:Hst; [|done].
  by eapply step_writes.
Qed.

Lemma start_writes flags p : good p → writes p (start flags p).
Proof.
  intros [Hsegs Hlast]. split; [|split; [|split]]; try done.
  - intros _. split; [|done]. split; try done.
    exists 0%nat. done.
  - by exists (archive p ++ [CloseZip]).
Qed.
(** ** The steps of the producer fit *)

Lemma entries_ok_app t1 t2 : entries_ok t1 → entries_ok t2 → entries_ok (t1 ++ t2).
Proof.
  induction 1 as [|init seg t Hc Hp Hok Ht IH]; intros H2; [done|].
  simpl. rewrite <- app_assoc. constructor; auto.
Qed.

Lemma emits_ret {A} (a : A) : emits_entries (ret a).
Proof.
  intros z t r z' t' [= <- <- <-]. exists []. split; [by rewrite app_nil_r|constructor].
Qed.

Lemma emits_fail {A} e : emits_entries (@fail A e).
Proof.
  intros z t r z' t' [= <- <- <-]. exists []. split; [by rewrite app_nil_r|constructor].
Qed.

Lemma emits_get : emits_entries get.
Proof.
  intros z t r z' t' [= <- <- <-]. exists []. split; [by rewrite app_nil_r|constructor].
Qed.

Lemma emits_put z0 : emits_entries (put z0).
Proof.
  intros z t r z' t' [= <- <- <-]. exists []. split; [by rewrite app_nil_r|constructor].
Qed.

Lemma emits_lift {A} (x : result A) : emits_entries (lift x).
Proof. destruct x; [apply emits_ret|apply emits_fail]. Qed.

Lemma emits_bind {A B} (m : P A) (k : A → P B) :
  emits_entries m → (∀ a, emits_entries (k a)) → emits_entries (bind m k).
Proof.
  intros Hm Hk z t r z' t'. unfold bind.
  destruct (m z t) as [[[a|e] z1] t1] eqn:Em.
  - intros Ek. destruct (Hm _ _ _ _ _ Em) as (n1 & -> & H1).
    destruct (Hk a _ _ _ _ _ Ek) as (n2 & -> & H2).
    exists (n1 ++ n2). split; [by rewrite app_assoc|by apply entries_ok_app].
  - intros [= <- <- <-]. by apply (Hm _ _ _ _ _ Em).
Qed.

Lemma emits_for_each {A} (l : list A) (f : A → P unit) :
  (∀ x, emits_entries (f x)) → emits_entries (for_each l f).
Proof.
  intros Hf. induction l as [|x l IH]; simpl; [apply emits_ret|].
  apply emits_bind; [apply Hf|by intros _].
Qed.

(** An entry handed over complete, with no goroutine. *)
Lemma emits_filled init :
  ok init (threads init []) → emits_entries (emit (PSendOp init)).
Proof.
  intros Hok z t r z' t' [= <- <- <-]. exists [PSendOp init]. split; [done|].
  by apply (entries_cons init [] []); [| |done|constructor].
Qed.

Ltac chans :=
  unfold E, B, R, result_chan, filled, close, send, make_chan, nil_chan in *;
  simpl in *.

Lemma filled_dir_ok ze :
  ok {| entry_chan := filled ze; readers_chan := nil_chan; result_chans := ∅;
        workers := [] |} [[]].
Proof.
  split.
  - chans. lia.
  - intros j. chans. rewrite lookup_empty. simpl. lia.
  - exists 0%nat. by intros [|[|i]] t.
  - done.
  - chans. constructor.
  - intros j H. by apply elem_of_nil in H.
Qed.

Lemma filled_symlink_ok ze b :
  ok {| entry_chan := filled ze; readers_chan := filled 0%nat;
        result_chans := {[ 0%nat := filled b ]}; workers := [] |} [[]].
Proof.
  split.
  - chans. lia.
  - intros j. chans. destruct (decide (j = 0%nat)) as [->|].
    + rewrite lookup_singleton_eq. simpl. lia.
    + rewrite lookup_singleton_ne by done. simpl. lia.
  - exists 0%nat. by intros [|[|i]] t.
  - done.
  - chans. apply NoDup_singleton.
  - intros j H. by apply elem_of_nil in H.
Qed.

Lemma emits_writeDirectory flags dir src : emits_entries (writeDirectory flags dir src).
Proof.
  unfold writeDirectory. apply emits_bind.
  - generalize (@nil string).
    generalize (String.length (filepath.Clean dir) + 2)%nat.
    generalize (filepath.Clean dir). intros d fuel. revert d.
    induction fuel as [|fuel IH]; intros d l; simpl; [apply emits_ret|].
    destruct (_ && _); [|apply emits_ret].
    apply emits_bind; [apply emits_get|]. intros z.
    destruct (createdDirs z !! d); [apply emits_ret|].
    destruct (createdFiles z !! d); [apply emits_fail|].
    apply emits_bind; [apply emits_put|]. intros _. apply IH.
  - intros [d zipDirs]. apply emits_bind; [apply emits_get|]. intros z.
    destruct (directories z); [|apply emits_ret].
    apply emits_for_each. intros cleanDir. apply emits_filled, filled_dir_ok.
Qed.

Lemma emits_writeSymlink fs rel file : emits_entries (writeSymlink fs rel file).
Proof.
  unfold writeSymlink. apply emits_bind; [apply emits_get|]. intros z.
  apply emits_bind; [apply emits_lift|]. intros d.
  apply emits_filled, filled_symlink_ok.
Qed.
Section ProducerFits.
Context `{lib : Lib}.

Lemma whole_ok z ze r : ok empty_op [compressWholeFile z ze r; []].
Proof.
  unfold compressWholeFile, readFile, read.
  repeat case_match; split.
  all: try (chans; lia).
  all: try (intros j; chans; rewrite lookup_empty; simpl;
            try destruct (decide (0%nat = j)); simpl; lia).
  all: try (exists 0%nat; intros [|[|[|i]]] t; simpl; intros; simplify_eq; done).
  all: try done.
  all: try (chans; first [apply NoDup_singleton|apply NoDup_nil_2]).
  all: intros j _; chans; by rewrite lookup_empty.
Qed.

Lemma crcFile_facts r ze :
  racts (crcFile r ze) = [] ∧ (length (pick entry_of (crcFile r ze)) <= 1)%nat ∧
  (∀ j, pick (result_of j) (crcFile r ze) = []).
Proof.
  unfold crcFile. destruct (fault r crc_read); simpl; repeat split; try done; lia.
Qed.

Lemma compressPartialFile_facts z r start dict last j :
  racts (compressPartialFile z r start dict last j) = [] ∧
  pick entry_of (compressPartialFile z r start dict last j) = [] ∧
  (∀ j', (length (pick (result_of j') (compressPartialFile z r start dict last j)) <= 1)%nat ∧
         (j' ≠ j → pick (result_of j') (compressPartialFile z r start dict last j) = [])).
Proof.
  unfold compressPartialFile. destruct (compressBlock_result _ _ _ _); simpl.
  - repeat split; try done.
    + destruct (decide (j = j')); simpl; lia.
    + intros Hne. by rewrite decide_False.
  - repeat split; try done. lia.
Qed.

Lemma blocks_rest fuel z r fileSize j start z0 t res z' t' :
  blocks fuel z r fileSize j start z0 t = (res, z', t') →
  ∃ rest, t' = t ++ rest ∧ block_rest j rest.
Proof.
  revert j start t res z' t'.
  induction fuel as [|fuel IH]; intros j start t res z' t'; simpl.
  - unfold ret. intros [= <- <- <-]. exists []. rewrite app_nil_r.
    split; [done|]. repeat split; try done; try (simpl; lia). by exists 0%nat.
  - destruct (start <? fileSize); cycle 1.
    { unfold ret. intros [= <- <- <-]. exists []. rewrite app_nil_r.
      split; [done|]. repeat split; try done; try (simpl; lia). by exists 0%nat. }
    unfold bind, emit. simpl.
    assert (∀ dict res z' t',
      blocks fuel z r fileSize (S j) (int64 (start + parallelBlockSize)) z0
        ((t ++ [PSendReaders j]) ++ [PCpuRequest]
         ++ [PGo (compressPartialFile z r start dict
                    (negb (int64 (start + parallelBlockSize) <? fileSize)) j)])
      = (res, z', t') → ∃ rest, t' = t ++ rest ∧ block_rest j rest) as Hgo.
    { intros dict res0 z1 t1 H. rewrite app_assoc in H.
      apply IH in H as (rest & -> & Hc & Hnc & Hr & He & Hb & m & Hm).
      eexists ([_; _; _] ++ rest). rewrite <- !app_assoc. split; [done|].
      unfold block_rest, gos, chan_effs in *.
      destruct (compressPartialFile_facts z r start dict
                  (negb (int64 (start + parallelBlockSize) <? fileSize)) j)
        as (F1 & F2 & F3).
      repeat split.
      - simpl. by rewrite Hc.
      - done.
      - simpl. by constructor.
      - simpl. by rewrite pick_app, F2, He.
      - simpl. rewrite pick_app, length_app.
        destruct (decide (j' = j)) as [->|Hne].
        + rewrite (proj2 (Hb j)) by lia. simpl. destruct (F3 j) as [? _]. lia.
        + rewrite (proj2 (F3 j')) by done. simpl. by destruct (Hb j').
      - intros Hlt. simpl. rewrite pick_app.
        rewrite (proj2 (F3 j')) by lia. rewrite (proj2 (Hb j')) by lia. done.
      - exists (S m). simpl. by rewrite Hm. }
    destruct (start >=? windowSize).
    + unfold lift, read. destruct (fault r (window_read start)).
      * unfold fail. intros [= <- <- <-]. exists [PSendReaders j; PCpuRequest].
        rewrite <- app_assoc. split; [done|].
        repeat split; try done; try (simpl; lia). by exists 1%nat.
      * unfold ret. rewrite <- !app_assoc. intros H.
        eapply Hgo. rewrite <- !app_assoc. exact H.
    + unfold ret. rewrite <- !app_assoc. intros H.
      eapply Hgo. rewrite <- !app_assoc. exact H.
Qed.


Lemma pick_sends {B} (f : weff → option B) l :
  (∀ j, f (WSendReaders j) = None) → pick f (map WSendReaders l) = [].
Proof. intros H. induction l as [|j l IH]; [done|]. simpl. by rewrite H. Qed.

Lemma pick_reader_sends l : pick reader_of (map WSendReaders l) = l.
Proof. induction l as [|j l IH]; [done|]. simpl. by rewrite IH. Qed.

Lemma racts_sends l : racts (map WSendReaders l) = map WSendReaders l.
Proof. induction l as [|j l IH]; [done|]. unfold racts in *. simpl. by rewrite IH. Qed.

Lemma sends_then_close_sends l cl :
  sends_then_close cl → sends_then_close (map WSendReaders l ++ cl).
Proof. intros H. by induction l. Qed.

Lemma split_ok r ze n a rest (cl : bool) :
  block_rest 0 rest →
  ok empty_op
    (threads empty_op
       ([PCpuRequest; PMemRequest a; PMakeReaders n; PGo (crcFile r ze)] ++
        rest ++ (if cl then [PCloseReaders] else []))).
Proof.
  intros (Hc & Hnc & Hr & He & Hb & m & Hm).
  destruct (crcFile_facts r ze) as (C1 & C2 & C3).
  set (clw := if cl then [WCloseReaders] else []).
  assert (threads empty_op
            ([PCpuRequest; PMemRequest a; PMakeReaders n; PGo (crcFile r ze)] ++
             rest ++ (if cl then [PCloseReaders] else []))
          = crcFile r ze :: gos rest ++
            [WMakeReaders n :: map WSendReaders (seq 0 m) ++ clw]) as ->.
  { unfold threads, gos, chan_effs in *. simpl. rewrite !pick_app, Hm.
    subst clw. destruct cl; simpl; by rewrite ?app_nil_r. }
  assert (∀ {B} (f : weff → option B),
            pick f (concat (crcFile r ze :: gos rest ++
              [WMakeReaders n :: map WSendReaders (seq 0 m) ++ clw]))
            = pick f (crcFile r ze) ++ pick f (concat (gos rest)) ++
              pick f (WMakeReaders n :: map WSendReaders (seq 0 m) ++ clw)) as Hpk.
  { intros B0 f. rewrite concat_cons, concat_app, !pick_app.
    cbn [concat]. by rewrite app_nil_r. }
  assert (racts (concat (gos rest)) = []) as Hrc.
  { apply racts_concat_nil. intros i t Hi.
    by apply (Forall_lookup_1 _ _ _ _ Hr Hi). }
  split.
  - unfold E. rewrite Hpk, He. simpl. rewrite pick_app, pick_sends by done.
    subst clw. destruct cl; simpl; rewrite app_nil_r; chans; lia.
  - intros j. unfold B. rewrite Hpk, C3. simpl.
    rewrite pick_app, pick_sends by done.
    assert (pick (result_of j) clw = []) as -> by (subst clw; by destruct cl).
    rewrite app_nil_r. chans. rewrite lookup_empty. simpl. by destruct (Hb j).
  - exists (S (length (gos rest))). intros [|i] t Hi Hne.
    + by injection Hi as <-.
    + simpl in Hi. apply lookup_app_Some in Hi as [Hi|[Hge Hi]].
      * by apply (Forall_lookup_1 _ _ _ _ Hr Hi).
      * destruct (i - length (gos rest))%nat eqn:Hd; [lia|done].
  - unfold racts in *. rewrite Hpk, C1, Hrc. simpl. split; [done|]. split; [done|].
    rewrite pick_app. fold (racts (map WSendReaders (seq 0 m))).
    rewrite racts_sends. apply sends_then_close_sends.
    subst clw. by destruct cl.
  - unfold R. rewrite Hpk. rewrite (racts_nil_reader _ C1), (racts_nil_reader _ Hrc).
    simpl. rewrite pick_app, pick_reader_sends.
    assert (pick reader_of clw = []) as -> by (subst clw; by destruct cl).
    rewrite app_nil_r. apply NoDup_seq.
  - intros j _. chans. by rewrite lookup_empty.
Qed.

Lemma emits_writeFileContents header r : emits_entries (writeFileContents header r).
Proof.
  intros z t res z' t'. unfold writeFileContents, bind, get, emit. simpl.
  match goal with
  | |- context [if ?c then _ else _] => destruct c
  end.
  - match goal with
    | |- context [blocks ?f ?z ?r ?s ?j ?st ?z0 ?t0] =>
        destruct (blocks f z r s j st z0 t0) as [[res0 z1] t1] eqn:Hb
    end.
    apply blocks_rest in Hb as (rest & -> & Hrest).
    pose proof Hrest as (Hc & Hnc & _).
    destruct res0 as [[]|e]; intros [= <- <- <-].
    + match goal with
      | |- ∃ new, ((((((t ++ [_]) ++ [?a]) ++ [?b]) ++ [?c]) ++ [?d]) ++ rest) ++ [?e]
                  = _ ∧ _ =>
          exists (PSendOp empty_op :: ([a; b; c; d] ++ rest ++ [e]) ++ [])
      end.
      split; [rewrite app_nil_r; by rewrite <- !app_assoc|].
      constructor; [| |by apply (split_ok _ _ _ _ rest true)|constructor].
      * simpl. do 4 f_equal. revert Hc. clear.
        induction rest as [|[] rest IH]; simpl; intros Hc; try done;
          injection Hc as Hc; by rewrite IH.
      * simpl. rewrite pick_app, Hnc. done.
    + match goal with
      | |- ∃ new, (((((t ++ [_]) ++ [?a]) ++ [?b]) ++ [?c]) ++ [?d]) ++ rest
                  = _ ∧ _ =>
          exists (PSendOp empty_op :: ([a; b; c; d] ++ rest) ++ [])
      end.
      split; [rewrite app_nil_r; by rewrite <- !app_assoc|].
      constructor; [| | |constructor].
      * simpl. by rewrite Hc.
      * simpl. done.
      * match goal with
        | |- ok _ (threads _ ([_; PMemRequest ?a; PMakeReaders ?n; PGo (crcFile ?r ?ze)] ++ _)) =>
            pose proof (split_ok r ze n a rest false Hrest) as Hok
        end.
        by rewrite app_nil_r in Hok.
  - intros [= <- <- <-].
    match goal with
    | |- ∃ new, (((t ++ [_]) ++ [?a]) ++ [?b]) ++ [?c] = _ ∧ _ =>
        exists (PSendOp empty_op :: [a; b; c] ++ [])
    end.
    split; [by rewrite <- !app_assoc|].
    constructor; [done|done| |constructor]. apply whole_ok.
Qed.

Lemma emits_addFile flags fs dest src method :
  emits_entries (addFile flags fs dest src method).
Proof.
  unfold addFile. apply emits_bind; [apply emits_lift|]. intros s.
  destruct (IsDir s).
  - apply emits_bind; [apply emits_get|]. intros z.
    destruct (directories z); [apply emits_writeDirectory|apply emits_ret].
  - apply emits_bind; [apply emits_writeDirectory|]. intros _.
    apply emits_bind; [apply emits_get|]. intros z.
    destruct (createdDirs z !! dest); [apply emits_fail|].
    destruct (createdFiles z !! dest); [apply emits_fail|].
    apply emits_bind; [apply emits_put|]. intros _.
    destruct (negb _); [apply emits_writeSymlink|].
    destruct (negb _); [apply emits_fail|].
    apply emits_bind; [apply emits_lift|]. intros r.
    apply emits_writeFileContents.
Qed.

Lemma emits_addManifest fs dest src method :
  emits_entries (addManifest fs dest src method).
Proof.
  unfold addManifest. apply emits_bind; [apply emits_lift|]. intros givenBytes.
  apply emits_bind; [apply emits_get|]. intros z.
  destruct (createdDirs z !! dest); [apply emits_fail|].
  destruct (createdFiles z !! dest); [apply emits_fail|].
  apply emits_writeFileContents.
Qed.

Lemma emits_produce flags fs pathMappings :
  emits_entries (produce flags fs pathMappings).
Proof.
  induction pathMappings as [|ele rest IH]; simpl; [apply emits_ret|].
  apply emits_bind; [|by intros _].
  destruct (_ && _); [apply emits_addManifest|apply emits_addFile].
Qed.

End ProducerFits.
Lemma cur_seg_app seg rest :
  cur_seg seg = seg → cur_seg (seg ++ rest) = seg ++ cur_seg rest.
Proof.
  induction seg as [|e seg IH]; [done|].
  destruct e; simpl; intros H; try done; injection H as H; by rewrite IH.
Qed.

Lemma segs_app seg rest : cur_seg seg = seg → segs (seg ++ rest) = segs rest.
Proof.
  induction seg as [|e seg IH]; [done|].
  destruct e; simpl; intros H; try done; injection H as H; by rewrite IH.
Qed.

Lemma close_last_app seg rest :
  pick (λ e, match e with PCloseWriteOps => Some tt | _ => None end) seg = [] →
  close_last (seg ++ rest) ↔ close_last rest.
Proof.
  induction seg as [|e seg IH]; [done|].
  destruct e; simpl; intros H; try done; by apply IH.
Qed.

Lemma threads_app o seg tail :
  gos tail = [] → chan_effs tail = [] → threads o (seg ++ tail) = threads o seg.
Proof.
  unfold threads, gos, chan_effs. intros H1 H2.
  by rewrite !pick_app, H1, H2, !app_nil_r.
Qed.

(** The producer's steps fit when they are a row of entries followed by
    steps that send nothing and close [z.writeOps]. *)
Lemma entries_good t tail :
  entries_ok t →
  segs tail = [] → gos tail = [] → chan_effs tail = [] → close_last tail →
  good (t ++ tail).
Proof.
  intros Ht Hs Hg Hc Hl.
  induction Ht as [|init seg t Hseg Hnc Hok Ht [IH1 IH2]].
  - split; [|done]. simpl. rewrite Hs. by intros x Hx%elem_of_nil.
  - split.
    + intros x. simpl. rewrite <- app_assoc, segs_app, cur_seg_app by done.
      intros [->|Hx]%elem_of_cons; [|by apply IH1]. simpl.
      destruct Ht as [|init' seg' t'].
      * simpl. assert (cur_seg tail = tail ∨ ∃ l, cur_seg tail = l ∧ gos l = [] ∧ chan_effs l = []) as Hcs.
        { right. exists (cur_seg tail). split; [done|]. revert Hs Hg Hc. clear.
          unfold gos, chan_effs.
          induction tail as [|[] tail IH]; simpl; try done; auto. }
        destruct Hcs as [->|(l & -> & Hg' & Hc')]; by rewrite threads_app.
      * simpl. by rewrite app_nil_r.
    + simpl. rewrite <- app_assoc. by apply close_last_app.
Qed.

Section ProducerGood.
Context `{lib : Lib}.

(** The goroutine that [write] starts for the path mappings fits, whatever
    the files are. *)
Lemma producer_good flags fs z pathMappings :
  good (producer flags fs z pathMappings).
Proof.
  unfold producer.
  destruct (produce flags fs pathMappings z []) as [[res z'] t] eqn:Hp.
  apply emits_produce in Hp as (new & -> & Hnew). simpl.
  destruct res; by apply entries_good.
Qed.

End ProducerGood.
(** ** What a function adds does not depend on the steps before it *)

Lemma framed_ret {A} (a : A) : framed (ret a).
Proof. intros z t. unfold ret. by rewrite app_nil_r. Qed.

Lemma framed_fail {A} e : framed (@fail A e).
Proof. intros z t. unfold fail. by rewrite app_nil_r. Qed.

Lemma framed_get : framed get.
Proof. intros z t. unfold get. by rewrite app_nil_r. Qed.

Lemma framed_put z0 : framed (put z0).
Proof. intros z t. unfold put. by rewrite app_nil_r. Qed.

Lemma framed_emit e : framed (emit e).
Proof. by intros z t. Qed.

Lemma framed_lift {A} (x : result A) : framed (lift x).
Proof. destruct x; [apply framed_ret|apply framed_fail]. Qed.

Lemma framed_bind {A B} (m : P A) (k : A → P B) :
  framed m → (∀ a, framed (k a)) → framed (bind m k).
Proof.
  intros Hm Hk z t. unfold bind. rewrite (Hm z t).
  destruct (m z []) as [[[a|e] z1] n1]; [|done].
  rewrite (Hk a z1 (t ++ n1)), (Hk a z1 n1).
  destruct (k a z1 []) as [[r z2] n2]. by rewrite app_assoc.
Qed.

Lemma framed_for_each {A} (l : list A) (f : A → P unit) :
  (∀ x, framed (f x)) → framed (for_each l f).
Proof.
  intros Hf. induction l as [|x l IH]; simpl; [apply framed_ret|].
  apply framed_bind; [apply Hf|by intros _].
Qed.

Lemma framed_writeDirectory flags dir src : framed (writeDirectory flags dir src).
Proof.
  unfold writeDirectory. apply framed_bind.
  - generalize (@nil string).
    generalize (String.length (filepath.Clean dir) + 2)%nat.
    generalize (filepath.Clean dir). intros d fuel. revert d.
    induction fuel as [|fuel IH]; intros d l; simpl; [apply framed_ret|].
    destruct (_ && _); [|apply framed_ret].
    apply framed_bind; [apply framed_get|]. intros z.
    destruct (createdDirs z !! d); [apply framed_ret|].
    destruct (createdFiles z !! d); [apply framed_fail|].
    apply framed_bind; [apply framed_put|]. intros _. apply IH.
  - intros [d zipDirs]. apply framed_bind; [apply framed_get|]. intros z.
    destruct (directories z); [|apply framed_ret].
    apply framed_for_each. intros cleanDir. apply framed_emit.
Qed.

Lemma framed_writeSymlink fs rel file : framed (writeSymlink fs rel file).
Proof.
  unfold writeSymlink. apply framed_bind; [apply framed_get|]. intros z.
  apply framed_bind; [apply framed_lift|]. intros d. apply framed_emit.
Qed.

Section Framed.
Context `{lib : Lib}.

Lemma framed_blocks fuel z r fileSize j start :
  framed (blocks fuel z r fileSize j start).
Proof.
  revert j start. induction fuel as [|fuel IH]; intros j start; simpl;
    [apply framed_ret|].
  destruct (start <? fileSize); [|apply framed_ret].
  apply framed_bind; [apply framed_emit|]. intros _.
  apply framed_bind; [apply framed_emit|]. intros _.
  apply framed_bind.
  { destruct (start >=? windowSize); [apply framed_lift|apply framed_ret]. }
  intros dict. apply framed_bind; [apply framed_emit|]. intros _. apply IH.
Qed.

Lemma framed_writeFileContents header r : framed (writeFileContents header r).
Proof.
  unfold writeFileContents. apply framed_bind; [apply framed_get|]. intros z.
  apply framed_bind; [apply framed_emit|]. intros _.
  apply framed_bind; [apply framed_emit|]. intros _.
  apply framed_bind; [apply framed_emit|]. intros _.
  destruct (_ && _); [|apply framed_emit].
  apply framed_bind; [apply framed_emit|]. intros _.
  apply framed_bind; [apply framed_emit|]. intros _.
  apply framed_bind; [apply framed_blocks|]. intros _. apply framed_emit.
Qed.

Lemma framed_addFile flags fs dest src method :
  framed (addFile flags fs dest src method).
Proof.
  unfold addFile. apply framed_bind; [apply framed_lift|]. intros s.
  destruct (IsDir s).
  - apply framed_bind; [apply framed_get|]. intros z.
    destruct (directories z); [apply framed_writeDirectory|apply framed_ret].
  - apply framed_bind; [apply framed_writeDirectory|]. intros _.
    apply framed_bind; [apply framed_get|]. intros z.
    destruct (createdDirs z !! dest); [apply framed_fail|].
    destruct (createdFiles z !! dest); [apply framed_fail|].
    apply framed_bind; [apply framed_put|]. intros _.
    destruct (negb _); [apply framed_writeSymlink|].
    destruct (negb _); [apply framed_fail|].
    apply framed_bind; [apply framed_lift|]. intros r.
    apply framed_writeFileContents.
Qed.

Lemma framed_addManifest fs dest src method :
  framed (addManifest fs dest src method).
Proof.
  unfold addManifest. apply framed_bind; [apply framed_lift|]. intros givenBytes.
  apply framed_bind; [apply framed_get|]. intros z.
  destruct (createdDirs z !! dest); [apply framed_fail|].
  destruct (createdFiles z !! dest); [apply framed_fail|].
  apply framed_writeFileContents.
Qed.

Lemma framed_produce flags fs pathMappings :
  framed (produce flags fs pathMappings).
Proof.
  induction pathMappings as [|ele rest IH]; simpl; [apply framed_ret|].
  apply framed_bind; [|by intros _].
  destruct (_ && _); [apply framed_addManifest|apply framed_addFile].
Qed.

End Framed.

(** ** The archive is the entries of the mappings in the order of the loop *)

Lemma entries_ok_cur_seg t : entries_ok t → cur_seg t = [].
Proof. by destruct 1. Qed.

Lemma archive_app t1 t2 :
  entries_ok t1 → gos (cur_seg t2) = [] → chan_effs (cur_seg t2) = [] →
  archive (t1 ++ t2) = archive t1 ++ archive t2.
Proof.
  intros Ht1 Hg Hc.
  induction Ht1 as [|init seg t Hseg Hnc Hok Ht IH]; [done|].
  unfold archive in *. simpl. rewrite <- !app_assoc.
  rewrite (segs_app seg t), (cur_seg_app seg t), (segs_app seg (t ++ t2)),
    (cur_seg_app seg (t ++ t2)) by done.
  simpl. rewrite IH. f_equal. f_equal.
  rewrite (entries_ok_cur_seg t Ht), app_nil_r.
  destruct Ht as [|init' seg' t']; simpl.
  - by rewrite threads_app.
  - by rewrite app_nil_r.
Qed.

Section ByMapping.
Context `{lib : Lib}.

Lemma produce_one flags fs ele rest z :
  produce flags fs (ele :: rest) z []
  = let '(r, z1, t1) := produce flags fs [ele] z [] in
    match r with
    | Ok _ => let '(r2, z2, n2) := produce flags fs rest z1 [] in
              (r2, z2, t1 ++ n2)
    | Err e => (Err e, z1, t1)
    end.
Proof.
  cbn [produce]. unfold bind.
  destruct ((if flag_emulateJar flags && String.eqb (dest ele) manifestDest
             then addManifest fs (dest ele) (src ele) (zipMethod ele)
             else addFile flags fs (dest ele) (src ele) (zipMethod ele)) z [])
    as [[[[]|e] z1] t1]; [|done].
  unfold ret. apply (framed_produce flags fs rest z1 t1).
Qed.

Lemma produce_archive flags fs pathMappings z :
  archive (produce flags fs pathMappings z []).2
  = concat (by_mapping flags fs pathMappings z).
Proof.
  revert z. induction pathMappings as [|ele rest IH]; intros z; [done|].
  rewrite produce_one. cbn [by_mapping].
  destruct (produce flags fs [ele] z []) as [[r z1] t1] eqn:H1.
  pose proof (emits_produce flags fs [ele] _ _ _ _ _ H1) as (n1 & Hn1 & Hok1).
  simpl in Hn1. subst n1.
  destruct r as [[]|e]; [|simpl; by rewrite app_nil_r].
  specialize (IH z1).
  destruct (produce flags fs rest z1 []) as [[r2 z2] n2] eqn:H2.
  pose proof (emits_produce flags fs rest _ _ _ _ _ H2) as (n2' & Hn2 & Hok2).
  simpl in Hn2. subst n2'. simpl in *.
  rewrite archive_app, IH; try done; by rewrite (entries_ok_cur_seg n2).
Qed.

Lemma producer_archive flags fs z pathMappings :
  archive (producer flags fs z pathMappings)
  = concat (by_mapping flags fs pathMappings z).
Proof.
  rewrite <- produce_archive. unfold producer.
  destruct (produce flags fs pathMappings z []) as [[r z1] t1] eqn:H1.
  pose proof (emits_produce flags fs pathMappings _ _ _ _ _ H1) as (n1 & Hn1 & Hok1).
  simpl in Hn1. subst n1.
  destruct r; simpl; rewrite archive_app by done; unfold archive; simpl;
    by rewrite app_nil_r.
Qed.

End ByMapping.
(** ** The entry of a large file *)

Section SplitEntry.
Context `{lib : Lib}.

Lemma turns_cur_seg z r fileSize l rest :
  cur_seg (flat_map (turn z r fileSize) l ++ rest)
  = flat_map (turn z r fileSize) l ++ cur_seg rest.
Proof. induction l as [|j l IH]; simpl; [done|]. by rewrite IH. Qed.

Lemma turns_segs z r fileSize l rest :
  segs (flat_map (turn z r fileSize) l ++ rest) = segs rest.
Proof. induction l as [|j l IH]; simpl; [done|]. by rewrite IH. Qed.

Lemma turns_gos z r fileSize l :
  gos (flat_map (turn z r fileSize) l)
  = map (λ j, [WCpuFinish; WSendResult j (block z r fileSize j)]) l.
Proof.
  unfold gos. induction l as [|j l IH]; simpl; [done|]. by rewrite IH.
Qed.

Lemma turns_chan_effs z r fileSize l :
  chan_effs (flat_map (turn z r fileSize) l) = map WSendReaders l.
Proof.
  unfold chan_effs. induction l as [|j l IH]; simpl; [done|]. by rewrite IH.
Qed.

Lemma turns_result z r fileSize j a m :
  pick (result_of j)
    (concat (map (λ j, [WCpuFinish; WSendResult j (block z r fileSize j)])
               (seq a m)))
  = if decide (a <= j < a + m)%nat then [block z r fileSize j] else [].
Proof.
  revert a. induction m as [|m IH]; intros a; simpl.
  - by destruct (decide _); [lia|].
  - rewrite IH. destruct (decide (a = j)) as [->|Hne].
    + destruct (decide (S j <= j < S j + m)%nat); [lia|].
      by destruct (decide (j <= j < j + S m)%nat); [|lia].
    + destruct (decide (S a <= j < S a + m)%nat), (decide (a <= j < a + S m)%nat);
        try done; lia.
Qed.

Lemma turns_pick {B} (f : weff → option B) z r fileSize l :
  (∀ j b, f (WSendResult j b) = None) → f WCpuFinish = None →
  pick f (concat (map (λ j, [WCpuFinish; WSendResult j (block z r fileSize j)]) l))
  = [].
Proof.
  intros H1 H2. induction l as [|j l IH]; simpl; [done|]. by rewrite H2, H1.
Qed.

(** The steps of [writeFileContents] for a large file to deflate whose
    reads succeed. *)
Lemma writeFileContents_split header r z :
  Method header = zip_Deflate →
  UncompressedSize header = 0 →
  minParallelFileSize <= UncompressedSize64 header < 2 ^ 62 →
  (∀ op, fault r op = None) →
  level_ok (compLevel z) = true →
  let fileSize := UncompressedSize64 header in
  let ze := {| fh := SetModTime header (time z); futureReaders := true;
               allocatedSize := fileSize |} in
  writeFileContents header r z []
  = (Ok tt, z,
     [PSendOp empty_op; PCpuRequest; PMemRequest fileSize;
      PMakeReaders (Z.quot fileSize parallelBlockSize + 1);
      PGo (crcFile r ze)] ++
     flat_map (turn z r fileSize) (seq 0 (nblocks fileSize)) ++
     [PCloseReaders]).
Proof.
  intros Hm H32 H64 Hf Hl fileSize ze.
  assert (0 <= fileSize < 2 ^ 62) as Hs
    by (unfold fileSize, minParallelFileSize, parallelBlockSize in *; lia).
  unfold writeFileContents, bind, get, emit. simpl.
  rewrite H32, (int64_small (UncompressedSize64 header)) by lia.
  rewrite Hm. fold fileSize.
  assert ((if fileSize =? 0 then int64 0 else fileSize) = fileSize) as ->.
  { destruct (fileSize =? 0) eqn:E0; [|done]. apply Z.eqb_eq in E0.
    unfold minParallelFileSize, parallelBlockSize in *. lia. }
  assert ((fileSize >=? minParallelFileSize) = true) as ->.
  { rewrite Z.geb_leb. apply Z.leb_le. unfold fileSize. lia. }
  simpl.
  rewrite (blocks_trace z r fileSize Hf Hl Hs _ 0%nat); cycle 1.
  { pose proof (nblocks_fuel fileSize ltac:(lia)). lia. }
  by rewrite Nat.sub_0_r.
Qed.

(** The calls on the encoder for such a file: its header, the compressed
    ranges in the order of the ranges, and the close of the entry. *)
Lemma split_archive header r z :
  Method header = zip_Deflate →
  UncompressedSize header = 0 →
  minParallelFileSize <= UncompressedSize64 header < 2 ^ 62 →
  (∀ op, fault r op = None) →
  level_ok (compLevel z) = true →
  let fileSize := UncompressedSize64 header in
  archive (writeFileContents header r z []).2
  = CreateCompressedHeader
      (set_CRC32 (SetModTime header (time z)) (crc32 (data r))) ::
    map (λ j, Copy (block z r fileSize j)) (seq 0 (nblocks fileSize)) ++
    [CloseWriter compressedWriter].
Proof.
  intros Hm H32 H64 Hf Hl fileSize.
  rewrite writeFileContents_split by done. fold fileSize.
  unfold archive. cbn [snd app segs cur_seg flat_map fst].
  rewrite turns_cur_seg, turns_segs. cbn [segs cur_seg flat_map app].
  rewrite app_nil_r. unfold threads.
  set (n := nblocks fileSize).
  assert (crcFile r {| fh := SetModTime header (time z); futureReaders := true;
                       allocatedSize := fileSize |}
          = [WSendEntry {| fh := set_CRC32 (SetModTime header (time z))
                                   (crc32 (data r));
                           futureReaders := true; allocatedSize := fileSize |};
             WCloseEntry; WCpuFinish]) as ->.
  { unfold crcFile. by rewrite Hf. }
  set (ws := map (λ j, [WCpuFinish; WSendResult j (block z r fileSize j)]) (seq 0 n)).
  match goal with
  | |- entry_events _ ?x = _ => set (ts := x)
  end.
  assert (∀ {B} (f : weff → option B),
            pick f (concat ts)
            = pick f [WSendEntry {| fh := set_CRC32 (SetModTime header (time z))
                                            (crc32 (data r));
                                    futureReaders := true;
                                    allocatedSize := fileSize |};
                      WCloseEntry; WCpuFinish] ++
              pick f (concat ws) ++
              pick f (WMakeReaders (Z.quot fileSize parallelBlockSize + 1) ::
                      map WSendReaders (seq 0 n) ++ [WCloseReaders])) as Hpk.
  { intros B0 f. subst ts. unfold gos, chan_effs. cbn [workers empty_op app pick].
    rewrite !pick_app. fold (gos (flat_map (turn z r fileSize) (seq 0 n))).
    fold (chan_effs (flat_map (turn z r fileSize) (seq 0 n))).
    rewrite turns_gos, turns_chan_effs. fold ws. cbn [pick app].
    rewrite concat_cons, concat_app, !pick_app. cbn [concat].
    rewrite !app_nil_r. cbn [pick]. rewrite ?pick_app. by cbn [pick]. }
  clearbody ts. subst ws.
  assert (∀ j, (j < n)%nat → B empty_op ts j = [block z r fileSize j]) as HB.
  { intros j Hj. unfold B. rewrite Hpk, turns_result. cbn [pick result_of app].
    rewrite pick_app, pick_sends by done.
    unfold result_chan. cbn [empty_op result_chans]. rewrite lookup_empty.
    cbn [default nil_chan buf app pick result_of].
    by destruct (decide (0 <= j < 0 + n)%nat); [|lia]. }
  unfold entry_events, E. rewrite Hpk, turns_pick by done.
  cbn [pick entry_of app]. rewrite pick_app, pick_sends by done.
  cbn [empty_op entry_chan buf make_chan app pick entry_of fh futureReaders].
  unfold created. cbn [set_CRC32 SetModTime Method fh]. rewrite Hm.
  cbn [Z.eqb zip_Deflate Pos.eqb fst snd].
  f_equal. f_equal.
  - unfold copies, R. rewrite Hpk, turns_pick by done. cbn [pick reader_of app].
    rewrite pick_app, pick_reader_sends.
    cbn [empty_op readers_chan pick reader_of].
    change (buf (@nil_chan nat)) with (@nil nat). cbn [app]. rewrite app_nil_r.
    assert (∀ j, j ∈ seq 0 n → (j < n)%nat) as Hin
      by (intros j Hj%elem_of_seq; lia).
    revert Hin. generalize (seq 0 n). intros l Hl'.
    induction l as [|j l IH]; [done|]. cbn [flat_map map].
    rewrite HB by (apply Hl'; left). cbn [map app]. f_equal.
    apply IH. intros j' Hj'. apply Hl'. by right.
  - unfold closing, closes. rewrite Hpk, turns_pick by done.
    cbn [pick close_of app]. rewrite pick_app, pick_sends by done. done.
Qed.

End SplitEntry.
(** ** The order of the archive *)

Section EntryOrder.
Context `{lib : Lib}.

(** C8: whatever the order in which the goroutines move (the schedule
    [sched], which also fixes the order in which the compression goroutines
    finish) and whatever calls on the encoder fail, the calls that [write]
    has made on the encoder are an initial part of one list: the entries of
    the mappings of the loop (the manifest added, sorted when a jar is
    emulated), mapping by mapping in the order of the loop, and then the
    close of the archive; they are the whole list when [write] returns nil.
    For a large file that is deflated and whose reads succeed, the entry is
    its header, the compressed ranges in the order of the ranges, and its
    close. *)
Theorem C8_archive_in_mapping_order flags fs zfault sched z out pathMappings
    manifest :
  let run := write flags fs zfault sched z out pathMappings manifest in
  let full :=
    concat (by_mapping flags fs (loop_mappings flags pathMappings manifest) z)
    ++ [CloseZip] in
  (∃ more, wr_zip run ++ more = full) ∧
  (wr_returned run = Some None → wr_zip run = full) ∧
  (∀ header r z0,
     Method header = zip_Deflate →
     UncompressedSize header = 0 →
     minParallelFileSize <= UncompressedSize64 header < 2 ^ 62 →
     (∀ op, fault r op = None) →
     level_ok (compLevel z0) = true →
     let fileSize := UncompressedSize64 header in
     archive (writeFileContents header r z0 []).2
     = CreateCompressedHeader
         (set_CRC32 (SetModTime header (time z0)) (crc32 (data r))) ::
       map (λ j, Copy (block z0 r fileSize j)) (seq 0 (nblocks fileSize)) ++
       [CloseWriter compressedWriter]).
Proof.
  intros run full.
  split; [|split; [|intros header r z0; apply split_archive]].
  - subst run. unfold write. destruct (Create fs out); [by exists full|].
    destruct (_ && _); [by exists full|].
    fold (loop_mappings flags pathMappings manifest).
    set (p := producer flags fs z (loop_mappings flags pathMappings manifest)).
    pose proof (run_writes zfault p sched _ (start_writes flags p
                  (producer_good flags fs z _))) as (_ & _ & [more Hm] & _).
    subst full. rewrite <- producer_archive. fold p.
    exists more. by destruct (returned _).
  - subst run. unfold write. destruct (Create fs out); [done|].
    destruct (_ && _); [done|].
    fold (loop_mappings flags pathMappings manifest).
    set (p := producer flags fs z (loop_mappings flags pathMappings manifest)).
    pose proof (run_writes zfault p sched _ (start_writes flags p
                  (producer_good flags fs z _))) as (_ & Hnil & _ & _).
    subst full. rewrite <- producer_archive. fold p.
    destruct (returned _) as [[e|]|] eqn:Hr; simpl; [done| |done].
    intros _. by apply Hnil.
Qed.

End EntryOrder.

(** C8 at two files in a jar, with a schedule that lets [write] return nil,
    and at a file of 6 MiB. *)
Lemma C8_witness :
  let mappings :=
    [{| dest := "d/b.bin"; src := "d/b.bin"; zipMethod := zip_Deflate |};
     {| dest := "a.txt"; src := "a.txt"; zipMethod := zip_Deflate |}] in
  let run := @write sample_lib (sample_flags true "") sample_fs no_zfault
               (rounds 40) (sample_zipWriter true) "out.zip" mappings "" in
  let header := newFileHeader "big" zip_Deflate 6291456 in
  let r := byteReaderCloser (replicate (Z.to_nat 6291456) x00) in
  let z0 := sample_zipWriter false in
  wr_returned run = Some None ∧
  wr_zip run
  = concat (@by_mapping sample_lib (sample_flags true "") sample_fs
              (@loop_mappings sample_lib (sample_flags true "") mappings "")
              (sample_zipWriter true)) ++ [CloseZip] ∧
  archive (@writeFileContents sample_lib header r z0 []).2
  = CreateCompressedHeader
      (set_CRC32 (SetModTime header (time z0)) (@crc32 sample_lib (data r))) ::
    map (λ j, Copy (@block sample_lib z0 r 6291456 j)) (seq 0 (nblocks 6291456)) ++
    [CloseWriter compressedWriter].
Proof.
  intros mappings run header r z0.
  destruct (@C8_archive_in_mapping_order sample_lib (sample_flags true "")
              sample_fs no_zfault (rounds 40) (sample_zipWriter true) "out.zip"
              mappings "") as (_ & Hnil & Hsplit).
  assert (wr_returned run = Some None) as Hret by (vm_compute; reflexivity).
  split; [exact Hret|]. split; [exact (Hnil Hret)|].
  refine (Hsplit header r z0 eq_refl eq_refl (conj _ eq_refl) (λ _, eq_refl) eq_refl).
  unfold minParallelFileSize, parallelBlockSize.
  cbn [UncompressedSize64 header newFileHeader]. lia.
Defined.
(** ** The memory limiter *)

Lemma on_current_mem s f s' :
  on_current s f = Some s' → memoryRateLimiter s' = memoryRateLimiter s.
Proof. unfold on_current. repeat case_match; naive_solver. Qed.

(** A step changes the memory limiter in two places only: the producer's
    request, and the writer's release when it takes an entry. *)
Lemma step_mem zfault s c s' :
  step zfault s c = Some s' →
  memoryRateLimiter s' = memoryRateLimiter s ∨
  (c = RunProducer ∧ ∃ n rest,
     prod s = PMemRequest n :: rest ∧
     memoryRateLimiter s' = mem_Request (memoryRateLimiter s) n) ∨
  (c = RunWriter ∧ ∃ n o op more,
     currentWriteOpChan s = Some n ∧ ops s !! n = Some o ∧
     buf (entry_chan o) = op :: more ∧
     memoryRateLimiter s' = mem_Finish (memoryRateLimiter s) (allocatedSize op)).
Proof.
  unfold step. destruct (returned s); [done|]. destruct c as [|n k| |who].
  - unfold producer_step. destruct (prod s) as [|e rest] eqn:Hp; [done|].
    destruct e; try (intros H%on_current_mem; by left);
      repeat case_match; intros; simplify_eq; try (by left).
    right; left. split; [done|]. by eexists _, _.
  - unfold worker_step. repeat case_match; intros; simplify_eq; by left.
  - unfold writer_step.
    destruct (done s); [intros; simplify_eq; by left|].
    destruct (currentReader s) as [[n j]|].
    { repeat case_match; intros; simplify_eq; by left. }
    destruct (currentReaders s) as [n|].
    { repeat case_match; intros; simplify_eq; by left. }
    destruct (currentWriteOpChan s) as [n|].
    + destruct (ops s !! n) as [o|] eqn:Ho; [|done].
      destruct (buf (entry_chan o)) as [|op more] eqn:Hb; [done|].
      destruct (Method (fh op) =? zip_Deflate); simpl;
        (destruct (zfault (length (zipw s))); [intros; simplify_eq; by left|]);
        intros [= <-]; right; right; (split; [done|]);
        exists n, o, op, more; by destruct (futureReaders op).
    + repeat case_match; intros; simplify_eq; by left.
  - unfold error_step. repeat case_match; intros; simplify_eq; by left.
Qed.

Lemma run_mem_limit zfault sched s :
  mem_limit (memoryRateLimiter (run zfault sched s))
  = mem_limit (memoryRateLimiter s).
Proof.
  revert s. induction sched as [|c sched IH]; intros s; [done|].
  simpl. rewrite IH. destruct (step zfault s c) as [s'|] eqn:Hs; [|done].
  simpl. apply step_mem in Hs as [->|[(_ & n & rest & _ & ->)|(_ & n & o & op & more & _ & _ & _ & ->)]];
    done.
Qed.

Section MemoryLimiter.
Context `{lib : Lib}.

Lemma compressWholeFile_entries z ze r ze' :
  ze' ∈ pick entry_of (compressWholeFile z ze r) →
  allocatedSize ze' = allocatedSize ze.
Proof.
  unfold compressWholeFile, readFile, read.
  repeat case_match; simpl; intros Hin;
    repeat (apply elem_of_cons in Hin as [->|Hin]);
    try done; by apply elem_of_nil in Hin.
Qed.

Lemma blocks_mem fuel z r fileSize j start z0 t res z' t' :
  blocks fuel z r fileSize j start z0 t = (res, z', t') →
  ∃ rest, t' = t ++ rest ∧ pick mem_of rest = [].
Proof.
  revert j start t res z' t'.
  induction fuel as [|fuel IH]; intros j start t res z' t'; simpl.
  - unfold ret. intros [= <- <- <-]. exists []. by rewrite app_nil_r.
  - destruct (start <? fileSize); cycle 1.
    { unfold ret. intros [= <- <- <-]. exists []. by rewrite app_nil_r. }
    unfold bind, emit. simpl.
    destruct (start >=? windowSize); [unfold lift, read;
      destruct (fault r (window_read start))|]; unfold ret, fail.
    + intros [= <- <- <-]. exists [PSendReaders j; PCpuRequest].
      by rewrite <- app_assoc.
    + intros (rest & -> & Hrest)%IH. eexists ([_; _; _] ++ rest).
      by rewrite <- !app_assoc.
    + intros (rest & -> & Hrest)%IH. eexists ([_; _; _] ++ rest).
      by rewrite <- !app_assoc.
Qed.

Lemma crcFile_entries r ze ze' :
  ze' ∈ pick entry_of (crcFile r ze) → allocatedSize ze' = allocatedSize ze.
Proof.
  unfold crcFile. destruct (fault r crc_read); simpl; intros Hin;
    repeat (apply elem_of_cons in Hin as [->|Hin]);
    try done; by apply elem_of_nil in Hin.
Qed.

(** C10: [write] makes the memory limiter with the mark 0, and the mark
    stays 0 in every run, so that the limiter admits every request.  All
    the same [writeFileContents] asks it for the uncompressed size of the
    file, once, before it starts a goroutine, and every entry that these
    goroutines send carries that size as its [allocatedSize].  A step of a
    run changes the limiter only where the producer makes such a request and
    where the writer takes an entry from its channel and opens it on the
    encoder: there it releases the [allocatedSize] of that entry. *)
Theorem C10_memory_limiter_unbounded_and_symmetric :
  (∀ flags p zfault sched n,
     memoryRateLimiter (start flags p) = NewMemoryRateLimiter 0 ∧
     mem_limit (memoryRateLimiter (run zfault sched (start flags p))) = 0 ∧
     mem_admits (memoryRateLimiter (run zfault sched (start flags p))) n
     = true) ∧
  (∀ header r z t res z' t',
     writeFileContents header r z t = (res, z', t') →
     ∃ rest,
       t' = t ++ [PSendOp empty_op; PCpuRequest;
                  PMemRequest (int64 (UncompressedSize64 header))] ++ rest ∧
       pick mem_of rest = [] ∧
       ∀ ze, ze ∈ pick entry_of (concat (gos rest)) →
             allocatedSize ze = int64 (UncompressedSize64 header)) ∧
  (∀ zfault s c s',
     step zfault s c = Some s' →
     memoryRateLimiter s' = memoryRateLimiter s ∨
     (c = RunProducer ∧ ∃ n rest,
        prod s = PMemRequest n :: rest ∧
        memoryRateLimiter s' = mem_Request (memoryRateLimiter s) n) ∨
     (c = RunWriter ∧ ∃ n o op more,
        currentWriteOpChan s = Some n ∧ ops s !! n = Some o ∧
        buf (entry_chan o) = op :: more ∧
        memoryRateLimiter s'
        = mem_Finish (memoryRateLimiter s) (allocatedSize op))) ∧
  (∀ zfault s n o op more,
     returned s = None → done s = false →
     currentReader s = None → currentReaders s = None →
     currentWriteOpChan s = Some n → ops s !! n = Some o →
     buf (entry_chan o) = op :: more →
     zfault (length (zipw s)) = None →
     ∃ s', step zfault s RunWriter = Some s' ∧
           memoryRateLimiter s'
           = mem_Finish (memoryRateLimiter s) (allocatedSize op)).
Proof.
  split; [|split; [|split]].
  - intros flags p zfault sched n. split; [done|].
    assert (mem_limit (memoryRateLimiter (run zfault sched (start flags p))) = 0)
      as Hl by by rewrite run_mem_limit.
    split; [done|]. unfold mem_admits. by rewrite Hl.
  - intros header r z t res z' t'.
    unfold writeFileContents, bind, get, emit. simpl.
    match goal with
    | |- context [if ?c then _ else _] => destruct c
    end.
    + match goal with
      | |- context [blocks ?f ?z ?r ?s ?j ?st ?z0 ?t0] =>
          destruct (blocks f z r s j st z0 t0) as [[res0 z1] t1] eqn:Hb
      end.
      pose proof Hb as (rest & -> & Hmem)%blocks_mem.
      apply blocks_rest in Hb as (rest' & Heq & Hrest).
      apply app_inv_head in Heq as <-.
      destruct Hrest as (_ & _ & _ & He & _ & _).
      assert (∀ tl : list peff,
                gos tl = [] → pick mem_of tl = [] →
                pick mem_of (PMakeReaders
                   (Z.quot (let fileSize := int64 (UncompressedSize64 header) in
                            if fileSize =? 0 then int64 (UncompressedSize header)
                            else fileSize) parallelBlockSize + 1) ::
                   PGo (crcFile r
                          (set_futureReaders
                             {| fh := SetModTime header (time z);
                                futureReaders := false;
                                allocatedSize := int64 (UncompressedSize64 header) |}
                             true)) :: rest ++ tl) = [] ∧
                ∀ ze, ze ∈ pick entry_of (concat (gos (PMakeReaders
                   (Z.quot (let fileSize := int64 (UncompressedSize64 header) in
                            if fileSize =? 0 then int64 (UncompressedSize header)
                            else fileSize) parallelBlockSize + 1) ::
                   PGo (crcFile r
                          (set_futureReaders
                             {| fh := SetModTime header (time z);
                                futureReaders := false;
                                allocatedSize := int64 (UncompressedSize64 header) |}
                             true)) :: rest ++ tl))) →
                      allocatedSize ze = int64 (UncompressedSize64 header)) as Hgen.
      { intros tl Hg Hm. split.
        - simpl. by rewrite pick_app, Hmem, Hm.
        - intros ze. unfold gos in *. simpl. rewrite !pick_app, Hg, app_nil_r.
          rewrite He, app_nil_r. by intros Hin%crcFile_entries. }
      destruct res0 as [[]|e]; intros [= <- <- <-].
      * eexists (_ :: _ :: rest ++ [PCloseReaders]).
        split; [by rewrite <- !app_assoc|]. by apply Hgen.
      * eexists (_ :: _ :: rest ++ []).
        split; [by rewrite app_nil_r, <- !app_assoc|]. by apply Hgen.
    + intros [= <- <- <-]. eexists [_]. split; [by rewrite <- !app_assoc|].
      split; [done|]. simpl. rewrite app_nil_r.
      intros ze H%compressWholeFile_entries. done.
  - apply step_mem.
  - intros zfault s n o op more Hr Hd H1 H2 H3 Ho Hb Hz.
    unfold step, writer_step. rewrite Hr, Hd, H1, H2, H3, Ho, Hb.
    destruct (Method (fh op) =? zip_Deflate); simpl; rewrite Hz;
      eexists; (split; [done|]); by destruct (futureReaders op).
Qed.
End MemoryLimiter.

(** C10 at the file [a.txt] of the sample files, and at the state of a run
    in which the writer is about to take the entry of that file. *)
Lemma C10_witness :
  let flags := sample_flags true "" in
  let p := @producer sample_lib flags sample_fs (sample_zipWriter true)
             [{| dest := "a.txt"; src := "a.txt"; zipMethod := zip_Deflate |};
              {| dest := "d/b.bin"; src := "d/b.bin"; zipMethod := zip_Deflate |}] in
  let s := run no_zfault (take 56 (rounds 10)) (start flags p) in
  let header := newFileHeader "a.txt" zip_Deflate 8 in
  let r := byteReaderCloser (bytes_of_string "aaaaaaaa") in
  (∃ s', step no_zfault s RunWriter = Some s' ∧
         memoryRateLimiter s' = mem_Finish (memoryRateLimiter s) 8) ∧
  (∃ rest,
     (@writeFileContents sample_lib header r (sample_zipWriter false) []).2
     = [] ++ [PSendOp empty_op; PCpuRequest; PMemRequest 8] ++ rest ∧
     pick mem_of rest = [] ∧
     ∀ ze, ze ∈ pick entry_of (concat (gos rest)) → allocatedSize ze = 8).
Proof.
  intros flags p s header r.
  destruct (@C10_memory_limiter_unbounded_and_symmetric sample_lib)
    as (_ & Hreq & _ & Hrel).
  split.
  - set (o := default empty_op (ops s !! 0%nat)).
    set (ze := {| fh := header; futureReaders := false; allocatedSize := 0 |}).
    refine (Hrel no_zfault s 0%nat o (default ze (head (buf (entry_chan o))))
              (tail (buf (entry_chan o))) _ _ _ _ _ _ _ _);
      vm_compute; reflexivity.
  - refine (Hreq header r (sample_zipWriter false) []
              (@writeFileContents sample_lib header r (sample_zipWriter false) []).1.1
              (@writeFileContents sample_lib header r (sample_zipWriter false) []).1.2
              _ _).
    vm_compute; reflexivity.
Defined.

(** ** Errors and the output file *)

Section Removal.
Context `{lib : Lib}.


End Removal.
(** * Further properties of the source *)

(** ** Extra fields *)

Lemma int_of_byte_of_int n : int_of_byte (byte_of_int n) = n mod 256.
Proof.
  unfold int_of_byte, byte_of_int.
  assert (0 <= n mod 256 < 256) as Hr by (apply Z.mod_pos_bound; lia).
  destruct (Byte.of_N (Z.to_N (n mod 256))) as [b|] eqn:Hb.
  - apply Byte.to_of_N in Hb. rewrite Hb. lia.
  - apply Byte.of_N_None_iff in Hb. lia.
Qed.

(** X1: whatever the header holds, [addExtraField] appends to [Extra] the two
    bytes of the field header, second byte first, two bytes of length and
    the data, and touches nothing else.  The length bytes are the length
    of the data in little-endian order up to 65535 bytes; beyond that they
    hold the length modulo 65536. *)
Theorem addExtraField_appends zipHeader h0 h1 data :
  ∃ lo hi,
    Extra (addExtraField zipHeader (h0, h1) data)
    = Extra zipHeader ++ [h1; h0; lo; hi] ++ data ∧
    int_of_byte lo + 256 * int_of_byte hi = len data mod 65536 ∧
    set_Extra (addExtraField zipHeader (h0, h1) data) (Extra zipHeader)
    = zipHeader.
Proof.
  exists (byte_of_int (Z.rem (len data) 256)),
         (byte_of_int (Z.quot (len data) 256)).
  split; [|split].
  - unfold addExtraField. simpl. by rewrite <- !app_assoc.
  - rewrite !int_of_byte_of_int.
    assert (0 <= len data) as Hl by (unfold len; lia).
    rewrite Z.rem_mod_nonneg, Z.quot_div_nonneg by lia.
    rewrite Z.mod_mod by lia.
    pose proof (Z.div_mod (len data) 256 ltac:(lia)).
    pose proof (Z.div_mod (len data / 256) 256 ltac:(lia)).
    pose proof (Z.mod_pos_bound (len data) 256 ltac:(lia)).
    pose proof (Z.mod_pos_bound (len data / 256) 256 ltac:(lia)).
    apply Z.mod_unique_pos with (q := len data / 256 / 256); lia.
  - unfold addExtraField, set_Extra. by destruct zipHeader.
Qed.
(** ** The files not to deflate *)

Lemma Set_each_uniqueSet u l u' :
  Set_each uniqueSet_Set u l = inr u' ↔
  NoDup l ∧ (∀ s, s ∈ l → u !! s = None) ∧
  u' = foldl (λ m s, <[s := true]> m) u l.
Proof.
  revert u. induction l as [|s l IH]; intros u; simpl.
  - split.
    + intros [= <-]. split; [constructor|]. split; [|done].
      by intros s Hs%elem_of_nil.
    + by intros (_ & _ & ->).
  - unfold uniqueSet_Set at 1. destruct (u !! s) eqn:Hs.
    + split; [done|]. intros (_ & Hn & _).
      rewrite Hn in Hs by left. done.
    + rewrite IH. split.
      * intros (Hnd & Hn & ->). split; [|split; [|done]].
        -- constructor; [|done]. intros Hin. specialize (Hn s Hin).
           by rewrite lookup_insert_eq in Hn.
        -- intros s' [->|Hin]%elem_of_cons; [done|].
           specialize (Hn s' Hin).
           destruct (decide (s = s')) as [->|Hne];
             [by rewrite lookup_insert_eq in Hn|
              by rewrite lookup_insert_ne in Hn].
      * intros (Hnd & Hn & ->). apply NoDup_cons in Hnd as [Hs' Hnd].
        split; [done|]. split; [|done].
        intros s' Hin. rewrite lookup_insert_ne by (by intros ->).
        apply Hn. by right.
Qed.

Lemma foldl_insert_true (u : uniqueSet) l s :
  is_Some (foldl (λ m s, <[s := true]> m) u l !! s) ↔ s ∈ l ∨ is_Some (u !! s).
Proof.
  revert u. induction l as [|x l IH]; intros u; simpl.
  - rewrite elem_of_nil. tauto.
  - rewrite IH, elem_of_cons. destruct (decide (x = s)) as [->|Hne].
    + rewrite lookup_insert_eq. split; [auto|eauto].
    + rewrite lookup_insert_ne by done. split; [tauto|].
      intros [[?|?]|?]; [done|auto|auto].
Qed.

(** X2: the [-s] arguments are accepted exactly when no path comes twice, and
    then the files not to deflate are these paths; at a repeated path the
    parse ends with the error that names it. *)
Theorem uniqueSet_accepts_distinct (l : list string) :
  (NoDup l →
   ∃ u, Set_each uniqueSet_Set ∅ l = inr u ∧
        ∀ s, is_Some (u !! s) ↔ s ∈ l) ∧
  (¬ NoDup l →
   ∃ s, Set_each uniqueSet_Set ∅ l = inl (specified_twice s) ∧
        ∃ l1 l2 l3, l = l1 ++ s :: l2 ++ s :: l3).
Proof.
  split.
  - intros Hnd. eexists. split.
    + apply Set_each_uniqueSet. split; [done|]. split; [|done].
      intros s _. apply lookup_empty.
    + intros s. rewrite foldl_insert_true, lookup_empty.
      split; [intros [?|[? ?]]; done|auto].
  - assert (∀ (u : uniqueSet) pre,
              (∀ s, is_Some (u !! s) ↔ s ∈ pre) → NoDup pre →
              ¬ NoDup (pre ++ l) →
              ∃ s, Set_each uniqueSet_Set u l = inl (specified_twice s) ∧
                   ∃ l1 l2 l3, pre ++ l = l1 ++ s :: l2 ++ s :: l3) as Hgen.
    { induction l as [|x l IH]; intros u pre Hu Hpre Hnd.
      - by rewrite app_nil_r in Hnd.
      - simpl. unfold uniqueSet_Set at 1. destruct (u !! x) eqn:Hx.
        + exists x. split; [done|].
          assert (x ∈ pre) as Hin by (apply Hu; eauto).
          apply list_elem_of_split in Hin as (l1 & l2 & ->).
          exists l1, l2, l. by rewrite <- app_assoc.
        + destruct (IH (<[x := true]> u) (pre ++ [x])) as (s & Hs & Hsplit).
          * intros s. rewrite elem_of_app, list_elem_of_singleton, <- Hu.
            destruct (decide (x = s)) as [->|Hne].
            -- rewrite lookup_insert_eq. split; [auto|eauto].
            -- rewrite lookup_insert_ne by done. split; [tauto|].
               intros [?|?]; [done|done].
          * apply NoDup_app. split; [done|]. split; [|apply NoDup_singleton].
            intros y Hy ->%list_elem_of_singleton.
            apply Hu in Hy as [? Hy]. by rewrite Hx in Hy.
          * by rewrite <- app_assoc.
          * exists s. split; [done|]. by rewrite <- app_assoc in Hsplit. }
    intros Hnd. apply (Hgen ∅ []); [|constructor|done].
    intros s. rewrite lookup_empty, elem_of_nil. split; [by intros [? ?]|done].
Qed.

Lemma uniqueSet_accepts_distinct_witness :
  (∃ u, Set_each uniqueSet_Set ∅ ["a.png"; "b.png"] = inr u ∧
        ∀ s, is_Some (u !! s) ↔ s ∈ ["a.png"; "b.png"]) ∧
  (∃ s, Set_each uniqueSet_Set ∅ ["a.png"; "b.png"; "a.png"]
        = inl (specified_twice s) ∧
        ∃ l1 l2 l3, ["a.png"; "b.png"; "a.png"] = l1 ++ s :: l2 ++ s :: l3).
Proof.
  split.
  - apply (proj1 (uniqueSet_accepts_distinct ["a.png"; "b.png"])).
    exact (bool_decide_unpack (NoDup ["a.png"; "b.png"]) I).
  - apply (proj2 (uniqueSet_accepts_distinct ["a.png"; "b.png"; "a.png"])).
    exact (bool_decide_unpack (¬ NoDup ["a.png"; "b.png"; "a.png"]) I).
Defined.
(** ** From the arguments to the path mappings *)

Lemma Clean_nonempty path : filepath.Clean path ≠ "".
Proof.
  unfold filepath.Clean.
  pose proof (filepath_facts.fold_push_kept (filepath.rooted path)
                (filepath.split path) []
                (filepath_facts.split_from_no_slash path "" eq_refl)
                (Forall_nil_2 _)) as Hk.
  apply Forall_rev in Hk.
  destruct (rev _) as [|e es] eqn:E.
  - by destruct (filepath.rooted path).
  - destruct (filepath_facts.join_ends (e :: es)) as [H1 _]; [done|done|].
    destruct (filepath.rooted path); [done|].
    simpl. done.
Qed.

Section Arguments.
Context `{lib : Lib}.

Lemma fillSources_app nd fa l1 l2 pm :
  fillSources nd fa (l1 ++ l2) pm
  = match fillSources nd fa l1 pm with
    | Err e => Err e
    | Ok pm1 => fillSources nd fa l2 pm1
    end.
Proof.
  revert pm. induction l1 as [|s l1 IH]; intros pm; simpl; [done|].
  destruct (fillPathPairs _ _ _ _ _); [apply IH|done].
Qed.

Lemma fillArgs_app nd fs a1 a2 pm :
  fillArgs nd fs (a1 ++ a2) pm
  = match fillArgs nd fs a1 pm with
    | Err e => Err e
    | Ok pm1 => fillArgs nd fs a2 pm1
    end.
Proof.
  revert pm. induction a1 as [|fa a1 IH]; intros pm; simpl; [done|].
  destruct (fillSources _ _ _ _); [apply IH|done].
Qed.

Lemma fillArgs_one nd fs fa pm :
  fillArgs nd fs [fa] pm = fillSources nd fa (arg_sources fs fa) pm.
Proof.
  simpl. fold (arg_sources fs fa). by destruct (fillSources _ _ _ _).
Qed.

Lemma fillSources_prefixes nd fa fa' srcs pm :
  pathPrefixInZip fa = pathPrefixInZip fa' →
  sourcePrefixToStrip fa = sourcePrefixToStrip fa' →
  fillSources nd fa srcs pm = fillSources nd fa' srcs pm.
Proof.
  intros H1 H2. revert pm. induction srcs as [|s srcs IH]; intros pm; simpl;
    [done|].
  rewrite H1, H2. destruct (fillPathPairs _ _ _ _ _); [apply IH|done].
Qed.

Lemma fillSources_mappings nd fa srcs pm pm' :
  fillSources nd fa srcs pm = Ok pm' →
  ∃ new, pm' = pm ++ new ∧
    Forall2 (λ x m, mapping_of nd x.1 x.2 m)
      (filter (λ x, TrimSpace x.2 ≠ "") (map (pair fa) srcs)) new.
Proof.
  revert pm. induction srcs as [|s srcs IH]; intros pm; simpl.
  - intros [= <-]. exists []. by rewrite app_nil_r.
  - unfold fillPathPairs at 1. destruct (String.eqb (TrimSpace s) "") eqn:Hs.
    + apply String.eqb_eq in Hs. intros (new & -> & Hnew)%IH.
      exists new. split; [done|]. by rewrite filter_cons_False by (simpl; auto).
    + apply String.eqb_neq in Hs.
      destruct (Rel _ _) as [d|e] eqn:Hrel; [|done].
      intros (new & -> & Hnew)%IH. eexists (_ :: new).
      rewrite <- app_assoc. split; [done|].
      rewrite filter_cons_True by done. constructor; [|done].
      split; [done|]. split; [by exists d|]. simpl.
      destruct (nd !! Join (pathPrefixInZip fa) d) eqn:Hnd.
      * by destruct (decide _) as [|[]]; [|eauto].
      * destruct (decide _) as [[? ?]|]; [done|done].
Qed.

(** X3: when [main] has filled [pathMappings] without an error, it holds,
    in the order of the arguments and of their sources, one mapping for
    each source that is not blank, and nothing else: the cleaned source,
    mapped under [-P] to its path relative to [-C], to be stored exactly
    when that destination was given with [-s]. *)
Theorem fillArgs_mappings nd fs fArgs pm pm' :
  fillArgs nd fs fArgs pm = Ok pm' →
  ∃ new, pm' = pm ++ new ∧
    Forall2 (λ x m, mapping_of nd x.1 x.2 m) (nonblank_sources fs fArgs) new.
Proof.
  unfold nonblank_sources.
  revert pm. induction fArgs as [|fa fArgs IH]; intros pm.
  - intros [= <-]. exists []. by rewrite app_nil_r.
  - change (fa :: fArgs) with ([fa] ++ fArgs).
    rewrite fillArgs_app, fillArgs_one.
    destruct (fillSources _ _ _ _) as [pm1|] eqn:H1; [|done].
    apply fillSources_mappings in H1 as (n1 & -> & Hn1).
    intros (n2 & -> & Hn2)%IH. exists (n1 ++ n2).
    rewrite <- app_assoc. split; [done|].
    simpl. rewrite filter_app. by apply Forall2_app.
Qed.

(** X4: a list file given with [-l] stands for its lines given with [-f]
    one by one: [listFiles.Set] succeeds when [-C] was given and the file
    can be read, and then [main] fills the same path mappings as after
    [file.Set] on each line in turn. *)
Theorem listFiles_as_files fs rootPrefix relativeRoot fArgs s fArgs1 :
  listFiles_Set fs rootPrefix relativeRoot fArgs s = inr fArgs1 →
  ∃ content fArgs2,
    relativeRoot ≠ "" ∧ ReadFile fs s = Ok content ∧
    Set_each (file_Set rootPrefix relativeRoot) fArgs
      (strings_Split (string_of_list_byte content) "010") = inr fArgs2 ∧
    ∀ nd pm, fillArgs nd fs fArgs1 pm = fillArgs nd fs fArgs2 pm.
Proof.
  unfold listFiles_Set. destruct (String.eqb relativeRoot "") eqn:Hc; [done|].
  apply String.eqb_neq in Hc.
  destruct (ReadFile fs s) as [content|]; [|done]. intros [= <-].
  exists content. generalize (strings_Split (string_of_list_byte content) "010").
  intros lines.
  set (one := λ srcs, {| pathPrefixInZip := filepath.Clean rootPrefix;
                         sourcePrefixToStrip := filepath.Clean relativeRoot;
                         sourceFiles := srcs; globDir := "" |}).
  assert (∀ fArgs, Set_each (file_Set rootPrefix relativeRoot) fArgs lines
                   = inr (fArgs ++ map (λ l, one [l]) lines)) as Hset.
  { induction lines as [|l lines IH]; intros fa0; simpl.
    - by rewrite app_nil_r.
    - unfold file_Set at 1. apply String.eqb_neq in Hc. rewrite Hc.
      rewrite IH, <- app_assoc. done. }
  exists (fArgs ++ map (λ l, one [l]) lines). split; [done|]. split; [done|].
  split; [apply Hset|]. intros nd pm. rewrite !fillArgs_app.
  destruct (fillArgs nd fs fArgs pm) as [pm1|]; [|done].
  fold (one lines). rewrite fillArgs_one. unfold arg_sources. simpl.
  generalize lines at 1. intros xs.
  clear. revert pm1. induction lines as [|l lines IH]; intros pm; [done|].
  change (map (λ l, one [l]) (l :: lines))
    with ([one [l]] ++ map (λ l, one [l]) lines).
  rewrite fillArgs_app, fillArgs_one. unfold arg_sources. simpl.
  destruct (fillPathPairs _ _ _ _ _); [apply IH|done].
Qed.

(** X5: [dir.Set] cleans the directory, so that [globDir] is never empty
    and [main] always walks it, even for [-D ""]: the argument stands for
    a list of the files that the walk finds. *)
Theorem dir_as_walk fs rootPrefix relativeRoot fArgs s fArgs1 :
  dir_Set rootPrefix relativeRoot fArgs s = inr fArgs1 →
  relativeRoot ≠ "" ∧
  ∀ nd pm,
    fillArgs nd fs fArgs1 pm
    = fillArgs nd fs
        (fArgs ++
         [{| pathPrefixInZip := filepath.Clean rootPrefix;
             sourcePrefixToStrip := filepath.Clean relativeRoot;
             sourceFiles := recursiveGlobFiles fs (filepath.Clean s);
             globDir := "" |}]) pm.
Proof.
  unfold dir_Set. destruct (String.eqb relativeRoot "") eqn:Hc; [done|].
  apply String.eqb_neq in Hc. intros [= <-]. split; [done|].
  intros nd pm. rewrite !fillArgs_app.
  destruct (fillArgs nd fs fArgs pm) as [pm1|]; [|done].
  rewrite !fillArgs_one. unfold arg_sources. simpl.
  pose proof (Clean_nonempty s) as Hne. apply String.eqb_neq in Hne.
  rewrite Hne. simpl. by apply fillSources_prefixes.
Qed.

End Arguments.

Lemma fillArgs_mappings_witness :
  let fArgs :=
    [{| pathPrefixInZip := "."; sourcePrefixToStrip := ".";
        sourceFiles := ["a.txt"; ""; "d/b.bin"]; globDir := "" |}] in
  let nd : uniqueSet := {[ "d/b.bin" := true ]} in
  ∃ new,
    [{| dest := "a.txt"; src := "a.txt"; zipMethod := zip_Deflate |};
     {| dest := "d/b.bin"; src := "d/b.bin"; zipMethod := zip_Store |}]
    = [] ++ new ∧
    Forall2 (λ x m, @mapping_of sample_lib nd x.1 x.2 m)
      (@nonblank_sources sample_lib sample_fs fArgs) new.
Proof.
  intros fArgs nd.
  apply (@fillArgs_mappings sample_lib nd sample_fs fArgs []).
  vm_compute. reflexivity.
Defined.

Lemma listFiles_as_files_witness :
  ∃ content fArgs2,
    "." ≠ "" ∧ ReadFile listing_fs "files.list" = Ok content ∧
    Set_each (file_Set "" ".") []
      (strings_Split (string_of_list_byte content) "010") = inr fArgs2 ∧
    ∀ nd pm,
      @fillArgs sample_lib nd listing_fs
        [{| pathPrefixInZip := "."; sourcePrefixToStrip := ".";
            sourceFiles := ["a.txt"; "d/b.bin"; ""]; globDir := "" |}] pm
      = @fillArgs sample_lib nd listing_fs fArgs2 pm.
Proof.
  apply (@listFiles_as_files sample_lib listing_fs "" "." [] "files.list").
  vm_compute. reflexivity.
Defined.

Lemma dir_as_walk_witness :
  "." ≠ "" ∧
  ∀ nd pm,
    @fillArgs sample_lib nd listing_fs
      [{| pathPrefixInZip := "."; sourcePrefixToStrip := ".";
          sourceFiles := []; globDir := "d" |}] pm
    = @fillArgs sample_lib nd listing_fs
        ([] ++
         [{| pathPrefixInZip := filepath.Clean "";
             sourcePrefixToStrip := filepath.Clean ".";
             sourceFiles := recursiveGlobFiles listing_fs (filepath.Clean "d/");
             globDir := "" |}]) pm.
Proof.
  apply (@dir_as_walk sample_lib listing_fs "" "." [] "d/").
  vm_compute. reflexivity.
Defined.
(** ** The jar order *)

Section JarSort.
Context `{lib : Lib}.

Lemma jarInsert_perm m sorted : jarInsert m sorted ≡ₚ m :: sorted.
Proof.
  induction sorted as [|m' rest IH]; simpl; [done|].
  destruct (EntryNamesLess (dest m') (dest m)); [|done].
  rewrite IH. apply Permutation_swap.
Qed.

Lemma jarSort_perm mappings : jarSort mappings ≡ₚ mappings.
Proof.
  induction mappings as [|m rest IH]; simpl; [done|].
  fold (jarSort rest). by rewrite jarInsert_perm, IH.
Qed.

(** X6: [jarSort] and the mappings of the loop lose and repeat nothing:
    the sorted mappings are the given ones in another order, and the loop
    of [write] ranges over the given mappings and the manifest, if there is
    one. *)
Theorem loop_mappings_permutation flags pathMappings manifest :
  jarSort pathMappings ≡ₚ pathMappings ∧
  loop_mappings flags pathMappings manifest
  ≡ₚ pathMappings ++
     (if String.eqb manifest "" then []
      else [{| dest := manifestDest; src := manifest;
               zipMethod := zip_Deflate |}]).
Proof.
  split; [apply jarSort_perm|].
  unfold loop_mappings.
  destruct (String.eqb manifest ""); simpl; rewrite ?app_nil_r;
    destruct (flag_emulateJar flags); try done; apply jarSort_perm.
Qed.

Section Ranked.
Hypothesis less_asym : ∀ a b,
  EntryNamesLess a b = true → EntryNamesLess b a = false.
Hypothesis less_negtrans : ∀ a b c,
  EntryNamesLess a b = false → EntryNamesLess b c = false →
  EntryNamesLess a c = false.

Lemma jarInsert_sorted m sorted :
  StronglySorted (λ a b, EntryNamesLess (dest b) (dest a) = false) sorted →
  StronglySorted (λ a b, EntryNamesLess (dest b) (dest a) = false)
    (jarInsert m sorted).
Proof.
  induction 1 as [|m' rest Hs IH Hall]; simpl.
  - repeat constructor.
  - destruct (EntryNamesLess (dest m') (dest m)) eqn:Hl.
    + constructor; [done|]. rewrite jarInsert_perm.
      constructor; [by apply less_asym|done].
    + constructor; [by constructor|]. constructor; [done|].
      eapply Forall_impl; [exact Hall|]. simpl. intros x Hx.
      by apply (less_negtrans _ (dest m')).
Qed.

Lemma jarInsert_filter (d : string) m sorted :
  filter (λ x, EntryNamesLess (dest x) d = false ∧
               EntryNamesLess d (dest x) = false) (jarInsert m sorted)
  = filter (λ x, EntryNamesLess (dest x) d = false ∧
                 EntryNamesLess d (dest x) = false) (m :: sorted).
Proof.
  induction sorted as [|m' rest IH]; simpl; [done|].
  destruct (EntryNamesLess (dest m') (dest m)) eqn:Hl; [|done].
  rewrite filter_cons, IH, !filter_cons.
  destruct (decide (EntryNamesLess (dest m') d = false ∧
                    EntryNamesLess d (dest m') = false)) as [[H1 H2]|];
    [|done].
  destruct (decide (EntryNamesLess (dest m) d = false ∧
                    EntryNamesLess d (dest m) = false)) as [[H3 H4]|];
    [|done].
  by rewrite (less_negtrans _ _ _ H1 H4) in Hl.
Qed.

(** X7: when [jar.EntryNamesLess] ranks the names (it is asymmetric, and
    names that it does not tell apart from a third are not told apart from
    each other), the mappings come out of [jarSort] in the order of their
    rank, none before one of a lower rank, and those of one rank in the
    order in which they were given. *)
Theorem jarSort_sorted_stable mappings :
  StronglySorted (λ a b, EntryNamesLess (dest b) (dest a) = false)
    (jarSort mappings) ∧
  ∀ d, filter (λ x, EntryNamesLess (dest x) d = false ∧
                    EntryNamesLess d (dest x) = false) (jarSort mappings)
       = filter (λ x, EntryNamesLess (dest x) d = false ∧
                      EntryNamesLess d (dest x) = false) mappings.
Proof.
  split.
  - induction mappings as [|m rest IH]; simpl; [constructor|].
    by apply jarInsert_sorted.
  - intros d. induction mappings as [|m rest IH]; simpl; [done|].
    fold (jarSort rest). by rewrite jarInsert_filter, !filter_cons, IH.
Qed.

End Ranked.
End JarSort.

Lemma jarSort_sorted_stable_witness :
  let ms := [{| dest := "bb"; src := "1"; zipMethod := 8 |};
             {| dest := "a"; src := "2"; zipMethod := 8 |};
             {| dest := "cc"; src := "3"; zipMethod := 8 |}] in
  StronglySorted (λ a b, @EntryNamesLess by_length_lib (dest b) (dest a) = false)
    (@jarSort by_length_lib ms) ∧
  ∀ d, filter (λ x, @EntryNamesLess by_length_lib (dest x) d = false ∧
                    @EntryNamesLess by_length_lib d (dest x) = false)
         (@jarSort by_length_lib ms)
       = filter (λ x, @EntryNamesLess by_length_lib (dest x) d = false ∧
                      @EntryNamesLess by_length_lib d (dest x) = false) ms.
Proof.
  intros ms. apply (@jarSort_sorted_stable by_length_lib).
  - intros a b. simpl. rewrite Nat.ltb_lt, Nat.ltb_ge. lia.
  - intros a b c. simpl. rewrite !Nat.ltb_ge. lia.
Defined.
(** ** Directories *)

Lemma parents_first_snoc new dir :
  parents_first new → new = [] ∨ last new = Some (filepath.Dir dir) →
  parents_first (new ++ [dir]).
Proof.
  induction new as [|p new IH]; intros Hp Hl; [done|].
  destruct new as [|c new].
  - simpl. destruct Hl as [|[= ->]]; done.
  - destruct Hp as [-> Hp]. split; [done|]. apply IH; [done|].
    right. by destruct Hl.
Qed.

Lemma for_each_emit {A} (f : A → peff) l z t :
  for_each l (λ x, emit (f x)) z t = (Ok tt, z, t ++ map f l).
Proof.
  revert t. induction l as [|x l IH]; intros t; simpl.
  - by rewrite app_nil_r.
  - unfold bind, emit at 1. by rewrite IH, <- app_assoc.
Qed.

Lemma discover_spec fuel src dir zipDirs z t d zd z' t' :
  discover fuel src dir zipDirs z t = (Ok (d, zd), z', t') →
  ∃ new,
    zd = new ++ zipDirs ∧ z' = with_dirs z new src ∧ t' = t ∧
    NoDup new ∧
    Forall (λ x, createdDirs z !! x = None ∧ createdFiles z !! x = None) new ∧
    parents_first new ∧ (new = [] ∨ last new = Some dir) ∧
    (fuel ≠ 0%nat → new = [] →
     dir = "" ∨ dir = "." ∨ is_Some (createdDirs z !! dir)).
Proof.
  revert dir zipDirs z.
  induction fuel as [|fuel IH]; intros dir zipDirs z; simpl.
  - unfold ret. intros [= <- <- <- <-]. exists [].
    split; [done|]. split; [by destruct z|]. split; [done|].
    split; [constructor|]. split; [constructor|]. split; [done|].
    split; [by left|]. done.
  - destruct (negb (String.eqb dir "") && negb (String.eqb dir ".")) eqn:Hc.
    + unfold bind, get. destruct (createdDirs z !! dir) eqn:Hd.
      { unfold ret. intros [= <- <- <- <-]. exists [].
        split; [done|]. split; [by destruct z|]. split; [done|].
        split; [constructor|]. split; [constructor|]. split; [done|].
        split; [by left|]. intros _ _. right. right. eauto. }
      destruct (createdFiles z !! dir) eqn:Hf; [done|].
      unfold put. intros H.
      apply IH in H as (new & -> & -> & -> & Hnd & Hall & Hp & Hl & _).
      exists (new ++ [dir]). rewrite <- app_assoc. split; [done|].
      split; [unfold with_dirs; simpl; by rewrite foldr_app|].
      split; [done|].
      assert (Forall (λ x, createdDirs z !! x = None ∧
                           createdFiles z !! x = None ∧ x ≠ dir) new) as Hall'.
      { eapply Forall_impl; [exact Hall|]. simpl. intros x [H1 H2].
        destruct (decide (dir = x)) as [->|Hne].
        - by rewrite lookup_insert_eq in H1.
        - by rewrite lookup_insert_ne in H1. }
      split; [|split; [|split; [|split]]].
      * apply NoDup_app. split; [done|]. split; [|apply NoDup_singleton].
        intros x Hx ->%list_elem_of_singleton.
        by destruct (proj1 (Forall_forall _ _) Hall' _ Hx) as (_ & _ & ?).
      * apply Forall_app. split; [|by repeat constructor].
        eapply Forall_impl; [exact Hall'|]. simpl. tauto.
      * by apply parents_first_snoc.
      * right. by rewrite last_snoc.
      * intros _ Hnil. by destruct new.
    + unfold ret. intros [= <- <- <- <-]. exists [].
      split; [done|]. split; [by destruct z|]. split; [done|].
      split; [constructor|]. split; [constructor|]. split; [done|].
      split; [by left|].
      intros _ _. apply andb_false_iff in Hc as [Hc|Hc];
        apply negb_false_iff, String.eqb_eq in Hc; auto.
Qed.

(** What a call of [writeDirectory] that returns nil has done, in the
    form in which the lemmas on [addFile] use it. *)
Lemma writeDirectory_spec flags dir src z t z' t' :
  writeDirectory flags dir src z t = (Ok tt, z', t') →
  ∃ new,
    z' = with_dirs z new src ∧
    t' = t ++ (if directories z then map (dir_step z) new else []) ∧
    NoDup new ∧
    Forall (λ x, createdDirs z !! x = None ∧ createdFiles z !! x = None) new ∧
    parents_first new ∧
    (new = [] ∨ last new = Some (filepath.Clean dir)) ∧
    (filepath.Clean dir = "." ∨
     is_Some (createdDirs z' !! filepath.Clean dir)).
Proof.
  unfold writeDirectory, bind.
  destruct (discover _ src (filepath.Clean dir) [] z t)
    as [[[[d zd]|e] z1] t1] eqn:Hd; [|done].
  pose proof Hd as [_ Hclean]%discover_dir.
  apply discover_spec in Hd
    as (new & -> & -> & -> & Hnd & Hall & Hp & Hl & Hfirst).
  rewrite app_nil_r.
  assert (String.eqb d "META-INF/" = false) as Hne.
  { apply String.eqb_neq. destruct Hclean as [->|[x ->]];
      apply filepath_facts.Clean_not_META_INF. }
  unfold get. rewrite Hne, andb_false_r.
  replace (directories (with_dirs z new src)) with (directories z) by done.
  replace (λ cleanDir, emit (PSendOp _)) with (λ cleanDir, emit (dir_step z cleanDir))
    by done.
  assert (∀ zz tt rr zz' tt',
            (if directories z
             then for_each new (λ cleanDir, emit (dir_step z cleanDir))
             else ret ()) zz tt = (rr, zz', tt') →
            rr = Ok () ∧ zz' = zz ∧
            tt' = tt ++ (if directories z then map (dir_step z) new else []))
    as Hloop.
  { intros zz tt rr zz' tt'. destruct (directories z).
    - clear. revert tt. induction new as [|x new IH]; intros tt; simpl.
      + unfold ret. intros [= <- <- <-]. by rewrite app_nil_r.
      + unfold bind, emit at 1. intros (-> & -> & ->)%IH.
        by rewrite <- app_assoc.
    - unfold ret. intros [= <- <- <-]. by rewrite app_nil_r. }
  intros (_ & -> & ->)%Hloop.
  exists new. repeat split; try done.
  destruct new as [|x new'] eqn:Hnew.
  - destruct Hfirst as [H|[H|H]]; [lia|done| |auto|].
    + by destruct (Clean_nonempty dir).
    + right. by unfold with_dirs.
  - right. rewrite <- Hnew in *. destruct Hl as [->|Hl]; [done|].
    unfold with_dirs. simpl.
    apply last_Some in Hl as [l' ->]. rewrite foldr_app. simpl.
    clear. induction l' as [|y l' IH]; simpl.
    + rewrite lookup_insert_eq. eauto.
    + destruct (decide (y = filepath.Clean dir)) as [->|Hne].
      * rewrite lookup_insert_eq. eauto.
      * by rewrite lookup_insert_ne.
Qed.

(** X8: a call of [writeDirectory] that returns nil has created, for
    [src], the directories of a chain that ends in the cleaned [dir], each
    the parent of the next, none of them created before; it has changed
    nothing else, and with [-d] it has sent one entry for each, parents
    first, named with a closing slash, with the mode of a directory and no
    extra field.  The cleaned [dir] is then a created directory unless it
    is the dot. *)
Theorem writeDirectory_creates flags dir src z t z' t' :
  writeDirectory flags dir src z t = (Ok tt, z', t') →
  ∃ new,
    z' = with_dirs z new src ∧
    t' = t ++ (if directories z then map (dir_step z) new else []) ∧
    NoDup new ∧
    Forall (λ x, createdDirs z !! x = None ∧ createdFiles z !! x = None) new ∧
    parents_first new ∧
    (new = [] ∨ last new = Some (filepath.Clean dir)) ∧
    (filepath.Clean dir = "." ∨
     is_Some (createdDirs z' !! filepath.Clean dir)).
Proof. apply writeDirectory_spec. Qed.

Lemma writeDirectory_creates_witness :
  let z := sample_zipWriter true in
  let run := writeDirectory (sample_flags true "") "lib/x/" "lib/x/a.txt" z [] in
  ∃ new,
    run.1.2 = with_dirs z new "lib/x/a.txt" ∧
    run.2 = [] ++ (if directories z then map (dir_step z) new else []) ∧
    NoDup new ∧
    Forall (λ x, createdDirs z !! x = None ∧ createdFiles z !! x = None) new ∧
    parents_first new ∧
    (new = [] ∨ last new = Some (filepath.Clean "lib/x/")) ∧
    (filepath.Clean "lib/x/" = "." ∨
     is_Some (createdDirs run.1.2 !! filepath.Clean "lib/x/")).
Proof.
  intros z run.
  apply (writeDirectory_creates (sample_flags true "") "lib/x/" "lib/x/a.txt"
           z [] run.1.2 run.2).
  vm_compute. reflexivity.
Defined.

Lemma writeDirectory_created flags dir src z t :
  filepath.Clean dir = "." ∨ is_Some (createdDirs z !! filepath.Clean dir) →
  writeDirectory flags dir src z t = (Ok tt, z, t).
Proof.
  intros H. unfold writeDirectory.
  rewrite Nat.add_comm. cbn [Nat.add discover].
  destruct H as [->|[prev H]].
  - unfold bind, ret, get. simpl. by destruct (directories z).
  - destruct (negb (String.eqb (filepath.Clean dir) "") &&
              negb (String.eqb (filepath.Clean dir) ".")).
    + unfold bind, get at 1. rewrite H. unfold ret, get.
      by destruct (directories z).
    + unfold bind, ret, get. by destruct (directories z).
Qed.

(** X9: no directory gets two entries: once [writeDirectory] has
    returned nil for a directory, a later call for the same directory, for
    whatever source, creates nothing and sends nothing. *)
Theorem writeDirectory_once flags dir src z t z' t' :
  writeDirectory flags dir src z t = (Ok tt, z', t') →
  ∀ src2 t2, writeDirectory flags dir src2 z' t2 = (Ok tt, z', t2).
Proof.
  intros (new & _ & _ & _ & _ & _ & _ & H)%writeDirectory_spec src2 t2.
  by apply writeDirectory_created.
Qed.

Lemma writeDirectory_once_witness :
  let z := sample_zipWriter true in
  let run := writeDirectory (sample_flags true "") "lib/x/" "lib/x/a.txt" z [] in
  writeDirectory (sample_flags true "") "lib/x/" "lib/x/b.txt" run.1.2 run.2
  = (Ok tt, run.1.2, run.2).
Proof.
  intros z run.
  apply (writeDirectory_once (sample_flags true "") "lib/x/" "lib/x/a.txt"
           z [] run.1.2 run.2).
  vm_compute. reflexivity.
Defined.

Lemma discover_error fuel src dir zipDirs z t e z' t' :
  discover fuel src dir zipDirs z t = (Err e, z', t') →
  t' = t ∧ createdFiles z' = createdFiles z ∧
  ∃ d prev, e = dir_and_file d src prev ∧ createdFiles z !! d = Some prev ∧
            createdDirs z !! d = None.
Proof.
  revert dir zipDirs z.
  induction fuel as [|fuel IH]; intros dir zipDirs z; simpl; [done|].
  destruct (negb (String.eqb dir "") && negb (String.eqb dir ".")); [|done].
  unfold bind, get. destruct (createdDirs z !! dir) eqn:Hd; [done|].
  destruct (createdFiles z !! dir) as [prev|] eqn:Hf.
  - unfold fail. intros [= <- <- <-]. split; [done|]. split; [done|].
    by exists dir, prev.
  - unfold put. intros (-> & Hfiles & d & prev & -> & H1 & H2)%IH.
    split; [done|]. split; [done|]. exists d, prev. split; [done|].
    split; [done|]. simpl in H2.
    destruct (decide (dir = d)) as [->|Hne].
    + by rewrite lookup_insert_eq in H2.
    + by rewrite lookup_insert_ne in H2.
Qed.

(** The error of [writeDirectory], in the form in which the lemmas on
    [addFile] use it. *)
Lemma writeDirectory_error flags dir src z t e z' t' :
  writeDirectory flags dir src z t = (Err e, z', t') →
  t' = t ∧ createdFiles z' = createdFiles z ∧
  ∃ d prev, e = dir_and_file d src prev ∧ createdFiles z !! d = Some prev ∧
            createdDirs z !! d = None.
Proof.
  unfold writeDirectory, bind.
  destruct (discover _ src (filepath.Clean dir) [] z t)
    as [[[[d zd]|e'] z1] t1] eqn:Hd.
  - unfold get. destruct (directories _); [|done].
    by rewrite for_each_emit.
  - intros [= <- <- <-]. by apply discover_error in Hd.
Qed.

(** X10: [writeDirectory] fails for one reason only: a path on the way up
    from [dir] that is no created directory is the destination of a file
    added before.  The error names that path, the source and the file; no
    entry has been sent and the destinations of files are as they were. *)
Theorem writeDirectory_fails flags dir src z t e z' t' :
  writeDirectory flags dir src z t = (Err e, z', t') →
  t' = t ∧ createdFiles z' = createdFiles z ∧
  ∃ d prev, e = dir_and_file d src prev ∧ createdFiles z !! d = Some prev ∧
            createdDirs z !! d = None.
Proof. apply writeDirectory_error. Qed.

Lemma writeDirectory_fails_witness :
  let z := set_createdFiles (sample_zipWriter true) {[ "lib" := "lib" ]} in
  let run := writeDirectory (sample_flags true "") "lib/x" "lib/x/a.txt" z [] in
  run.2 = [] ∧ createdFiles run.1.2 = createdFiles z ∧
  ∃ d prev, dir_and_file "lib" "lib/x/a.txt" "lib"
            = dir_and_file d "lib/x/a.txt" prev ∧
            createdFiles z !! d = Some prev ∧ createdDirs z !! d = None.
Proof.
  intros z run.
  apply (writeDirectory_fails (sample_flags true "") "lib/x" "lib/x/a.txt"
           z [] _ run.1.2 run.2).
  vm_compute. reflexivity.
Defined.
(** ** The steps for one file *)

Lemma chan_effs_no_entry seg : pick entry_of (chan_effs seg) = [].
Proof.
  unfold chan_effs. induction seg as [|[] seg IH]; simpl; done.
Qed.

Lemma E_threads seg :
  E empty_op (threads empty_op seg) = pick entry_of (concat (gos seg)).
Proof.
  unfold E, threads. simpl. rewrite concat_app, pick_app. simpl.
  by rewrite app_nil_r, chan_effs_no_entry, app_nil_r.
Qed.

Section FileSteps.
Context `{lib : Lib}.

Lemma compressWholeFile_same z ze r ze' :
  ze' ∈ pick entry_of (compressWholeFile z ze r) →
  same_file (fh ze) (fh ze').
Proof.
  unfold compressWholeFile, readFile, read.
  repeat case_match; simpl; intros Hin;
    repeat (apply elem_of_cons in Hin as [->|Hin]);
    try done; by apply elem_of_nil in Hin.
Qed.

Lemma crcFile_same r ze ze' :
  ze' ∈ pick entry_of (crcFile r ze) → same_file (fh ze) (fh ze').
Proof.
  unfold crcFile. destruct (fault r crc_read); simpl; intros Hin;
    repeat (apply elem_of_cons in Hin as [->|Hin]);
    try done; by apply elem_of_nil in Hin.
Qed.

(** What [writeFileContents] does: it leaves the [zipWriter] as it is and
    sends one channel, for which it starts goroutines that fit; an entry
    that these send has the name, time, mode and extra field of the
    header. *)
Lemma writeFileContents_segment header r z t res z' t' :
  writeFileContents header r z t = (res, z', t') →
  z' = z ∧
  ∃ seg,
    t' = t ++ PSendOp empty_op :: seg ∧ cur_seg seg = seg ∧
    pick (λ e, match e with PCloseWriteOps => Some tt | _ => None end) seg = [] ∧
    ok empty_op (threads empty_op seg) ∧
    ∀ ze, ze ∈ E empty_op (threads empty_op seg) →
          same_file (SetModTime header (time z)) (fh ze).
Proof.
  unfold writeFileContents, bind, get, emit. simpl.
  match goal with
  | |- context [if ?c then _ else _] => destruct c
  end.
  - match goal with
    | |- context [blocks ?f ?z ?r ?s ?j ?st ?z0 ?t0] =>
        destruct (blocks f z r s j st z0 t0) as [[res0 z1] t1] eqn:Hb
    end.
    pose proof Hb as (rest0 & _ & -> & _)%blocks_go.
    apply blocks_rest in Hb as (rest & -> & Hrest).
    pose proof Hrest as (Hc & Hnc & _ & He & _).
    assert (∀ (tl : list peff) n a ze0,
              gos tl = [] → 
              ∀ ze, ze ∈ E empty_op (threads empty_op
                       ([PCpuRequest; PMemRequest a; PMakeReaders n;
                         PGo (crcFile r ze0)] ++ rest ++ tl)) →
                    same_file (fh ze0) (fh ze)) as Hent.
    { intros tl n a ze0 Hg ze. rewrite E_threads. unfold gos in *. simpl.
      rewrite !pick_app, Hg, app_nil_r, He, app_nil_r.
      apply crcFile_same. }
    destruct res0 as [[]|e]; intros [= <- <- <-]; (split; [done|]).
    + match goal with
      | |- ∃ seg, ((((((t ++ [_]) ++ [?a]) ++ [?b]) ++ [?c]) ++ [?d]) ++ rest) ++ [?e]
                  = _ ∧ _ =>
          exists ([a; b; c; d] ++ rest ++ [e])
      end.
      split; [by rewrite <- !app_assoc|].
      split; [simpl; do 4 f_equal; by rewrite cur_seg_app|].
      split; [simpl; by rewrite pick_app, Hnc|].
      split; [by apply (split_ok _ _ _ _ rest true)|].
      by apply Hent.
    + match goal with
      | |- ∃ seg, (((((t ++ [_]) ++ [?a]) ++ [?b]) ++ [?c]) ++ [?d]) ++ rest
                  = _ ∧ _ =>
          exists ([a; b; c; d] ++ rest ++ [])
      end.
      split; [by rewrite app_nil_r, <- !app_assoc|].
      split; [simpl; do 4 f_equal; by rewrite app_nil_r, Hc|].
      split; [simpl; by rewrite app_nil_r|].
      split; [by apply (split_ok _ _ _ _ rest false)|].
      by apply Hent.
  - intros [= <- <- <-]. split; [done|].
    match goal with
    | |- ∃ seg, (((t ++ [_]) ++ [?a]) ++ [?b]) ++ [?c] = _ ∧ _ =>
        exists [a; b; c]
    end.
    split; [by rewrite <- !app_assoc|]. split; [done|]. split; [done|].
    split; [apply whole_ok|].
    intros ze. rewrite E_threads. unfold gos. simpl. rewrite app_nil_r.
    apply compressWholeFile_same.
Qed.

End FileSteps.
(** ** The names of the entries *)

Lemma append_slash_inj d d' : d +:+ "/" = d' +:+ "/" → d = d'.
Proof.
  revert d'. induction d as [|c d IH]; intros [|c' d']; simpl; try done.
  - intros [= <- H]. by destruct d'.
  - intros [= -> H]. by destruct d.
  - intros [= -> H]. f_equal. by apply IH.
Qed.

Lemma ends_slash_dir d : filepath.ends_slash (d +:+ "/") = true.
Proof. by rewrite filepath_facts.ends_slash_app. Qed.

Lemma with_dirs_lookup z new src d :
  createdDirs (with_dirs z new src) !! d
  = if decide (d ∈ new) then Some src else createdDirs z !! d.
Proof.
  unfold with_dirs. simpl. induction new as [|x new IH]; simpl; [done|].
  destruct (decide (x = d)) as [->|Hne].
  - rewrite lookup_insert_eq.
    destruct (decide (d ∈ d :: new)) as [|Hn]; [done|]. destruct Hn. by left.
  - rewrite lookup_insert_ne, IH by done.
    destruct (decide (d ∈ new)), (decide (d ∈ x :: new)) as [Hin|Hn]; try done.
    + destruct Hn. by right.
    + apply elem_of_cons in Hin as [->|]; done.
Qed.

Lemma all_entries_app t1 t2 :
  entries_ok t1 → gos (cur_seg t2) = [] → chan_effs (cur_seg t2) = [] →
  all_entries (t1 ++ t2) = all_entries t1 ++ all_entries t2.
Proof.
  intros Ht1 Hg Hc.
  induction Ht1 as [|init seg t Hseg Hnc Hok Ht IH]; [done|].
  unfold all_entries in *. simpl. rewrite <- !app_assoc.
  rewrite (segs_app seg t), (cur_seg_app seg t), (segs_app seg (t ++ t2)),
    (cur_seg_app seg (t ++ t2)) by done.
  simpl. rewrite IH. f_equal. f_equal.
  rewrite (entries_ok_cur_seg t Ht), app_nil_r.
  destruct Ht as [|init' seg' t']; simpl.
  - by rewrite threads_app.
  - by rewrite app_nil_r.
Qed.

Lemma all_entries_one init seg :
  cur_seg seg = seg →
  all_entries (PSendOp init :: seg) = E init (threads init seg).
Proof.
  intros Hc. unfold all_entries. simpl.
  rewrite Hc, <- (app_nil_r seg), segs_app by done. simpl.
  by rewrite !app_nil_r.
Qed.

Lemma dir_steps_ok z new : entries_ok (map (dir_step z) new).
Proof.
  induction new as [|d new IH]; [constructor|].
  apply (entries_cons _ [] (map (dir_step z) new)); try done.
  apply filled_dir_ok.
Qed.

Lemma all_entries_dirs z new :
  all_entries (map (dir_step z) new) = map (dir_entry z) new.
Proof.
  induction new as [|d new IH]; [done|].
  change (map (dir_step z) (d :: new))
    with ([dir_step z d] ++ map (dir_step z) new).
  rewrite all_entries_app.
  - by rewrite IH.
  - apply (entries_cons _ [] []); try done; [apply filled_dir_ok|constructor].
  - by destruct new.
  - by destruct new.
Qed.

Lemma told_apart_grow jar z z' rest ns :
  names_told_apart jar z rest ns →
  (∀ d, is_Some (createdDirs z !! d) → is_Some (createdDirs z' !! d)) →
  (∀ n, is_Some (createdFiles z !! n) → is_Some (createdFiles z' !! n)) →
  names_told_apart jar z' rest ns.
Proof.
  intros [Hnd Hns] Hd Hf. split; [done|]. intros n Hn. specialize (Hns n Hn).
  destruct (filepath.ends_slash n).
  - destruct Hns as (d & -> & H). eauto.
  - destruct Hns as [H|H]; auto.
Qed.

Lemma told_apart_tail jar z ele rest ns :
  names_told_apart jar z (ele :: rest) ns → names_told_apart jar z rest ns.
Proof.
  intros [Hnd Hns]. split; [done|]. intros n Hn. specialize (Hns n Hn).
  destruct (filepath.ends_slash n); [done|].
  destruct Hns as [H|(? & ? & H)]; [by left|right].
  split; [done|]. split; [done|]. by inversion H.
Qed.

Lemma told_apart_dirs jar z rest ns new src :
  names_told_apart jar z rest ns → NoDup new →
  Forall (λ x, createdDirs z !! x = None) new →
  names_told_apart jar (with_dirs z new src) rest
    (ns ++ map (λ d, d +:+ "/") new).
Proof.
  intros [Hnd Hns] Hnew Hfresh. split.
  - apply NoDup_app. split; [done|]. split.
    + intros n Hn (d & -> & Hd)%list_elem_of_fmap.
      specialize (Hns _ Hn). rewrite ends_slash_dir in Hns.
      destruct Hns as (d' & ->%append_slash_inj & [? Hs]).
      by rewrite (proj1 (Forall_forall _ _) Hfresh _ Hd) in Hs.
    + apply NoDup_fmap_2; [|done]. intros d d'. apply append_slash_inj.
  - intros n [Hn|(d & -> & Hd)%list_elem_of_fmap]%elem_of_app.
    + specialize (Hns n Hn). destruct (filepath.ends_slash n).
      * destruct Hns as (d & -> & H). exists d. split; [done|].
        rewrite with_dirs_lookup. by destruct (decide _).
      * done.
    + rewrite ends_slash_dir. exists d. split; [done|].
      rewrite with_dirs_lookup. by destruct (decide (d ∈ new)).
Qed.

Lemma told_apart_fresh jar z rest ns n :
  names_told_apart jar z rest ns → filepath.ends_slash n = false →
  createdFiles z !! n = None →
  (jar = true → n = manifestDest →
   ¬ Forall (λ m, dest m ≠ manifestDest) rest) →
  n ∉ ns.
Proof.
  intros [Hnd Hns] He Hf Hm Hn. specialize (Hns n Hn). rewrite He in Hns.
  destruct Hns as [[? H]|(Hj & -> & H)]; [by rewrite Hf in H|].
  by apply Hm.
Qed.

Lemma told_apart_file jar z rest ns n src0 :
  names_told_apart jar z rest ns → filepath.ends_slash n = false → n ∉ ns →
  names_told_apart jar (set_createdFiles z (<[n := src0]> (createdFiles z)))
    rest (ns ++ [n]).
Proof.
  intros [Hnd Hns] He Hn. split.
  - apply NoDup_app. split; [done|]. split; [|apply NoDup_singleton].
    by intros x Hx ->%list_elem_of_singleton.
  - intros x [Hx| ->%list_elem_of_singleton]%elem_of_app.
    + specialize (Hns x Hx). destruct (filepath.ends_slash x); [done|].
      destruct Hns as [H|H]; [left|by right]. simpl.
      destruct (decide (n = x)) as [->|Hne].
      * rewrite lookup_insert_eq. eauto.
      * by rewrite lookup_insert_ne.
    + rewrite He. left. simpl. rewrite lookup_insert_eq. eauto.
Qed.
Lemma dir_steps_names z new (b : bool) :
  entry_names (if b then map (dir_step z) new else [])
  = if b then map (λ d, d +:+ "/") new else [].
Proof.
  destruct b; [|done]. unfold entry_names.
  rewrite all_entries_dirs, map_map. done.
Qed.

Lemma dir_steps_times z new (b : bool) :
  Forall (λ ze, ModTime (fh ze) = time z)
    (all_entries (if b then map (dir_step z) new else [])).
Proof.
  destruct b; [|constructor]. rewrite all_entries_dirs.
  apply Forall_forall. by intros ze (d & -> & _)%list_elem_of_fmap.
Qed.

Lemma dir_steps_entries_ok z new (b : bool) :
  entries_ok (if b then map (dir_step z) new else []).
Proof. destruct b; [apply dir_steps_ok|constructor]. Qed.

Lemma discover_time fuel src dir zipDirs z t r z' t' :
  discover fuel src dir zipDirs z t = (r, z', t') → time z' = time z.
Proof.
  revert dir zipDirs z. induction fuel as [|fuel IH]; intros dir zipDirs z;
    simpl; unfold ret.
  - by intros [= <- <- <-].
  - destruct (_ && _); [|by intros [= <- <- <-]].
    unfold bind, get, put. destruct (createdDirs z !! dir);
      [by intros [= <- <- <-]|].
    destruct (createdFiles z !! dir); [by intros [= <- <- <-]|].
    by intros ->%IH.
Qed.

Lemma writeDirectory_time flags dir src z t r z' t' :
  writeDirectory flags dir src z t = (r, z', t') → time z' = time z.
Proof.
  unfold writeDirectory, bind.
  destruct (discover _ _ _ _ _ _) as [[[[d zd]|e'] z1] t1] eqn:Hd.
  - apply discover_time in Hd. unfold get. destruct (directories z1).
    + rewrite for_each_emit. by intros [= <- <- <-].
    + by intros [= <- <- <-].
  - apply discover_time in Hd. by intros [= <- <- <-].
Qed.

(** After the directories, at most one entry with the name [n]. *)
Lemma told_apart_after jar z rest ns new src (b : bool) n src0 F :
  names_told_apart jar z rest ns → NoDup new →
  Forall (λ x, createdDirs z !! x = None ∧ createdFiles z !! x = None) new →
  filepath.ends_slash n = false → createdFiles z !! n = None →
  (jar = true → n = manifestDest →
   ¬ Forall (λ m, dest m ≠ manifestDest) rest) →
  cur_seg F = [] → (length (all_entries F) <= 1)%nat →
  Forall (λ ze, Name (fh ze) = n ∧ ModTime (fh ze) = time z) (all_entries F) →
  let D := if b then map (dir_step z) new else [] in
  Forall (λ ze, ModTime (fh ze) = time z) (all_entries (D ++ F)) ∧
  names_told_apart jar
    (set_createdFiles (with_dirs z new src)
       (<[n := src0]> (createdFiles (with_dirs z new src))))
    rest (ns ++ entry_names (D ++ F)).
Proof.
  intros Hinv Hnd Hfresh He Hf Hm Hc Hlen HF D.
  assert (all_entries (D ++ F) = all_entries D ++ all_entries F) as Happ.
  { apply all_entries_app; [apply dir_steps_entries_ok| |]; by rewrite Hc. }
  split.
  - rewrite Happ. apply Forall_app. split; [apply dir_steps_times|].
    eapply Forall_impl; [exact HF|]. simpl. tauto.
  - unfold entry_names. rewrite Happ, map_app.
    fold (entry_names D). unfold D. rewrite dir_steps_names.
    assert (names_told_apart jar (with_dirs z new src) rest
              (ns ++ (if b then map (λ d, d +:+ "/") new else []))) as Hdirs.
    { destruct b.
      - apply told_apart_dirs; [done|done|].
        eapply Forall_impl; [exact Hfresh|]. simpl. tauto.
      - rewrite app_nil_r. eapply told_apart_grow; [exact Hinv| |done].
        intros d. rewrite with_dirs_lookup. by destruct (decide _). }
    destruct (all_entries F) as [|ze [|ze' l]] eqn:HeqF; [| |simpl in Hlen; lia].
    all: rewrite ?HeqF in HF.
    + simpl. rewrite app_nil_r. eapply told_apart_grow; [exact Hdirs|done|].
      intros x. simpl. destruct (decide (n = x)) as [->|Hne].
      * rewrite lookup_insert_eq. eauto.
      * by rewrite lookup_insert_ne.
    + simpl. apply Forall_cons in HF as [[Hname _] _]. rewrite Hname.
      rewrite app_assoc.
      apply (told_apart_file jar (with_dirs z new src) rest _ n src0);
        [done|done|].
      intros [Hin|Hin]%elem_of_app.
      * by apply (told_apart_fresh jar z rest ns n).
      * destruct b; [|by apply elem_of_nil in Hin].
        apply list_elem_of_fmap in Hin as (d & Hd & _).
        rewrite Hd, ends_slash_dir in He. done.
Qed.

Section NamesOfFiles.
Context `{lib : Lib}.

Lemma addFile_names flags fs dest src method z ns rest r z1 t1 :
  names_told_apart (flag_emulateJar flags) z rest ns →
  filepath.ends_slash dest = false →
  (flag_emulateJar flags = true → dest ≠ manifestDest) →
  addFile flags fs dest src method z [] = (r, z1, t1) →
  time z1 = time z ∧
  Forall (λ ze, ModTime (fh ze) = time z) (all_entries t1) ∧
  NoDup (ns ++ entry_names t1) ∧
  (r = Ok tt →
   names_told_apart (flag_emulateJar flags) z1 rest (ns ++ entry_names t1)).
Proof.
  intros Hinv He Hm. unfold addFile, bind.
  assert (NoDup (ns ++ entry_names []) ∧
          names_told_apart (flag_emulateJar flags) z rest
            (ns ++ entry_names [])) as [Hnil1 Hnil2].
  { unfold entry_names. simpl. rewrite app_nil_r. split; [apply Hinv|done]. }
  destruct (Lstat fs src) as [s|e]; simpl;
    [|intros [= <- <- <-]; split; [done|]; split; [constructor|]; by split].
  assert (∀ dir r z1 t1,
            writeDirectory flags dir src z [] = (r, z1, t1) →
            (∃ e, r = Err e ∧ t1 = [] ∧ time z1 = time z) ∨
            ∃ new, r = Ok tt ∧ z1 = with_dirs z new src ∧
                   t1 = (if directories z then map (dir_step z) new else []) ∧
                   NoDup new ∧
                   Forall (λ x, createdDirs z !! x = None ∧
                                createdFiles z !! x = None) new) as Hwd.
  { intros dir r0 z0 t0 H. destruct r0 as [[]|e].
    - right. apply writeDirectory_spec in H
        as (new & -> & -> & Hnd & Hfr & _). by exists new.
    - left. exists e. pose proof H as (-> & _)%writeDirectory_error.
      split; [done|]. split; [done|]. by apply writeDirectory_time in H. }
  assert (∀ new, NoDup new →
            Forall (λ x, createdDirs z !! x = None ∧
                         createdFiles z !! x = None) new →
            let D := if directories z then map (dir_step z) new else [] in
            Forall (λ ze, ModTime (fh ze) = time z) (all_entries D) ∧
            names_told_apart (flag_emulateJar flags) (with_dirs z new src) rest
              (ns ++ entry_names D)) as Hdirs.
  { intros new Hnd Hfr D. split; [apply dir_steps_times|].
    unfold D. rewrite dir_steps_names. destruct (directories z).
    - apply told_apart_dirs; [done|done|].
      eapply Forall_impl; [exact Hfr|]. simpl. tauto.
    - rewrite app_nil_r. eapply told_apart_grow; [exact Hinv| |done].
      intros d. rewrite with_dirs_lookup. by destruct (decide _). }
  destruct (IsDir s).
  - unfold get. destruct (directories z) eqn:Hdz.
    + intros [(e & -> & -> & Ht)|(new & -> & -> & -> & Hnd & Hfr)]%Hwd.
      * split; [done|]. split; [constructor|]. by split.
      * destruct (Hdirs new Hnd Hfr) as [H1 H2].
        split; [done|]. split; [done|]. split; [apply H2|done].
    + unfold ret. intros [= <- <- <-].
      split; [done|]. split; [constructor|]. by split.
  - destruct (writeDirectory flags (filepath.Dir dest) src z [])
      as [[r0 z0] t0] eqn:Hw.
    apply Hwd in Hw as [(e & -> & -> & Ht)|(new & -> & -> & -> & Hnd & Hfr)].
    { intros [= <- <- <-]. split; [done|]. split; [constructor|]. by split. }
    destruct (Hdirs new Hnd Hfr) as [H1 H2].
    unfold get. destruct (createdDirs (with_dirs z new src) !! dest) eqn:Hcd.
    { unfold fail. intros [= <- <- <-].
      split; [done|]. split; [done|]. split; [apply H2|done]. }
    change (createdFiles (with_dirs z new src)) with (createdFiles z).
    destruct (createdFiles z !! dest) eqn:Hcf.
    { unfold fail. intros [= <- <- <-].
      split; [done|]. split; [done|]. split; [apply H2|done]. }
    unfold put.
    assert (∀ F r z1 t1,
              cur_seg F = [] → (length (all_entries F) <= 1)%nat →
              Forall (λ ze, Name (fh ze) = dest ∧ ModTime (fh ze) = time z)
                (all_entries F) →
              (r, z1, t1)
              = (r, set_createdFiles (with_dirs z new src)
                      (<[dest := src]> (createdFiles z)),
                 (if directories z then map (dir_step z) new else []) ++ F) →
              time z1 = time z ∧
              Forall (λ ze, ModTime (fh ze) = time z) (all_entries t1) ∧
              NoDup (ns ++ entry_names t1) ∧
              (r = Ok tt →
               names_told_apart (flag_emulateJar flags) z1 rest
                 (ns ++ entry_names t1))) as Hfin.
    { intros F r1 z2 t2 Hc Hlen HF [= -> ->].
      destruct (told_apart_after (flag_emulateJar flags) z rest ns new src
                  (directories z) dest src F) as [G1 G2]; try done.
      { intros Hj ->. by destruct (Hm Hj). }
      split; [done|]. split; [done|]. split; [apply G2|]. intros _. apply G2. }
    destruct (negb (Z.land (fi_Mode s) os_ModeSymlink =? 0)).
    + unfold writeSymlink, bind, get, lift.
      destruct (Readlink fs src) as [target|e]; unfold ret, fail, emit.
      * intros [= <- <- <-]. eapply Hfin; cycle 3.
        -- reflexivity.
        -- done.
        -- rewrite all_entries_one by done. simpl. lia.
        -- rewrite all_entries_one by done. by repeat constructor.
      * intros [= <- <- <-]. eapply (Hfin []); [done|simpl; lia|constructor|].
        by rewrite app_nil_r.
    + destruct (negb (IsRegular s)).
      * unfold fail. intros [= <- <- <-].
        eapply (Hfin []); [done|simpl; lia|constructor|]. by rewrite app_nil_r.
      * unfold lift. destruct (Open fs src) as [rd|e]; unfold ret, fail.
        -- intros H. pose proof H as (-> & seg & -> & Hc & _ & Hok & Hent)
             %writeFileContents_segment.
           eapply (Hfin (PSendOp empty_op :: seg)); [done| | |done].
           ++ rewrite all_entries_one by done. apply Hok.
           ++ rewrite all_entries_one by done. apply Forall_forall.
              intros ze (Hn & Ht & _)%Hent. split; [|done].
              rewrite Hn. by destruct (negb (Z.land (fi_Mode s) 64 =? 0)).
        -- intros [= <- <- <-].
           eapply (Hfin []); [done|simpl; lia|constructor|]. by rewrite app_nil_r.
Qed.

End NamesOfFiles.
Lemma told_apart_manifest z rest ns :
  names_told_apart true z rest ns → manifestDest ∉ ns →
  Forall (λ m, dest m ≠ manifestDest) rest →
  names_told_apart true z rest (ns ++ [manifestDest]).
Proof.
  intros [Hnd Hns] Hn Hrest. split.
  - apply NoDup_app. split; [done|]. split; [|apply NoDup_singleton].
    by intros x Hx ->%list_elem_of_singleton.
  - intros x [Hx| ->%list_elem_of_singleton]%elem_of_app; [by apply Hns|].
    simpl. by right.
Qed.

Lemma created_one op :
  ∃ h, created_headers [(created op).1] = [h] ∧
       Name h = Name (fh op) ∧ ModTime h = ModTime (fh op).
Proof.
  unfold created. destruct (Method (fh op) =? zip_Deflate); simpl; eauto.
Qed.

Lemma created_headers_app l1 l2 :
  created_headers (l1 ++ l2) = created_headers l1 ++ created_headers l2.
Proof. apply pick_app. Qed.

Lemma entry_events_headers o ts :
  created_headers (entry_events o ts)
  = match E o ts with
    | [] => []
    | op :: _ => created_headers [(created op).1]
    end.
Proof.
  unfold entry_events. destruct (E o ts) as [|op l]; [done|].
  destruct (futureReaders op).
  - change (created_headers ([(created op).1] ++ copies o ts (R o ts) ++
              closing o ts (Some (created op).2))
            = created_headers [(created op).1]).
    rewrite !created_headers_app.
    assert (created_headers (copies o ts (R o ts)) = []) as ->.
    { unfold copies. induction (R o ts) as [|j js IH]; [done|]. simpl.
      rewrite created_headers_app, IH, app_nil_r.
      by induction (B o ts j). }
    assert (created_headers (closing o ts (Some (created op).2)) = []) as ->.
    { unfold closing. by destruct (closes o ts). }
    by rewrite !app_nil_r.
  - change (created_headers ([(created op).1] ++ [CloseWriter (created op).2])
            = created_headers [(created op).1]).
    by rewrite created_headers_app, app_nil_r.
Qed.

(** The headers handed to the encoder are those of published entries. *)
Lemma archive_headers p :
  map Name (created_headers (archive p)) `sublist_of` entry_names p ∧
  ∀ h, h ∈ created_headers (archive p) →
       ∃ ze, ze ∈ all_entries p ∧ Name h = Name (fh ze) ∧
             ModTime h = ModTime (fh ze).
Proof.
  unfold archive, entry_names, all_entries.
  induction (segs p) as [|x l [IH1 IH2]]; simpl.
  - split; [done|]. by intros h Hh%elem_of_nil.
  - rewrite created_headers_app, !map_app, entry_events_headers.
    destruct (E x.1 (threads x.1 x.2)) as [|op ops] eqn:HE.
    + split; [done|]. intros h Hh. by apply IH2.
    + destruct (created_one op) as (h0 & -> & Hn & Ht). split.
      * simpl. rewrite Hn. apply sublist_skip.
        by apply sublist_inserts_l.
      * intros h [->|Hh]%elem_of_cons.
        -- exists op. split; [by left|done].
        -- destruct (IH2 h Hh) as (ze & Hze & ?). exists ze.
           split; [|done]. right. apply elem_of_app. by right.
Qed.

Section NamesOfEntries.
Context `{lib : Lib}.

Lemma addManifest_names flags fs src method z ns ele rest r z1 t1 :
  flag_emulateJar flags = true → dest ele = manifestDest →
  Forall (λ m, dest m ≠ manifestDest) rest →
  names_told_apart true z (ele :: rest) ns →
  addManifest fs manifestDest src method z [] = (r, z1, t1) →
  time z1 = time z ∧
  Forall (λ ze, ModTime (fh ze) = time z) (all_entries t1) ∧
  NoDup (ns ++ entry_names t1) ∧
  (r = Ok tt → names_told_apart true z1 rest (ns ++ entry_names t1)).
Proof.
  intros Hj Hd Hrest Hinv. unfold addManifest, bind, lift, get.
  pose proof (told_apart_tail _ _ _ _ _ Hinv) as Hinv'.
  assert (time z = time z ∧
          Forall (λ ze, ModTime (fh ze) = time z) (all_entries []) ∧
          NoDup (ns ++ entry_names []) ∧
          (∀ r : result unit, r = Ok tt →
             names_told_apart true z rest (ns ++ entry_names []))) as Hnil.
  { unfold entry_names. simpl. rewrite app_nil_r.
    split; [done|]. split; [constructor|]. split; [apply Hinv|done]. }
  destruct (ReadFile fs src) as [givenBytes|e]; unfold ret, fail;
    [|intros [= <- <- <-]; destruct Hnil as (? & ? & ? & ?); eauto].
  destruct (createdDirs z !! manifestDest);
    [intros [= <- <- <-]; destruct Hnil as (? & ? & ? & ?); eauto|].
  destruct (createdFiles z !! manifestDest) eqn:Hcf;
    [intros [= <- <- <-]; destruct Hnil as (? & ? & ? & ?); eauto|].
  intros (-> & seg & -> & Hc & _ & Hok & Hent)%writeFileContents_segment.
  simpl. unfold entry_names. rewrite all_entries_one by done.
  split; [done|]. split.
  { apply Forall_forall. by intros ze (_ & Ht & _)%Hent. }
  pose proof (ok_E _ _ Hok) as Hlen.
  destruct (E empty_op (threads empty_op seg)) as [|ze [|ze' l]] eqn:HE;
    [| |simpl in Hlen; lia].
  - simpl. rewrite app_nil_r. split; [apply Hinv|done].
  - assert (Name (fh ze) = manifestDest) as Hn.
    { by destruct (Hent ze ltac:(by left)) as (Hn & _). }
    simpl. rewrite Hn.
    assert (names_told_apart true z rest (ns ++ [manifestDest])) as Hnew.
    { apply told_apart_manifest; [done| |done].
      apply (told_apart_fresh true z (ele :: rest)); [done|done|done|].
      intros _ _ H. inversion H; subst. done. }
    split; [apply Hnew|done].
Qed.

Lemma produce_names flags fs pathMappings z ns :
  names_told_apart (flag_emulateJar flags) z pathMappings ns →
  Forall (λ m, filepath.ends_slash (dest m) = false) pathMappings →
  (flag_emulateJar flags = true →
   (length (filter (λ m, dest m = manifestDest) pathMappings) <= 1)%nat) →
  NoDup (ns ++ entry_names (produce flags fs pathMappings z []).2) ∧
  Forall (λ ze, ModTime (fh ze) = time z)
    (all_entries (produce flags fs pathMappings z []).2).
Proof.
  revert z ns. induction pathMappings as [|ele rest IH]; intros z ns Hinv He Hm.
  { unfold entry_names. simpl. rewrite app_nil_r.
    split; [apply Hinv|constructor]. }
  apply Forall_cons in He as [He Hrest].
  rewrite produce_one.
  destruct (produce flags fs [ele] z []) as [[r z1] t1] eqn:H1.
  pose proof (emits_produce flags fs [ele] _ _ _ _ _ H1) as (n1 & Hn1 & Hok1).
  simpl in Hn1. subst n1.
  assert (time z1 = time z ∧
          Forall (λ ze, ModTime (fh ze) = time z) (all_entries t1) ∧
          NoDup (ns ++ entry_names t1) ∧
          (r = Ok tt →
           names_told_apart (flag_emulateJar flags) z1 rest
             (ns ++ entry_names t1))) as (Ht & Htimes & Hnd & Hnext).
  { pose proof (told_apart_tail _ _ _ _ _ Hinv) as Hinv'.
    revert H1. cbn [produce]. unfold bind at 1.
    destruct (flag_emulateJar flags && String.eqb (dest ele) manifestDest)
      eqn:Hjd.
    - apply andb_prop in Hjd as [Hj Hd]. apply String.eqb_eq in Hd.
      assert (Forall (λ m, dest m ≠ manifestDest) rest) as Hno.
      { specialize (Hm Hj). rewrite filter_cons_True in Hm by done.
        simpl in Hm. apply Forall_forall. intros m Hin Hdm.
        assert (m ∈ filter (λ m, dest m = manifestDest) rest) as Hf
          by by apply list_elem_of_filter.
        destruct (filter _ rest); [by apply elem_of_nil in Hf|simpl in Hm; lia]. }
      rewrite Hd. rewrite Hj in Hinv.
      destruct (addManifest fs manifestDest (src ele) (zipMethod ele) z [])
        as [[[[]|e] z'] t'] eqn:Ha; unfold ret; intros [= <- <- <-];
        pose proof (addManifest_names flags fs _ _ z ns ele rest _ _ _
                      Hj Hd Hno Hinv Ha) as Hres;
        by rewrite Hj.
    - assert (flag_emulateJar flags = true → dest ele ≠ manifestDest) as Hne.
      { intros Hj Hd. rewrite Hj in Hjd. simpl in Hjd.
        by apply String.eqb_neq in Hjd. }
      destruct (addFile flags fs (dest ele) (src ele) (zipMethod ele) z [])
        as [[[[]|e] z'] t'] eqn:Ha; unfold ret; intros [= <- <- <-];
        exact (addFile_names flags fs _ _ _ z ns rest _ _ _ Hinv' He Hne Ha). }
  destruct r as [[]|e]; [|done].
  destruct (produce flags fs rest z1 []) as [[r2 z2] n2] eqn:H2.
  pose proof (emits_produce flags fs rest _ _ _ _ _ H2) as (n2' & Hn2 & Hok2).
  simpl in Hn2. subst n2'. simpl.
  assert (all_entries (t1 ++ n2) = all_entries t1 ++ all_entries n2) as Happ.
  { apply all_entries_app; [done| |]; by rewrite (entries_ok_cur_seg n2). }
  destruct (IH z1 (ns ++ entry_names t1)) as [IH1 IH2]; [by apply Hnext|done| |].
  { intros Hj. specialize (Hm Hj). rewrite filter_cons in Hm.
    destruct (decide _); simpl in Hm; lia. }
  rewrite H2 in IH1, IH2. simpl in IH1, IH2.
  unfold entry_names in *. rewrite Happ, map_app, app_assoc.
  split; [done|]. apply Forall_app. split; [done|]. by rewrite <- Ht.
Qed.

End NamesOfEntries.
(** ** The time of the entries *)

Lemma timed_ret {A} T (a : A) : timed T (ret a).
Proof.
  intros z t r z' t' Hz [= <- <- <-]. split; [done|]. exists [].
  rewrite app_nil_r. split; [done|]. split; constructor.
Qed.

Lemma timed_fail {A} T e : timed T (@fail A e).
Proof.
  intros z t r z' t' Hz [= <- <- <-]. split; [done|]. exists [].
  rewrite app_nil_r. split; [done|]. split; constructor.
Qed.

Lemma timed_lift {A} T (x : result A) : timed T (lift x).
Proof. destruct x; [apply timed_ret|apply timed_fail]. Qed.

Lemma timed_put T z0 : time z0 = T → timed T (put z0).
Proof.
  intros H0 z t r z' t' Hz [= <- <- <-]. split; [done|]. exists [].
  rewrite app_nil_r. split; [done|]. split; constructor.
Qed.

Lemma timed_bind {A B} T (m : P A) (k : A → P B) :
  timed T m → (∀ a, timed T (k a)) → timed T (bind m k).
Proof.
  intros Hm Hk z t r z' t' Hz. unfold bind.
  destruct (m z t) as [[[a|e] z1] t1] eqn:Em.
  - destruct (Hm _ _ _ _ _ Hz Em) as (Hz1 & n1 & -> & Hok1 & H1).
    intros Ek. destruct (Hk a _ _ _ _ _ Hz1 Ek) as (Hz2 & n2 & -> & Hok2 & H2).
    split; [done|]. exists (n1 ++ n2). split; [by rewrite app_assoc|].
    split; [by apply entries_ok_app|].
    rewrite all_entries_app; [by apply Forall_app|done| |];
      by rewrite (entries_ok_cur_seg n2).
  - intros [= <- <- <-]. by apply (Hm _ _ _ _ _ Hz Em).
Qed.

Lemma timed_get {A} T (k : zipWriter → P A) :
  (∀ z0, time z0 = T → timed T (k z0)) → timed T (bind get k).
Proof.
  intros Hk z t r z' t' Hz. unfold bind, get. by apply Hk.
Qed.

Lemma timed_for_each {A} T (l : list A) (f : A → P unit) :
  (∀ x, timed T (f x)) → timed T (for_each l f).
Proof.
  intros Hf. induction l as [|x l IH]; simpl; [apply timed_ret|].
  apply timed_bind; [apply Hf|by intros _].
Qed.

Lemma timed_send T init :
  ok init (threads init []) →
  Forall (λ ze, ModTime (fh ze) = T) (E init (threads init [])) →
  timed T (emit (PSendOp init)).
Proof.
  intros Hok HE z t r z' t' Hz [= <- <- <-]. split; [done|].
  exists [PSendOp init]. split; [done|]. split.
  - by apply (entries_cons init [] []); [| |done|constructor].
  - by rewrite all_entries_one.
Qed.

Lemma timed_writeDirectory T flags dir src :
  timed T (writeDirectory flags dir src).
Proof.
  unfold writeDirectory. apply timed_bind.
  - generalize (@nil string).
    generalize (String.length (filepath.Clean dir) + 2)%nat.
    generalize (filepath.Clean dir). intros d fuel. revert d.
    induction fuel as [|fuel IH]; intros d l; simpl; [apply timed_ret|].
    destruct (_ && _); [|apply timed_ret].
    apply timed_get. intros z Hz.
    destruct (createdDirs z !! d); [apply timed_ret|].
    destruct (createdFiles z !! d); [apply timed_fail|].
    apply timed_bind; [by apply timed_put|]. intros _. apply IH.
  - intros [d zipDirs]. apply timed_get. intros z Hz.
    destruct (directories z); [|apply timed_ret].
    apply timed_for_each. intros cleanDir.
    apply timed_send; [apply filled_dir_ok|].
    unfold E, threads. simpl. repeat constructor.
    by destruct (flag_emulateJar flags && String.eqb d "META-INF/").
Qed.

Lemma timed_writeSymlink T fs rel file : timed T (writeSymlink fs rel file).
Proof.
  unfold writeSymlink. apply timed_get. intros z Hz.
  apply timed_bind; [apply timed_lift|]. intros d.
  apply timed_send; [apply filled_symlink_ok|].
  unfold E, threads. simpl. by repeat constructor.
Qed.

Section Timed.
Context `{lib : Lib}.

Lemma timed_writeFileContents T header r : timed T (writeFileContents header r).
Proof.
  intros z t res z' t' Hz H.
  apply writeFileContents_segment in H
    as (-> & seg & -> & Hc & Hnc & Hok & Hent).
  split; [done|]. exists (PSendOp empty_op :: seg). split; [done|]. split.
  - rewrite <- (app_nil_r seg). by constructor; [| | |constructor].
  - rewrite all_entries_one by done. apply Forall_forall.
    intros ze (_ & Ht & _)%Hent. by rewrite Ht.
Qed.

Lemma timed_addFile T flags fs dest src method :
  timed T (addFile flags fs dest src method).
Proof.
  unfold addFile. apply timed_bind; [apply timed_lift|]. intros s.
  destruct (IsDir s).
  - apply timed_get. intros z Hz.
    destruct (directories z); [apply timed_writeDirectory|apply timed_ret].
  - apply timed_bind; [apply timed_writeDirectory|]. intros _.
    apply timed_get. intros z Hz.
    destruct (createdDirs z !! dest); [apply timed_fail|].
    destruct (createdFiles z !! dest); [apply timed_fail|].
    apply timed_bind; [by apply timed_put|]. intros _.
    destruct (negb _); [apply timed_writeSymlink|].
    destruct (negb _); [apply timed_fail|].
    apply timed_bind; [apply timed_lift|]. intros r.
    apply timed_writeFileContents.
Qed.

Lemma timed_addManifest T fs dest src method :
  timed T (addManifest fs dest src method).
Proof.
  unfold addManifest. apply timed_bind; [apply timed_lift|]. intros givenBytes.
  apply timed_get. intros z Hz.
  destruct (createdDirs z !! dest); [apply timed_fail|].
  destruct (createdFiles z !! dest); [apply timed_fail|].
  apply timed_writeFileContents.
Qed.

Lemma timed_produce T flags fs pathMappings :
  timed T (produce flags fs pathMappings).
Proof.
  induction pathMappings as [|ele rest IH]; simpl; [apply timed_ret|].
  apply timed_bind; [|by intros _].
  destruct (_ && _); [apply timed_addManifest|apply timed_addFile].
Qed.

Lemma producer_is_produce flags fs z pathMappings :
  archive (producer flags fs z pathMappings)
  = archive (produce flags fs pathMappings z []).2.
Proof. by rewrite producer_archive, produce_archive. Qed.

(** X11: every header that [write] hands to the encoder, in whatever
    order the goroutines move, carries the time of the [zipWriter], the
    one that [main] has set. *)
Theorem headers_carry_zip_time flags fs zfault sched z out pathMappings
    manifest :
  Forall (λ h, ModTime h = time z)
    (created_headers
       (wr_zip (write flags fs zfault sched z out pathMappings manifest))).
Proof.
  unfold write. destruct (Create fs out); [constructor|].
  destruct (_ && _); [constructor|].
  fold (loop_mappings flags pathMappings manifest).
  set (ms := loop_mappings flags pathMappings manifest).
  set (p := producer flags fs z ms).
  pose proof (run_writes zfault p sched _ (start_writes flags p
                (producer_good flags fs z _))) as (_ & _ & [more Hm] & _).
  assert (Forall (λ h, ModTime h = time z) (created_headers (archive p))) as Hall.
  { unfold p. rewrite producer_is_produce.
    destruct (produce flags fs ms z []) as [[r z1] t1] eqn:Hp.
    destruct (timed_produce (time z) flags fs ms z [] r z1 t1 eq_refl Hp)
      as (_ & new & Hnew & _ & Htimes). simpl in Hnew. subst new. simpl.
    apply Forall_forall. intros h (ze & Hze & _ & Ht)%archive_headers.
    rewrite Ht. by apply (proj1 (Forall_forall _ _) Htimes). }
  assert (Forall (λ h, ModTime h = time z)
            (created_headers (zipw (run zfault sched (start flags p))))) as Hz.
  { apply (f_equal created_headers) in Hm.
    rewrite !created_headers_app in Hm. simpl in Hm. rewrite app_nil_r in Hm.
    rewrite <- Hm in Hall. by apply Forall_app in Hall as [? _]. }
  by destruct (returned _).
Qed.

End Timed.
(** ** No two entries of one name *)

Section DistinctNames.
Context `{lib : Lib}.

Lemma loop_mappings_perm flags pathMappings manifest :
  loop_mappings flags pathMappings manifest
  ≡ₚ pathMappings ++
     (if String.eqb manifest "" then []
      else [{| dest := manifestDest; src := manifest;
               zipMethod := zip_Deflate |}]).
Proof.
  unfold loop_mappings.
  destruct (String.eqb manifest ""); simpl; rewrite ?app_nil_r;
    destruct (flag_emulateJar flags); try done; apply jarSort_perm.
Qed.

(** X12: when no destination ends in a slash and, in a jar, at most one
    mapping (the manifest of [-m] counted) has the destination of the
    manifest, no two headers that [write] hands to the encoder have the same
    name, in whatever order the goroutines move: [createdDirs] and
    [createdFiles] keep directories and files apart. *)
Theorem entry_names_distinct flags fs zfault sched z out pathMappings
    manifest :
  Forall (λ m, filepath.ends_slash (dest m) = false) pathMappings →
  (flag_emulateJar flags = true →
   (length (filter (λ m, dest m = manifestDest) pathMappings) +
    (if String.eqb manifest "" then 0 else 1) <= 1)%nat) →
  NoDup (map Name
           (created_headers
              (wr_zip (write flags fs zfault sched z out pathMappings
                         manifest)))).
Proof.
  intros He Hm. unfold write. destruct (Create fs out); [constructor|].
  destruct (_ && _); [constructor|].
  fold (loop_mappings flags pathMappings manifest).
  pose proof (loop_mappings_perm flags pathMappings manifest) as Hperm.
  set (ms := loop_mappings flags pathMappings manifest) in *.
  set (p := producer flags fs z ms).
  pose proof (run_writes zfault p sched _ (start_writes flags p
                (producer_good flags fs z _))) as (_ & _ & [more Hmore] & _).
  assert (NoDup (map Name (created_headers (archive p)))) as Hall.
  { unfold p. rewrite producer_is_produce.
    destruct (produce_names flags fs ms z []) as [Hnd _].
    - split; [constructor|]. by intros n Hn%elem_of_nil.
    - rewrite Hperm. apply Forall_app. split; [done|].
      destruct (String.eqb manifest ""); by repeat constructor.
    - intros Hj. specialize (Hm Hj). rewrite Hperm, filter_app, length_app.
      destruct (String.eqb manifest ""); [simpl; lia|].
      rewrite filter_cons_True by done. simpl. lia.
    - simpl in Hnd. eapply sublist_NoDup; [exact Hnd|apply (proj1 (archive_headers _))]. }
  assert (NoDup (map Name (created_headers
            (zipw (run zfault sched (start flags p)))))) as Hz.
  { apply (f_equal created_headers) in Hmore.
    rewrite !created_headers_app in Hmore. simpl in Hmore.
    rewrite app_nil_r in Hmore. rewrite <- Hmore, map_app in Hall.
    by apply NoDup_app in Hall as [? _]. }
  by destruct (returned _).
Qed.

End DistinctNames.

Lemma entry_names_distinct_witness :
  let mappings :=
    [{| dest := "d/b.bin"; src := "d/b.bin"; zipMethod := zip_Deflate |};
     {| dest := "a.txt"; src := "a.txt"; zipMethod := zip_Deflate |}] in
  NoDup (map Name
           (created_headers
              (wr_zip (@write sample_lib (sample_flags true "mf.txt") sample_fs
                         no_zfault (rounds 60) (sample_zipWriter true)
                         "out.zip" mappings "mf.txt")))).
Proof.
  intros mappings.
  apply (@entry_names_distinct sample_lib).
  - by repeat constructor.
  - intros _. vm_compute. lia.
Defined.
(** ** The calls on the encoder are in order *)

Lemma encoder_calls_app st l1 l2 :
  encoder_calls st (l1 ++ l2)
  = match encoder_calls st l1 with
    | Some st' => encoder_calls st' l2
    | None => None
    end.
Proof.
  revert st. induction l1 as [|e l1 IH]; intros st; simpl; [done|].
  destruct (encoder_call st e); [apply IH|done].
Qed.

Lemma on_current_writer s f s' :
  on_current s f = Some s' →
  zipw s' = zipw s ∧ currentWriter s' = currentWriter s ∧
  currentReaders s' = currentReaders s ∧ currentReader s' = currentReader s ∧
  done s' = done s ∧ returned s' = returned s.
Proof. unfold on_current. repeat case_match; intros; by simplify_eq. Qed.

Lemma step_writer_in_step zfault s c s' :
  writer_in_step s → step zfault s c = Some s' → writer_in_step s'.
Proof.
  intros (Henc & Hrw & Hr & Hd). unfold step.
  destruct (returned s) eqn:Hret; [done|].
  assert (encoder_calls between_entries (zipw s)
          = Some (match currentWriter s with
                  | Some k => in_entry k
                  | None => between_entries
                  end)) as Henc'.
  { by rewrite Henc; unfold encoder_of; rewrite Hret. }
  assert (∀ s0, zipw s0 = zipw s → currentWriter s0 = currentWriter s →
            currentReaders s0 = currentReaders s →
            currentReader s0 = currentReader s → done s0 = done s →
            returned s0 ≠ Some None → writer_in_step s0) as Hsame.
  { intros s0 E1 E2 E3 E4 E5 E6. unfold writer_in_step, encoder_of.
    rewrite E1, E2, E3, E4, E5. split; [|done].
    rewrite Henc'. by destruct (returned s0) as [[|]|]. }
  destruct c as [|n k| |who].
  - unfold producer_step. destruct (prod s) as [|e rest]; [done|].
    destruct e;
      try (intros H; apply on_current_writer in H as (?&?&?&?&?&Hr');
           apply Hsame; try done; rewrite Hr'; simpl; by rewrite Hret);
      repeat case_match; intros; simplify_eq;
      apply Hsame; simpl; try done; by rewrite Hret.
  - unfold worker_step. repeat case_match; intros; simplify_eq;
      apply Hsame; simpl; try done; by rewrite Hret.
  - unfold writer_step. destruct (done s) eqn:Hdone.
    { intros [= <-]. unfold writer_in_step, encoder_of. simpl.
      pose proof (Hd eq_refl) as Hw. rewrite Hw in Hrw, Henc'.
      rewrite encoder_calls_app, Henc', Hw. simpl.
      split; [done|]. split; [done|]. split; done. }
    destruct (currentReader s) as [[n j]|] eqn:Hcr.
    { destruct (ops s !! n) as [o|]; [|done].
      destruct (buf (result_chan o j)) as [|reader more]; [done|].
      simpl. destruct (zfault (length (zipw s))).
      - intros [= <-]. apply Hsame; simpl; try done.
      - intros [= <-]. unfold writer_in_step, encoder_of. simpl. rewrite Hret.
        rewrite encoder_calls_app, Henc'.
        destruct (proj1 Hrw (Hr ltac:(eauto))) as [k Hk].
        rewrite Hk in Hrw, Hd |- *. simpl.
        split; [done|]. split; [done|]. split; [by intros [? ?]|done]. }
    destruct (currentReaders s) as [n|] eqn:Hcrs.
    { destruct (ops s !! n) as [o|]; [|done].
      destruct (buf (readers_chan o)) as [|j more].
      - destruct (closed (readers_chan o)); [|done].
        destruct (currentWriter s) as [k|] eqn:Hk; [|done].
        intros [= <-]. unfold writer_in_step, encoder_of. simpl. rewrite Hret.
        rewrite encoder_calls_app, Henc'. simpl.
        destruct k; simpl; (split; [done|]); (split; [done|]);
          (split; [by intros [? ?]|done]).
      - intros [= <-]. unfold writer_in_step, encoder_of. simpl.
        rewrite Hret, Hcrs. split; [done|]. split; [done|].
        split; [eauto|done]. }
    assert (currentWriter s = None) as Hw.
    { destruct (currentWriter s) eqn:Hk; [|done].
      by destruct (proj2 Hrw ltac:(eauto)). }
    rewrite Hw in Henc'.
    destruct (currentWriteOpChan s) as [n|].
    + destruct (ops s !! n) as [o|]; [|done].
      destruct (buf (entry_chan o)) as [|op more]; [done|].
      destruct (Method (fh op) =? zip_Deflate); simpl;
        (destruct (zfault (length (zipw s)));
          [intros [= <-]; apply Hsame; simpl; try done|]);
        intros [= <-]; unfold writer_in_step, encoder_of;
        destruct (futureReaders op); simpl; rewrite Hret;
        rewrite encoder_calls_app, Henc'; simpl;
        (split; [done|]); (split; [split; eauto; by intros [? ?]|]);
        (split; [by intros [? ?]|done]).
    + destruct (buf (writeOps s)) as [|n more].
      * destruct (closed (writeOps s)); [|done]. intros [= <-].
        unfold writer_in_step, encoder_of. simpl. rewrite Hret, Hw.
        split; [done|]. split; [split; by intros [? ?]|].
        split; [by intros [? ?]|done].
      * intros [= <-]. unfold writer_in_step, encoder_of. simpl.
        rewrite Hret, Hw. split; [done|]. split; [split; by intros [? ?]|].
        split; [by intros [? ?]|done].
  - unfold error_step. repeat case_match; intros; simplify_eq;
      apply Hsame; simpl; try done.
Qed.

Lemma run_writer_in_step zfault sched s :
  writer_in_step s → writer_in_step (run zfault sched s).
Proof.
  revert s. induction sched as [|c sched IH]; intros s Hs; [done|].
  simpl. apply IH. destruct (step zfault s c) as [s'|] eqn:Hst; [|done].
  by eapply step_writer_in_step.
Qed.

Section EncoderOrder.
Context `{lib : Lib}.

(** X13: in whatever order the goroutines move, and whatever the steps of
    the producer are, the calls that [write] makes on the encoder are in
    order: a header opens an entry only between entries, a copy goes to an
    open entry, each entry is closed by the writer that its header gave,
    and the archive is closed between entries, exactly when [write] returns
    nil. *)
Theorem encoder_calls_in_order flags fs zfault sched z out pathMappings
    manifest :
  let r := write flags fs zfault sched z out pathMappings manifest in
  ∃ st, encoder_calls between_entries (wr_zip r) = Some st ∧
        (st = archive_closed ↔ wr_returned r = Some None).
Proof.
  unfold write. destruct (Create fs out); [by exists between_entries|].
  destruct (_ && _); [by exists between_entries|].
  set (p := producer flags fs z _).
  assert (writer_in_step (start flags p)) as H0.
  { split; [done|]. split; [split; by intros [? ?]|].
    split; [by intros [? ?]|done]. }
  apply (run_writer_in_step zfault sched) in H0 as (Henc & _).
  unfold encoder_of in Henc.
  destruct (returned (run zfault sched (start flags p))) as [[e|]|] eqn:Hr;
    simpl; eexists; (split; [exact Henc|]);
    destruct (currentWriter (run zfault sched (start flags p))); split; done.
Qed.

End EncoderOrder.
(** ** The output file *)

Section OutputFile.
Context `{lib : Lib}.

(** X14: when [write] returns nil the output was created, is closed once
    and is not removed, and the variable [err] is nil: in every run, for
    every order in which the goroutines move. *)
Theorem write_nil_keeps_output flags fs zfault sched z out pathMappings
    manifest :
  let r := write flags fs zfault sched z out pathMappings manifest in
  wr_returned r = Some None →
  Create fs out = None ∧ wr_calls r = [os_Create out; f_Close] ∧
  (manifest = "" ∨ flag_emulateJar flags = true).
Proof.
  unfold write. destruct (Create fs out); [done|].
  destruct (negb (String.eqb manifest "") && negb (flag_emulateJar flags))
    eqn:Hm; [done|].
  fold (loop_mappings flags pathMappings manifest).
  set (p := producer flags fs z (loop_mappings flags pathMappings manifest)).
  pose proof (run_writes zfault p sched _ (start_writes flags p
                (producer_good flags fs z _))) as (_ & _ & _ & Herr).
  fold p in Herr.
  destruct (returned _) as [[e'|]|] eqn:Hr; simpl; try done.
  intros _. split; [done|]. split.
  - destruct (err _) as [e|] eqn:He; [|done].
    by pose proof (proj2 (Herr e) eq_refl).
  - apply andb_false_iff in Hm as [Hm|Hm]; apply negb_false_iff in Hm.
    + left. by apply String.eqb_eq.
    + by right.
Qed.

End OutputFile.

Lemma write_nil_keeps_output_witness :
  let r := @write sample_lib (sample_flags true "") sample_fs no_zfault
             (rounds 40) (sample_zipWriter true) "out.zip"
             [{| dest := "a.txt"; src := "a.txt"; zipMethod := zip_Deflate |}]
             "" in
  Create sample_fs "out.zip" = None ∧
  wr_calls r = [os_Create "out.zip"; f_Close] ∧
  ("" = "" ∨ flag_emulateJar (sample_flags true "") = true).
Proof.
  intros r. apply (@write_nil_keeps_output sample_lib).
  vm_compute. reflexivity.
Defined.

Section OutputRemoved.
Context `{lib : Lib}.


End OutputRemoved.


(** ** Destinations *)

Section Destinations.
Context `{lib : Lib}.

Lemma writeFileContents_single header r z t :
  Method header ≠ zip_Deflate →
  ∃ new, writeFileContents header r z t = (Ok tt, z, t ++ new).
Proof.
  intros Hm. unfold writeFileContents, bind, get, emit. simpl.
  apply Z.eqb_neq in Hm. rewrite Hm. simpl.
  eexists [_; _; _; _]. by rewrite <- !app_assoc.
Qed.

(** X16: [addManifest] returns nil exactly when the manifest can be read
    and the destination is neither a created directory nor a created file.
    It leaves the [zipWriter] as it was: it does not record the
    destination, so that a second manifest for the same destination is
    accepted like the first. *)
Theorem addManifest_records_nothing fs dest src method z t r z' t' :
  addManifest fs dest src method z t = (r, z', t') →
  z' = z ∧
  (r = Ok tt ↔
   (∃ b, ReadFile fs src = Ok b) ∧ createdDirs z !! dest = None ∧
   createdFiles z !! dest = None) ∧
  (r = Ok tt → ∀ src2 b2, ReadFile fs src2 = Ok b2 →
   ∃ t2, addManifest fs dest src2 method z' t' = (Ok tt, z', t2)).
Proof.
  unfold addManifest, bind, lift, get.
  assert (∀ givenBytes t0,
            ∃ new, writeFileContents
                     (newFileHeader dest zip_Store
                        (uint64 (len (if negb (bytes_Contains givenBytes
                                                  manifestMarker)
                                      then (manifestHeader ++ givenBytes) ++ [x0a]
                                      else givenBytes))))
                     (byteReaderCloser
                        (if negb (bytes_Contains givenBytes manifestMarker)
                         then (manifestHeader ++ givenBytes) ++ [x0a]
                         else givenBytes)) z t0
                   = (Ok tt, z, t0 ++ new)) as Hw.
  { intros givenBytes t0. by apply writeFileContents_single. }
  destruct (ReadFile fs src) as [givenBytes|e] eqn:Hread; unfold ret, fail.
  - destruct (createdDirs z !! dest) eqn:Hd.
    { intros [= <- <- <-]. split; [done|]. split; [|done].
      split; [done|]. by intros (_ & ? & _). }
    destruct (createdFiles z !! dest) eqn:Hf.
    { intros [= <- <- <-]. split; [done|]. split; [|done].
      split; [done|]. by intros (_ & _ & ?). }
    destruct (Hw givenBytes t) as [new ->]. intros [= <- <- <-].
    split; [done|]. split; [split; eauto|].
    intros _ src2 b2 ->. rewrite Hd, Hf.
    destruct (Hw b2 (t ++ new)) as [new2 ->]. eauto.
  - intros [= <- <- <-]. split; [done|]. split; [|done].
    split; [done|]. by intros ([? ?] & _).
Qed.

(** X17: for a source that is no directory, [addFile] returns nil only if
    the destination was neither a created file nor a created directory, and
    it then records the destination for the source, adding to
    [createdFiles] and never taking from it: no destination is accepted
    for two files. *)
Theorem addFile_destination_once flags fs dest src method z t r z' t' s :
  Lstat fs src = Ok s → IsDir s = false →
  addFile flags fs dest src method z t = (r, z', t') →
  (∀ n, is_Some (createdFiles z !! n) → is_Some (createdFiles z' !! n)) ∧
  (r = Ok tt →
   createdFiles z !! dest = None ∧ createdDirs z' !! dest = None ∧
   createdFiles z' = <[dest := src]> (createdFiles z)).
Proof.
  intros Hs Hd. unfold addFile, bind. rewrite Hs. simpl. rewrite Hd.
  destruct (writeDirectory flags (filepath.Dir dest) src z t)
    as [[[[]|e] z1] t1] eqn:Hw.
  - apply writeDirectory_spec in Hw as (new & -> & -> & _).
    unfold get. destruct (createdDirs (with_dirs z new src) !! dest) eqn:Hcd;
      [by unfold fail; intros [= <- <- <-]|].
    change (createdFiles (with_dirs z new src)) with (createdFiles z).
    destruct (createdFiles z !! dest) eqn:Hcf;
      [by unfold fail; intros [= <- <- <-]|].
    unfold put.
    assert (∀ n, is_Some (createdFiles z !! n) →
                 is_Some (<[dest := src]> (createdFiles z) !! n)) as Hmono.
    { intros n Hn. destruct (decide (dest = n)) as [->|Hne].
      - rewrite lookup_insert_eq. eauto.
      - by rewrite lookup_insert_ne. }
    destruct (negb (Z.land (fi_Mode s) os_ModeSymlink =? 0)).
    + unfold writeSymlink, bind, get, lift.
      destruct (Readlink fs src); unfold ret, fail, emit;
        by intros [= <- <- <-].
    + destruct (negb (IsRegular s)); [by unfold fail; intros [= <- <- <-]|].
      unfold lift. destruct (Open fs src) as [rd|e]; unfold ret, fail;
        [|by intros [= <- <- <-]].
      by intros (-> & _)%writeFileContents_segment.
  - pose proof Hw as (_ & Hf & _)%writeDirectory_error.
    intros [= <- <- <-]. split; [|done]. intros n. by rewrite Hf.
Qed.

End Destinations.

Lemma addManifest_records_nothing_witness :
  let z := sample_zipWriter true in
  let run := @addManifest sample_lib sample_fs manifestDest "mf.txt" zip_Deflate
               z [] in
  run.1.2 = z ∧
  (Ok tt = Ok tt ↔
   (∃ b, ReadFile sample_fs "mf.txt" = Ok b) ∧
   createdDirs z !! manifestDest = None ∧
   createdFiles z !! manifestDest = None) ∧
  (Ok tt = Ok tt → ∀ src2 b2, ReadFile sample_fs src2 = Ok b2 →
   ∃ t2, @addManifest sample_lib sample_fs manifestDest src2 zip_Deflate
           run.1.2 run.2 = (Ok tt, run.1.2, t2)).
Proof.
  intros z run.
  apply (@addManifest_records_nothing sample_lib sample_fs manifestDest
           "mf.txt" zip_Deflate z [] (Ok tt) run.1.2 run.2).
  vm_compute. reflexivity.
Defined.

Lemma addFile_destination_once_witness :
  let z := sample_zipWriter true in
  let run := @addFile sample_lib (sample_flags true "") sample_fs "d/b.bin"
               "d/b.bin" zip_Deflate z [] in
  (∀ n, is_Some (createdFiles z !! n) → is_Some (createdFiles run.1.2 !! n)) ∧
  (Ok tt = Ok tt →
   createdFiles z !! "d/b.bin" = None ∧ createdDirs run.1.2 !! "d/b.bin" = None ∧
   createdFiles run.1.2 = <["d/b.bin" := "d/b.bin"]> (createdFiles z)).
Proof.
  intros z run.
  apply (@addFile_destination_once sample_lib (sample_flags true "") sample_fs
           "d/b.bin" "d/b.bin" zip_Deflate z [] (Ok tt) run.1.2 run.2
           {| fi_Mode := 420; fi_Size := 2 |}).
  - reflexivity.
  - reflexivity.
  - vm_compute. reflexivity.
Defined.
(** ** Symbolic links and goroutines *)

Lemma symlink_archive z rel target :
  archive [PSendOp (symlink_op z rel target)]
  = [CreateHeaderAndroid
       (SetMode (SetModTime (newFileHeader rel 0 0) (time z))
          (Z.lor 448 os_ModeSymlink));
     Copy (bytes_of_string target); CloseWriter nopCloser].
Proof. done. Qed.

Section Symlinks.
Context `{lib : Lib}.

(** X18: for a source that is a symbolic link, [addFile] does not look at
    the method of the mapping and opens no file: after the directories of
    the destination it sends one entry, filled in already, which the writer
    stores as it is: a header with the name of the destination, the mode of
    a symbolic link and no size or checksum, the target of the link as its
    content, and the close of the entry.  When [os.Readlink] fails its
    error is returned and no entry is sent for the link, though the
    destination stays recorded. *)
Theorem addFile_symlink flags fs dest src method z t s :
  Lstat fs src = Ok s → IsDir s = false →
  Z.land (fi_Mode s) os_ModeSymlink ≠ 0 →
  createdFiles z !! dest = None →
  ∀ z1 t1,
    writeDirectory flags (filepath.Dir dest) src z t = (Ok tt, z1, t1) →
    createdDirs z1 !! dest = None →
    let z2 := set_createdFiles z1 (<[dest := src]> (createdFiles z1)) in
    match Readlink fs src with
    | Ok target =>
        addFile flags fs dest src method z t
        = (Ok tt, z2, t1 ++ [PSendOp (symlink_op z2 dest target)]) ∧
        archive [PSendOp (symlink_op z2 dest target)]
        = [CreateHeaderAndroid
             (SetMode (SetModTime (newFileHeader dest 0 0) (time z))
                (Z.lor 448 os_ModeSymlink));
           Copy (bytes_of_string target); CloseWriter nopCloser]
    | Err e => addFile flags fs dest src method z t = (Err e, z2, t1)
    end.
Proof.
  intros Hs Hd Hl Hf z1 t1 Hw Hcd z2. unfold addFile, bind.
  rewrite Hs. simpl. rewrite Hd, Hw. unfold get. rewrite Hcd.
  pose proof Hw as (new & -> & _)%writeDirectory_spec.
  change (createdFiles (with_dirs z new src)) with (createdFiles z) in *.
  rewrite Hf. unfold put. apply Z.eqb_neq in Hl. rewrite Hl. simpl.
  unfold writeSymlink, bind, get, lift.
  destruct (Readlink fs src) as [target|e]; [|done].
  unfold ret, emit. split; [done|]. by rewrite symlink_archive.
Qed.


End Symlinks.

Lemma addFile_symlink_witness :
  let fs := {| Lstat := fun _ => Ok {| fi_Mode := Z.lor 511 os_ModeSymlink;
                                       fi_Size := 5 |};
               Open := Open sample_fs; ReadFile := ReadFile sample_fs;
               Readlink := fun _ => Ok "a.txt";
               Create := Create sample_fs; Walk := Walk sample_fs;
               trace_Start := None |} in
  let z := sample_zipWriter false in
  let z2 := set_createdFiles z (<["link" := "link"]> (createdFiles z)) in
  @addFile sample_lib (sample_flags false "") fs "link" "link" zip_Deflate z []
  = (Ok tt, z2, [] ++ [PSendOp (symlink_op z2 "link" "a.txt")]) ∧
  archive [PSendOp (symlink_op z2 "link" "a.txt")]
  = [CreateHeaderAndroid
       (SetMode (SetModTime (newFileHeader "link" 0 0) (time z))
          (Z.lor 448 os_ModeSymlink));
     Copy (bytes_of_string "a.txt"); CloseWriter nopCloser].
Proof.
  intros fs z z2.
  apply (@addFile_symlink sample_lib (sample_flags false "") fs "link" "link"
           zip_Deflate z []
           {| fi_Mode := Z.lor 511 os_ModeSymlink; fi_Size := 5 |}
           eq_refl eq_refl ltac:(done) eq_refl z [] eq_refl eq_refl).
Defined.
(** ** The loop of writeDirectory reaches the top *)

Lemma length_append s1 s2 :
  String.length (s1 +:+ s2) = (String.length s1 + String.length s2)%nat.
Proof. induction s1 as [|c s1 IH]; simpl; [done|]. by rewrite IH. Qed.

Lemma split_from_total cur s :
  total (filepath.split_from cur s) = S (String.length cur + String.length s).
Proof.
  revert cur. induction s as [|c s IH]; intros cur; simpl.
  - lia.
  - destruct (Ascii.eqb c "/"); simpl.
    + rewrite IH. simpl. lia.
    + rewrite IH, length_append. simpl. lia.
Qed.

Lemma push_total root stack e :
  (total (filepath.push root stack e) <= total stack + S (String.length e))%nat.
Proof.
  unfold filepath.push.
  destruct (String.eqb e ""); [lia|].
  destruct (String.eqb e "."); [lia|].
  destruct (String.eqb e "..") eqn:He.
  - apply String.eqb_eq in He as ->.
    destruct stack as [|top rest]; [destruct root; simpl; lia|].
    destruct (String.eqb top ".."); simpl; lia.
  - simpl. lia.
Qed.

Lemma fold_push_total root es stack :
  (total (fold_left (filepath.push root) es stack) <= total stack + total es)%nat.
Proof.
  revert stack. induction es as [|e es IH]; intros stack; simpl; [lia|].
  pose proof (IH (filepath.push root stack e)).
  pose proof (push_total root stack e). lia.
Qed.

Lemma total_app l1 l2 : total (l1 ++ l2) = (total l1 + total l2)%nat.
Proof. induction l1 as [|e l1 IH]; simpl; [done|]. rewrite IH. lia. Qed.

Lemma total_rev l : total (rev l) = total l.
Proof.
  induction l as [|e l IH]; simpl; [done|].
  rewrite total_app, IH. simpl. lia.
Qed.

Lemma join_length es :
  es ≠ [] → S (String.length (filepath.join es)) = total es.
Proof.
  induction es as [|e es IH]; intros Hne; [done|].
  destruct es as [|e' es'].
  - simpl. lia.
  - change (filepath.join (e :: e' :: es'))
      with (e +:+ "/" +:+ filepath.join (e' :: es')).
    rewrite !length_append.
    change (total (e :: e' :: es'))
      with (S (String.length e) + total (e' :: es'))%nat.
    rewrite <- IH by done. simpl. lia.
Qed.

Lemma Clean_length u :
  u ≠ "" → (String.length (filepath.Clean u) <= String.length u)%nat.
Proof.
  intros Hu. unfold filepath.Clean, filepath.split.
  destruct u as [|c u']; [done|]. simpl filepath.rooted.
  destruct (Ascii.eqb c "/") eqn:Hc.
  - simpl filepath.split_from. rewrite Hc. simpl fold_left.
    change (filepath.push true [] "") with (@nil string).
    pose proof (fold_push_total true (filepath.split_from "" u') []) as Hle.
    rewrite split_from_total in Hle.
    rewrite <- (total_rev (fold_left _ _ _)) in Hle.
    change (total []) with 0%nat in Hle.
    change (String.length "") with 0%nat in Hle.
    destruct (rev _) as [|e es] eqn:E; [simpl; lia|].
    rewrite length_append.
    pose proof (join_length (e :: es) ltac:(done)) as Hj.
    change (String.length "/") with 1%nat.
    change (String.length (String c u')) with (S (String.length u')). lia.
  - pose proof (fold_push_total false
                  (filepath.split_from "" (String c u')) []) as Hle.
    rewrite split_from_total in Hle.
    rewrite <- (total_rev (fold_left _ _ _)) in Hle.
    change (total []) with 0%nat in Hle.
    change (String.length "") with 0%nat in Hle.
    destruct (rev _) as [|e es] eqn:E; [simpl; lia|].
    pose proof (join_length (e :: es) ltac:(done)) as Hj.
    change ("" +:+ filepath.join (e :: es)) with (filepath.join (e :: es)).
    lia.
Qed.

Lemma upto_last_slash_length d :
  (String.length (filepath.upto_last_slash d) <= String.length d)%nat ∧
  (d ≠ "" → filepath.ends_slash d = false →
   (String.length (filepath.upto_last_slash d) < String.length d)%nat).
Proof.
  induction d as [|c d [IH1 IH2]]; [done|].
  cbn [filepath.upto_last_slash String.length].
  remember (filepath.upto_last_slash d) as r eqn:Hr.
  split.
  - destruct (Ascii.eqb c "/"); [simpl; lia|].
    destruct r; simpl in *; lia.
  - intros _ He. destruct d as [|c' d'].
    + simpl in He, Hr. subst r. rewrite He. simpl. lia.
    + assert (filepath.ends_slash (String c' d') = false) as He' by exact He.
      specialize (IH2 ltac:(done) He').
      destruct (Ascii.eqb c "/"); [simpl in *; lia|].
      destruct r; simpl in *; lia.
Qed.

(** The parent of a cleaned path is the dot or the root, or it is
    shorter than the path. *)
Lemma Dir_shorter d :
  cleaned d →
  d = "/" ∨ filepath.Dir d = "." ∨
  (String.length (filepath.Dir d) < String.length d)%nat.
Proof.
  intros [x ->]. destruct (filepath_facts.Clean_ends x) as [->|He]; [by left|].
  right. unfold filepath.Dir.
  destruct (filepath.upto_last_slash (filepath.Clean x)) eqn:Hu; [by left|].
  right. pose proof (Clean_length (String a s) ltac:(done)) as H1.
  pose proof (upto_last_slash_length (filepath.Clean x)) as [_ H2].
  specialize (H2 (Clean_nonempty x) He). rewrite Hu in H2. lia.
Qed.

Lemma Dir_root : filepath.Dir "/" = "/".
Proof. done. Qed.

Lemma discover_top fuel src dir zipDirs z t d zd z' t' :
  cleaned dir → (String.length dir + 2 <= fuel)%nat →
  discover fuel src dir zipDirs z t = (Ok (d, zd), z', t') →
  (d = "." ∨ is_Some (createdDirs z' !! d)) ∧
  (zd = zipDirs ∧ d = dir ∨ ∃ h rest, zd = h :: rest ∧ d = filepath.Dir h).
Proof.
  revert dir zipDirs z.
  induction fuel as [|fuel IH]; intros dir zipDirs z Hcl Hfuel; [lia|].
  simpl.
  destruct (negb (String.eqb dir "") && negb (String.eqb dir ".")) eqn:Hc.
  - unfold bind, get. destruct (createdDirs z !! dir) eqn:Hd.
    { unfold ret. intros [= <- <- <- <-]. split; [right; eauto|by left]. }
    destruct (createdFiles z !! dir); [done|]. unfold put.
    destruct (Dir_shorter dir Hcl) as [->|[Hdot|Hlt]].
    + (* the root: its parent is the root, created just now *)
      rewrite Dir_root. destruct fuel as [|fuel']; [lia|]. simpl.
      unfold bind, get. simpl. rewrite lookup_insert_eq. unfold ret.
      intros [= <- <- <- <-]. split.
      * right. simpl. rewrite lookup_insert_eq. eauto.
      * right. by exists "/", zipDirs.
    + (* the parent is the dot *)
      rewrite Hdot. destruct fuel as [|fuel']; [lia|]. simpl. unfold ret.
      intros [= <- <- <- <-]. split; [by left|].
      right. by exists dir, zipDirs.
    + intros H. apply IH in H as [H1 H2].
      * split; [done|]. right.
        destruct H2 as [[-> ->]|(h & rest & -> & ->)]; eauto.
      * by exists (filepath.upto_last_slash dir).
      * lia.
  - unfold ret. intros [= <- <- <- <-]. split; [|by left].
    apply andb_false_iff in Hc as [Hc|Hc];
      apply negb_false_iff, String.eqb_eq in Hc; [|by left].
    destruct Hcl as [x Hx]. rewrite Hc in Hx. symmetry in Hx.
    by apply Clean_nonempty in Hx.
Qed.

Lemma discover_parents fuel src dir zipDirs z t d zd z' t' :
  discover fuel src dir zipDirs z t = (Ok (d, zd), z', t') →
  (∀ x, is_Some (createdDirs z !! x) →
        filepath.Dir x = "." ∨ is_Some (createdDirs z !! filepath.Dir x) ∨
        filepath.Dir x = dir) →
  ∀ x, is_Some (createdDirs z' !! x) →
       filepath.Dir x = "." ∨ is_Some (createdDirs z' !! filepath.Dir x) ∨
       filepath.Dir x = d.
Proof.
  revert dir zipDirs z.
  induction fuel as [|fuel IH]; intros dir zipDirs z; simpl.
  { unfold ret. by intros [= <- <- <- <-]. }
  destruct (negb (String.eqb dir "") && negb (String.eqb dir ".")).
  - unfold bind, get. destruct (createdDirs z !! dir) eqn:Hd.
    { unfold ret. by intros [= <- <- <- <-]. }
    destruct (createdFiles z !! dir); [done|]. unfold put.
    intros H Hinv. eapply IH; [exact H|]. clear H IH.
    intros x. simpl.
    destruct (decide (x = dir)) as [->|Hx]; [auto|].
    rewrite lookup_insert_ne by done. intros Hs.
    destruct (Hinv x Hs) as [H|[H|H]]; [auto| |].
    + right. left.
      destruct (decide (filepath.Dir x = dir)) as [->|Hp].
      * rewrite lookup_insert_eq. eauto.
      * by rewrite lookup_insert_ne.
    + right. left. rewrite H, lookup_insert_eq. eauto.
  - unfold ret. by intros [= <- <- <- <-].
Qed.

(** X20: [writeDirectory] creates a directory together with its
    parents: when the parent of every created directory is created or is
    the dot, this still holds after [writeDirectory] has returned nil, so
    its loop has climbed to the dot or to a created directory. *)
Theorem writeDirectory_keeps_parents flags dir src z t z' t' :
  parents_created (createdDirs z) →
  writeDirectory flags dir src z t = (Ok tt, z', t') →
  parents_created (createdDirs z').
Proof.
  intros Hinv. unfold writeDirectory, bind.
  destruct (discover _ src (filepath.Clean dir) [] z t)
    as [[[[d zd]|e] z1] t1] eqn:Hd; [|done].
  pose proof Hd as [Htop _]%discover_top; [|by exists dir|lia].
  pose proof (discover_parents _ _ _ _ _ _ _ _ _ _ Hd) as Hp.
  unfold get. intros H.
  assert (z' = z1) as ->.
  { destruct (directories z1).
    - rewrite for_each_emit in H. by injection H as <- <-.
    - unfold ret in H. by injection H as <- <-. }
  intros x Hx. destruct (Hp ltac:(intros y Hy; destruct (Hinv y Hy); auto) x Hx)
    as [?|[?|Hxd]]; [auto|auto|].
  rewrite Hxd. destruct Htop; auto.
Qed.

Lemma writeDirectory_keeps_parents_witness :
  parents_created
    (createdDirs (writeDirectory (sample_flags true "") "lib/x/" "lib/x/a.txt"
                    (sample_zipWriter true) []).1.2).
Proof.
  apply (writeDirectory_keeps_parents (sample_flags true "") "lib/x/"
           "lib/x/a.txt" (sample_zipWriter true) []
           _ (writeDirectory (sample_flags true "") "lib/x/" "lib/x/a.txt"
                (sample_zipWriter true) []).2).
  - intros d [v Hv]. vm_compute in Hv. done.
  - vm_compute. reflexivity.
Defined.
